(** * Steam Workshop Downloader: repository, resolver and process monitor

    A shallow embedding of [mod_manager.py], [steam_api.py] and
    [steamcmd_downloader.py], with the properties of the design document
    stated over it.

    Conventions.
    - A Python [str] is a [string] holding the UTF-8 bytes of the text.
      The regular expressions run on its characters (code points), with
      [\d] and [re.IGNORECASE] as Python has them for a [str] pattern.
      [str.lower] and [str.strip] of the list filter are modelled on
      ASCII letters and white space.
    - A Python [set] of ids is a [gset string], a [dict] keyed by ids is a
      [gmap string _]; a [list] is a [list].
    - The regular expressions of the source are values of [Re.re], run by a
      backtracking matcher with Python's priorities (leftmost start, first
      alternative first, greedy repetition).
    - A nested function that calls itself gets the number of free levels
      of the interpreter's recursion counter; a call that finds too few
      raises [RecursionError], which the walks do not catch. *)

From Stdlib Require Import Ascii String ZArith Lia Wf_nat.
From stdpp Require Import gmap strings list fin_maps fin_sets relations sorting.

#[local] Set Warnings "-clear-no-such-hyp".

Local Open Scope string_scope.

(* ===================================================================== *)
(** ** Regular expressions (the fragment used by the source) *)
(* ===================================================================== *)

Module Re.

(** *** Characters

    A character is its code point. A [str] is held as the bytes of its
    UTF-8 form; the matcher runs on its characters. *)

(** The characters of a string, one byte at a time: [pending] is the
    number of continuation bytes still to come and [acc] what the bytes
    of the character read so far hold. Bytes that are not the UTF-8
    form of a text, which no [str] gives, are read without a check. *)
Fixpoint decode_from (pending : nat) (acc : N) (s : string) : list N :=
  match s with
  | EmptyString => []
  | String b s' =>
      let n := N_of_ascii b in
      match pending with
      | O =>
          if (n <? 128)%N then n :: decode_from 0 0 s'
          else if (n <? 224)%N then decode_from 1 (n mod 32) s'
          else if (n <? 240)%N then decode_from 2 (n mod 16) s'
          else decode_from 3 (n mod 8) s'
      | S p =>
          let acc' := (acc * 64 + n mod 64)%N in
          match p with
          | O => acc' :: decode_from 0 0 s'
          | S _ => decode_from p acc' s'
          end
      end
  end.

Definition decode (s : string) : list N := decode_from 0 0 s.

Definition byte (n : N) : ascii := ascii_of_N n.

(** The UTF-8 bytes of one character. *)
Definition encode_char (c : N) : string :=
  if (c <? 128)%N then String (byte c) ""
  else if (c <? 2048)%N then
    String (byte (192 + c / 64)) (String (byte (128 + c mod 64)) "")
  else if (c <? 65536)%N then
    String (byte (224 + c / 4096))
      (String (byte (128 + (c / 64) mod 64)) (String (byte (128 + c mod 64)) ""))
  else
    String (byte (240 + c / 262144))
      (String (byte (128 + (c / 4096) mod 64))
         (String (byte (128 + (c / 64) mod 64))
            (String (byte (128 + c mod 64)) ""))).

Fixpoint encode (cs : list N) : string :=
  match cs with
  | [] => ""
  | c :: cs' => encode_char c +:+ encode cs'
  end.

(** The first digit of each run of ten decimal digits of Unicode 14.0,
    the character database of CPython 3.11 ([0-9], Arabic-Indic,
    Devanagari, ..., full-width, ...). *)
Definition decimal_zeros : list N :=
  [48; 1632; 1776; 1984; 2406; 2534; 2662; 2790; 2918; 3046; 3174; 3302;
   3430; 3558; 3664; 3792; 3872; 4160; 4240; 6112; 6160; 6470; 6608;
   6784; 6800; 6992; 7088; 7232; 7248; 42528; 43216; 43264; 43472; 43504;
   43600; 44016; 65296; 66720; 68912; 69734; 69872; 69942; 70096; 70384;
   70736; 70864; 71248; 71360; 71472; 71904; 72016; 72784; 73040; 73120;
   92768; 92864; 93008; 123200; 123632; 125264; 130032]%N.

(** [\d] of a [str] pattern: a character of category Nd. The
    mathematical digits U+1D7CE to U+1D7FF are five runs in a row. *)
Definition digit (c : N) : bool :=
  existsb (fun z => (z <=? c)%N && (c <=? z + 9)%N) decimal_zeros
  || ((120782 <=? c)%N && (c <=? 120831)%N).

(** [.] : anything but a line feed *)
Definition dot (c : N) : bool := negb (c =? 10)%N.

(** What [re.IGNORECASE] compares: [A-Z] go to [a-z], and the dotted
    capital I (U+0130), the dotless i (U+0131), the long s (U+017F) and
    the Kelvin sign (U+212A) go with [i], [i], [s] and [k]. No other
    character is taken for an ASCII one. *)
Definition fold (c : N) : N :=
  if (65 <=? c)%N && (c <=? 90)%N then (c + 32)%N
  else if (c =? 304)%N || (c =? 305)%N then 105%N
  else if (c =? 383)%N then 115%N
  else if (c =? 8490)%N then 107%N
  else c.

(** A character [a] of the pattern against a character [c] of the text. *)
Definition chr_eqb (icase : bool) (a c : N) : bool :=
  if icase then (fold a =? fold c)%N else (a =? c)%N.

(** *** Patterns

    The literals of the source's patterns are ASCII. *)

Inductive re : Type :=
| Str (l : string)              (* a literal run of characters *)
| Cls (p : N -> bool)           (* one character of a class *)
| Seq (a b : re)
| Alt (a b : re)                (* a|b, a tried first *)
| Star (p : N -> bool)          (* greedy repetition of a class *)
| Grp (a : re).                 (* the capturing group *)

(** [\d+] *)
Definition Plus (p : N -> bool) : re := Seq (Cls p) (Star p).

(** The literal [l] at the head of [s]; the rest of [s] on success. *)
Fixpoint lit (icase : bool) (l : string) (s : list N) : option (list N) :=
  match l with
  | EmptyString => Some s
  | String a l' =>
      match s with
      | c :: s' => if chr_eqb icase (N_of_ascii a) c then lit icase l' s' else None
      | [] => None
      end
  end.

(** What was consumed between [s] and its suffix [s']. *)
Definition consumed (s s' : list N) : list N :=
  take (length s - length s') s.

Section Matcher.
Context {R : Type}.

Fixpoint star (p : N -> bool) (s : list N) (k : list N -> option R)
  : option R :=
  match s with
  | c :: s' =>
      if p c then
        match star p s' k with
        | Some r => Some r
        | None => k s
        end
      else k s
  | [] => k s
  end.

(** [go icase r s cap k]: match [r] at the head of [s] and hand the
    rest and the group to [k]; [None] makes the matcher backtrack. *)
Fixpoint go (icase : bool) (r : re) (s : list N) (cap : option (list N))
  (k : list N -> option (list N) -> option R) : option R :=
  match r with
  | Str l =>
      match lit icase l s with
      | Some s' => k s' cap
      | None => None
      end
  | Cls p =>
      match s with
      | c :: s' => if p c then k s' cap else None
      | [] => None
      end
  | Seq a b => go icase a s cap (fun s' cap' => go icase b s' cap' k)
  | Alt a b =>
      match go icase a s cap k with
      | Some x => Some x
      | None => go icase b s cap k
      end
  | Star p => star p s (fun s' => k s' cap)
  | Grp a => go icase a s cap (fun s' _ => k s' (Some (consumed s s')))
  end.
End Matcher.

(** The match at the leftmost position that has one; the result is the
    group ([None] inside when the group did not take part). *)
Fixpoint search_from (icase : bool) (r : re) (s : list N)
  : option (option (list N)) :=
  match go icase r s None (fun _ cap => Some cap) with
  | Some cap => Some cap
  | None =>
      match s with
      | _ :: s' => search_from icase r s'
      | [] => None
      end
  end.

(** [re.search] on a [str]; the group comes back as a [str]. *)
Definition search (icase : bool) (r : re) (s : string) : option (option string) :=
  match search_from icase r (decode s) with
  | Some (Some g) => Some (Some (encode g))
  | Some None => Some None
  | None => None
  end.

(** Truth value of [pattern.search(s)]. *)
Definition matches (icase : bool) (r : re) (s : string) : bool :=
  match search icase r s with Some _ => true | None => false end.

(** [m.group(1)] of a search whose pattern has its group on every path. *)
Definition search_group (icase : bool) (r : re) (s : string) : option string :=
  match search icase r s with
  | Some (Some g) => Some g
  | _ => None
  end.

(** The text of one or more characters of the class [p]. *)
Definition chars_of (p : N -> bool) (s : string) : Prop :=
  exists cs, cs <> [] /\ forallb p cs = true /\ s = encode cs.

(** The patterns whose last part is [id=(\d+)]. *)
Inductive ends_in_id : re -> Prop :=
| ends_in_id_here : ends_in_id (Seq (Str "id=") (Grp (Plus digit)))
| ends_in_id_seq a b : ends_in_id b -> ends_in_id (Seq a b).

End Re.

(* ===================================================================== *)
(** ** The mod repository ([mod_manager.py]) *)
(* ===================================================================== *)

Module ModManager.

(** The [info] bag of a record. An absent key is [None]; [{}] is
    [empty_info]. *)
Record Info : Type := mkInfo {
  title : option string;
  app_id : option Z;
  description : option string;
  dependencies : option (list string);
  error : option string
}.

Definition empty_info : Info := mkInfo None None None None None.

(** A mod record [{"id", "url", "info", "is_dependency"}]. *)
Record Mod : Type := mkMod {
  mod_id : string;
  url : string;
  info : Info;
  is_dependency : bool
}.

#[global] Instance Info_eq_dec : EqDecision Info.
Proof. solve_decision. Defined.
#[global] Instance Mod_eq_dec : EqDecision Mod.
Proof. solve_decision. Defined.

Definition set_is_dependency (b : bool) (m : Mod) : Mod :=
  mkMod (mod_id m) (url m) (info m) b.

(** [mod.get('info', {}).get('dependencies', [])] *)
Definition deps_of (m : Mod) : list string :=
  default [] (dependencies (info m)).

Definition has_id (i : string) (m : Mod) : bool := String.eqb (mod_id m) i.

(** [next((m for m in self.mods if m['id'] == mod_id), None)] *)
Definition get_mod_by_id (mods : list Mod) (i : string) : option Mod :=
  List.find (has_id i) mods.

(** An assignment through the reference that [next(...)] returned: it
    lands on the first record that has the id. *)
Fixpoint update_first (i : string) (f : Mod -> Mod) (mods : list Mod)
  : list Mod :=
  match mods with
  | [] => []
  | m :: ms => if has_id i m then f m :: ms else m :: update_first i f ms
  end.

Definition placeholder (i : string) (is_dep : bool) : Mod :=
  let u := "https://steamcommunity.com/workshop/filedetails/?id=" +:+ i in
  let t := if negb is_dep then "Fetching info for " +:+ i +:+ "..."
           else "Fetching dependency " +:+ i +:+ "..." in
  mkMod i u (mkInfo (Some t) None None None None) is_dep.

(** [add_mod_by_id]: the repository afterwards and the returned bool. *)
Definition add_mod_by_id (mods : list Mod) (i : string) (is_dep : bool)
  : list Mod * bool :=
  match get_mod_by_id mods i with
  | Some existing_mod =>
      if is_dependency existing_mod && negb is_dep
      then (update_first i (set_is_dependency false) mods, true)
      else (mods, false)
  | None => ((mods ++ [placeholder i is_dep])%list, true)
  end.

(** [steamcommunity\.com/(?:sharedfiles|workshop)/filedetails/\?.*id=(\d+)] *)
Definition url_pattern : Re.re :=
  Re.Seq (Re.Str "steamcommunity.com/")
    (Re.Seq (Re.Alt (Re.Str "sharedfiles") (Re.Str "workshop"))
       (Re.Seq (Re.Str "/filedetails/?")
          (Re.Seq (Re.Star Re.dot)
             (Re.Seq (Re.Str "id=") (Re.Grp (Re.Plus Re.digit)))))).

(** [add_mod_by_url]: the repository afterwards and the id, if any. *)
Definition add_mod_by_url (mods : list Mod) (u : string)
  : list Mod * option string :=
  match Re.search_group false url_pattern u with
  | None => (mods, None)
  | Some i => (fst (add_mod_by_id mods i false), Some i)
  end.

Definition ids (mods : list Mod) : list string := map mod_id mods.

(** [{mod['id']: mod for mod in self.mods}]: a later record replaces an
    earlier one that has the same id. *)
Definition mods_dict_of (mods : list Mod) : gmap string Mod :=
  foldl (fun d m => <[mod_id m := m]> d) ∅ mods.

(** *** [get_all_dependencies_efficient] *)

(** The three sets of the loop. *)
Record Closure : Type := mkClosure {
  all_dependencies : gset string;
  to_process : gset string;
  processed : gset string
}.

(** The body of [for dep_id in dependencies], on the pair
    [(all_dependencies, to_process)]; [proc] is [processed], which the
    inner loop only reads. *)
Definition visit_dep (proc : gset string) (acc : gset string * gset string)
  (dep_id : string) : gset string * gset string :=
  ({[dep_id]} ∪ acc.1,
   if decide (dep_id ∈ proc) then acc.2 else {[dep_id]} ∪ acc.2).

(** One turn of [while to_process], [current_id] being the id that
    [to_process.pop()] took out. *)
Definition iteration (mods_dict : gmap string Mod) (current_id : string)
  (st : Closure) : Closure :=
  let todo := to_process st ∖ {[current_id]} in
  if decide (current_id ∈ processed st) then
    mkClosure (all_dependencies st) todo (processed st)
  else
    let proc := {[current_id]} ∪ processed st in
    match mods_dict !! current_id with
    | Some m =>
        let acc := foldl (visit_dep proc) (all_dependencies st, todo) (deps_of m) in
        mkClosure acc.1 acc.2 proc
    | None => mkClosure (all_dependencies st) todo proc
    end.

(** [set.pop()] takes out an arbitrary element, so a turn of the loop may
    run with any member of [to_process]. *)
Inductive step (mods_dict : gmap string Mod) : Closure -> Closure -> Prop :=
| step_pop st current_id :
    current_id ∈ to_process st ->
    step mods_dict st (iteration mods_dict current_id st).

(** A whole run of the loop from [st], returning [all_dependencies] when
    [to_process] is empty. *)
Inductive returns (mods_dict : gmap string Mod) : Closure -> gset string -> Prop :=
| returns_done st :
    to_process st = ∅ -> returns mods_dict st (all_dependencies st)
| returns_step st st' r :
    step mods_dict st st' -> returns mods_dict st' r -> returns mods_dict st r.

Definition initial (mod_ids : gset string) : Closure := mkClosure ∅ mod_ids ∅.

(** Every result that [get_all_dependencies_efficient(mod_ids)] can
    return, over all orders in which [pop] may hand out the ids. *)
Definition may_return (mods : list Mod) (mod_ids r : gset string) : Prop :=
  returns (mods_dict_of mods) (initial mod_ids) r.

(** An executable run: [pop] takes the first element of the set. *)
Definition pop (s : gset string) : option string := head (elements s).

Fixpoint loop (fuel : nat) (mods_dict : gmap string Mod) (st : Closure)
  : option (gset string) :=
  match pop (to_process st) with
  | None => Some (all_dependencies st)
  | Some current_id =>
      match fuel with
      | O => None
      | S fuel' => loop fuel' mods_dict (iteration mods_dict current_id st)
      end
  end.

(** Every id that some record lists as a dependency. *)
Definition listed_deps (mods : list Mod) : gset string :=
  list_to_set (concat (map deps_of mods)).

Definition get_all_dependencies_efficient (mods : list Mod)
  (mod_ids : gset string) : option (gset string) :=
  loop (size (listed_deps mods ∪ mod_ids)) (mods_dict_of mods) (initial mod_ids).

(** *** [build_hierarchical_list] *)

(** What the nested function closes over and mutates. *)
Record Walk : Type := mkWalk {
  hierarchical_list : list (Mod * nat);
  processed_mods : gset string
}.

(** [add_mod_with_dependencies(mod, indent_level, visited)]. [visited] is
    the callee's own set: the caller passes [visited.copy()], so the
    [add] below is not seen by the caller or by sibling calls.

    The function calls itself, one interpreter frame per level of
    dependency. [frames] is the number of levels of the interpreter's
    recursion counter that are free when the call is made (the recursion
    limit less the depth of the stack). Entering the function takes one:
    with none left the call raises [RecursionError], here [None]. The
    call of a built-in method, of which [visited.add] is the first,
    takes [builtin_levels] more while it runs: one on an interpreter
    that counts such calls against the same limit, as CPython 3.11 does,
    none on one that counts them apart. Nothing in the walk catches the
    error, so it ends the walk. *)
Fixpoint add_mod_with_dependencies (builtin_levels frames : nat)
  (mods_by_id : gmap string Mod)
  (m : Mod) (indent_level : nat) (visited : gset string) (st : Walk)
  : option Walk :=
  match frames with
  | O => None
  | S frames' =>
      if decide (mod_id m ∈ visited ∨ mod_id m ∈ processed_mods st) then Some st
      else if (frames' <? builtin_levels)%nat then None
      else
        let visited := {[mod_id m]} ∪ visited in
        let st := mkWalk (hierarchical_list st ++ [(m, indent_level)])%list
                         ({[mod_id m]} ∪ processed_mods st) in
        foldl (fun acc dep_id =>
                 match acc with
                 | None => None
                 | Some st =>
                     match mods_by_id !! dep_id with
                     | Some dep_mod =>
                         if decide (dep_id ∈ visited) then Some st
                         else add_mod_with_dependencies builtin_levels frames'
                                mods_by_id dep_mod
                                (S indent_level) visited st
                     | None => Some st
                     end
                 end) (Some st) (deps_of m)
  end.

(** [dependency_mods]: the union of all [dependencies] lists. *)
Definition dependency_mods (mods : list Mod) : gset string :=
  foldl (fun s m => s ∪ list_to_set (deps_of m)) ∅ mods.

Definition root_mods (mods : list Mod) : list Mod :=
  let dm := dependency_mods mods in
  filter (fun m => is_dependency m = false ∨ mod_id m ∉ dm) mods.

(** [for mod in root_mods: add_mod_with_dependencies(mod)] *)
Definition walk_roots (builtin_levels frames : nat) (mods_by_id : gmap string Mod)
  (roots : list Mod) (st : Walk) : option Walk :=
  foldl (fun acc m =>
           match acc with
           | None => None
           | Some st =>
               add_mod_with_dependencies builtin_levels frames mods_by_id m 0 ∅ st
           end) (Some st) roots.

(** [for mod in self.mods: if mod['id'] not in processed_mods: ...] *)
Definition walk_rest (builtin_levels frames : nat) (mods_by_id : gmap string Mod)
  (mods : list Mod) (st : Walk) : option Walk :=
  foldl (fun acc m =>
           match acc with
           | None => None
           | Some st =>
               if decide (mod_id m ∈ processed_mods st) then Some st
               else add_mod_with_dependencies builtin_levels frames mods_by_id
                      m 0 ∅ st
           end) (Some st) mods.

(** [build_hierarchical_list], with [frames] levels free for the walk:
    the returned list, or [None] when [RecursionError] was raised. *)
Definition build_hierarchical_list (builtin_levels frames : nat) (mods : list Mod)
  : option (list (Mod * nat)) :=
  let mods_by_id := mods_dict_of mods in
  match walk_roots builtin_levels frames mods_by_id (root_mods mods)
          (mkWalk [] ∅) with
  | None => None
  | Some st =>
      match walk_rest builtin_levels frames mods_by_id mods st with
      | None => None
      | Some st => Some (hierarchical_list st)
      end
  end.

(** *** The vocabulary of the design document *)

(** The three reports that the document gives [addById]. *)
Inductive AddReport : Type := Added | Changed | Unchanged.

(** Which report the document prescribes for a call, in its words: no
    record with the id: "added"; a record marked dependency-only and the
    caller asserts it is not a dependency: "changed"; otherwise
    "unchanged". *)
Definition spec_report (mods : list Mod) (i : string) (is_dep : bool)
  : AddReport :=
  match get_mod_by_id mods i with
  | None => Added
  | Some existing =>
      if is_dependency existing && negb is_dep then Changed else Unchanged
  end.

(** The ids that the record of [x] lists, none when [x] has no record. *)
Definition direct_deps (mods_dict : gmap string Mod) (x : string) : gset string :=
  match mods_dict !! x with
  | Some m => list_to_set (deps_of m)
  | None => ∅
  end.

(** [x] has a record and it lists [y]. *)
Definition requires (mods_dict : gmap string Mod) (x y : string) : Prop :=
  y ∈ direct_deps mods_dict x.

(** [y] is a dependency, over one or more steps, of a seed. *)
Definition transitive_dep (mods_dict : gmap string Mod) (seeds : gset string)
  (y : string) : Prop :=
  exists s, s ∈ seeds /\ tc (requires mods_dict) s y.

(** What a turn of the closure loop makes smaller: the ids that may still
    be marked processed, plus the stale ids of the worklist. *)
Definition closure_measure (mods : list Mod) (st : Closure) : nat :=
  size ((listed_deps mods ∪ to_process st) ∖ processed st)
  + size (to_process st ∩ processed st).

(** What holds of the three sets after any number of turns from
    [initial seeds]. *)
Definition closure_inv (mods_dict : gmap string Mod) (seeds : gset string)
  (st : Closure) : Prop :=
  (forall y, y ∈ all_dependencies st -> transitive_dep mods_dict seeds y)
  /\ (forall x, x ∈ to_process st ∪ processed st ->
                x ∈ seeds \/ transitive_dep mods_dict seeds x)
  /\ seeds ⊆ to_process st ∪ processed st
  /\ (forall x, x ∈ processed st ->
                direct_deps mods_dict x ⊆ all_dependencies st
                /\ direct_deps mods_dict x ⊆ to_process st ∪ processed st).

(** The ids of the emitted entries, in order. *)
Definition emitted_ids (out : list (Mod * nat)) : list string :=
  map (fun e => mod_id e.1) out.




(** What holds of the walk's state between calls: the output has no id
    twice, [processed_mods] is the set of emitted ids, and every emitted
    record is one of the repository. *)
Definition walk_ok (mods : list Mod) (st : Walk) : Prop :=
  NoDup (emitted_ids (hierarchical_list st))
  /\ (forall i, i ∈ processed_mods st <-> i ∈ emitted_ids (hierarchical_list st))
  /\ (forall e, e ∈ hierarchical_list st -> e.1 ∈ mods).


(** *** The other accessors of the repository *)

Definition set_info (new_info : Info) (m : Mod) : Mod :=
  mkMod (mod_id m) (url m) new_info (is_dependency m).

(** [mod["info"]["description"] = description] *)
Definition set_description (text : string) (m : Mod) : Mod :=
  set_info (mkInfo (title (info m)) (app_id (info m)) (Some text)
              (dependencies (info m)) (error (info m))) m.

(** [remove_mod]: [enumerate] finds the first index whose record has the
    id, and [del self.mods[i]] takes that record out. *)
Definition remove_mod (mods : list Mod) (i : string) : list Mod * bool :=
  match list_find (fun m => has_id i m = true) mods with
  | Some (k, _) => (delete k mods, true)
  | None => (mods, false)
  end.

(** [0 <= index < len(self.mods)] on a Python int. *)
Definition valid_index (mods : list Mod) (index : Z) : bool :=
  (0 <=? index)%Z && (index <? Z.of_nat (length mods))%Z.

Definition remove_mod_by_index (mods : list Mod) (index : Z) : list Mod * bool :=
  if valid_index mods index then (delete (Z.to_nat index) mods, true)
  else (mods, false).

Definition get_mod_by_index (mods : list Mod) (index : Z) : option Mod :=
  if valid_index mods index then mods !! Z.to_nat index else None.

Definition get_mods_count (mods : list Mod) : nat := length mods.

Definition update_mod_info (mods : list Mod) (i : string) (new_info : Info)
  : list Mod * bool :=
  match get_mod_by_id mods i with
  | Some _ => (update_first i (set_info new_info) mods, true)
  | None => (mods, false)
  end.

Definition update_mod_description (mods : list Mod) (i : string) (text : string)
  : list Mod * bool :=
  match get_mod_by_id mods i with
  | Some _ => (update_first i (set_description text) mods, true)
  | None => (mods, false)
  end.

(** [find_dependents]: the records that list [i], in repository order. *)
Definition find_dependents (mods : list Mod) (i : string) : list Mod :=
  filter (fun m => i ∈ deps_of m) mods.

(** [get_all_dependencies]: the deprecated entry point; [visited] is
    ignored. *)
Definition get_all_dependencies (mods : list Mod) (i : string)
  (visited : option (gset string)) : option (gset string) :=
  get_all_dependencies_efficient mods {[i]}.

Definition mark_as_dependency (mods : list Mod) (i : string) : list Mod * bool :=
  match get_mod_by_id mods i with
  | Some _ => (update_first i (set_is_dependency true) mods, true)
  | None => (mods, false)
  end.

Definition mark_as_main_mod (mods : list Mod) (i : string) : list Mod * bool :=
  match get_mod_by_id mods i with
  | Some _ => (update_first i (set_is_dependency false) mods, true)
  | None => (mods, false)
  end.

(** Two repositories with the same ids and the same dependency lists,
    record by record. *)
Definition same_graph (mods mods' : list Mod) : Prop :=
  Forall2 (fun a b => mod_id a = mod_id b /\ deps_of a = deps_of b) mods mods'.

(** Every entry below depth 0 comes after an entry one level up whose
    record lists it. *)
Definition nested (out : list (Mod * nat)) : Prop :=
  forall k m lvl,
    out !! k = Some (m, S lvl) ->
    exists j p, j < k /\ out !! j = Some (p, lvl) /\ mod_id m ∈ deps_of p.

(** A call of the walk for [m] at depth [lvl] comes from an emitted
    parent, unless it is a call at the top. *)
Definition parent_emitted (out : list (Mod * nat)) (m : Mod) (lvl : nat) : Prop :=
  match lvl with
  | O => True
  | S lvl' => exists j p, out !! j = Some (p, lvl') /\ mod_id m ∈ deps_of p
  end.




(** The output grew at its end and kept its nesting. *)
Definition grows_nested (st st' : Walk) : Prop :=
  hierarchical_list st `prefix_of` hierarchical_list st'
  /\ (nested (hierarchical_list st) -> nested (hierarchical_list st')).

End ModManager.

(* ===================================================================== *)
(** ** The process monitor ([steamcmd_downloader.py]) *)
(* ===================================================================== *)

Module SteamCMDDownloader.
Import ModManager.

(** An entry of [failed_details]. *)
Record FailedDetail : Type := mkFailed {
  failed_id : string;
  failed_title : string;
  reason : string
}.

(** The dict that [download_mods] returns. *)
Record Result : Type := mkResult {
  completed : nat;
  successful : nat;
  failed_ids : list string;
  failed_details : list FailedDetail
}.

(** The locals of the polling loop that outlive one line. *)
Record Monitor : Type := mkMonitor {
  completed_downloads : nat;
  successful_downloads : nat;
  current_mod_info : option Mod;
  mon_failed_ids : list string;
  mon_failed_details : list FailedDetail
}.

(** [download_patterns], all compiled with [re.IGNORECASE]. *)
Definition start_pattern : Re.re :=
  Re.Seq (Re.Str "downloading item ") (Re.Grp (Re.Plus Re.digit)).
Definition success_pattern : Re.re := Re.Str "success.".
Definition error_pattern : Re.re :=
  Re.Alt (Re.Str "error") (Re.Alt (Re.Str "failed") (Re.Str "timeout")).

Definition is_success (line : string) : bool := Re.matches true success_pattern line.
Definition is_error (line : string) : bool := Re.matches true error_pattern line.

(** [mod["info"].get('title', mod["id"])] *)
Definition title_of (m : Mod) : string := default (mod_id m) (title (info m)).

(** The [start] match of a line rebinds [current_mod_info] when the id
    it names is in the batch. *)
Definition bind_current (mods_by_id : gmap string Mod) (line : string)
  (cur : option Mod) : option Mod :=
  match Re.search_group true start_pattern line with
  | Some downloading_id =>
      match mods_by_id !! downloading_id with
      | Some m => Some m
      | None => cur
      end
  | None => cur
  end.

(** The state changes of one pass of the inner [while] over a line;
    [n_valid] is [len(valid_mods)]. *)
Definition parse_line (mods_by_id : gmap string Mod) (n_valid : nat)
  (st : Monitor) (line : string) : Monitor :=
  let cur := bind_current mods_by_id line (current_mod_info st) in
  match cur with
  | Some m =>
      if is_success line || is_error line then
        if is_success line then
          mkMonitor (S (completed_downloads st)) (S (successful_downloads st))
            None (mon_failed_ids st) (mon_failed_details st)
        else
          mkMonitor (S (completed_downloads st)) (successful_downloads st)
            None
            (mon_failed_ids st ++ [mod_id m])%list
            (mon_failed_details st ++
               [mkFailed (mod_id m) (title_of m) "Download failed"])%list
      else
        mkMonitor (completed_downloads st) (successful_downloads st) cur
          (mon_failed_ids st) (mon_failed_details st)
  | None =>
      if is_success line || is_error line then
        if (completed_downloads st <? n_valid)%nat then
          mkMonitor (S (completed_downloads st)) (S (successful_downloads st))
            None (mon_failed_ids st) (mon_failed_details st)
        else st
      else st
  end.

Definition monitor_start : Monitor := mkMonitor 0 0 None [] [].

(** The polling loop over the lines it came to read. *)
Definition parse_lines (valid_mods : list Mod) (lines : list string) : Monitor :=
  foldl (parse_line (mods_dict_of valid_mods) (length valid_mods))
    monitor_start lines.

(** The adjustment after the loop and the returned dict. *)
Definition finish (n_valid : nat) (st : Monitor) : Result :=
  if (completed_downloads st <? n_valid)%nat then
    mkResult n_valid
      (successful_downloads st + (n_valid - completed_downloads st))
      (mon_failed_ids st) (mon_failed_details st)
  else
    mkResult (completed_downloads st) (successful_downloads st)
      (mon_failed_ids st) (mon_failed_details st).

(** How a run of the subprocess went, as far as the returned dict
    depends on it. The polling loop reads the lines that reached the
    buffer while the process was alive and no stop or timeout ended the
    loop; the lines drained afterwards are logged and not parsed. *)
Inductive ProcessRun : Type :=
| Monitored (parsed : list string)
    (* the loop parsed these lines, then the function returned *)
| Raised (parsed : list string)
    (* an exception was raised in the [try] after these lines, and the
       handler of [_execute_steamcmd_with_monitoring] returned *)
| Escaped (file_not_found : bool).
    (* the handler itself raised (a callback failed again), so the
       exception reached [download_mods] *)

(** [_execute_steamcmd_with_monitoring]; [None] is an exception that
    leaves the function. *)
Definition _execute_steamcmd_with_monitoring (run : ProcessRun)
  (valid_mods : list Mod) : option Result :=
  match run with
  | Monitored parsed =>
      Some (finish (length valid_mods) (parse_lines valid_mods parsed))
  | Raised parsed =>
      let st := parse_lines valid_mods parsed in
      Some (mkResult 0 0 (mon_failed_ids st) (mon_failed_details st))
  | Escaped _ => None
  end.

(** [if not app_id]: an absent, [None] or zero app id. *)
Definition has_app_id (m : Mod) : bool :=
  match app_id (info m) with
  | Some z => negb (z =? 0)%Z
  | None => false
  end.

Definition valid_mods_of (mods : list Mod) : list Mod := List.filter has_app_id mods.

Definition no_app_id (mods : list Mod) : list Mod :=
  List.filter (fun m => negb (has_app_id m)) mods.

Definition no_app_id_detail (m : Mod) : FailedDetail :=
  mkFailed (mod_id m) (title_of m) "No App ID found".

(** The world around one call of [download_mods]. *)
Record World : Type := mkWorld {
  steamcmd_available : bool;      (* [os.path.exists(self.steamcmd_path)] *)
  process_run : ProcessRun
}.

Definition download_mods (w : World) (mods : list Mod) : Result :=
  match mods with
  | [] => mkResult 0 0 [] []
  | _ =>
      if negb (steamcmd_available w) then mkResult 0 0 [] []
      else
        let valid_mods := valid_mods_of mods in
        let failed_ids := map mod_id (no_app_id mods) in
        let failed_details := map no_app_id_detail (no_app_id mods) in
        match valid_mods with
        | [] => mkResult (length failed_ids) 0 failed_ids failed_details
        | _ =>
            match _execute_steamcmd_with_monitoring (process_run w) valid_mods with
            | Some result =>
                mkResult (completed result + length failed_ids)
                  (successful result)
                  (SteamCMDDownloader.failed_ids result ++ failed_ids)%list
                  (SteamCMDDownloader.failed_details result ++ failed_details)%list
            | None => mkResult 0 0 failed_ids failed_details
            end
        end
  end.

(** *** The reader thread *)

(** [output_lines.append(line)] and, above the cap, [output_lines.pop(0)]. *)
Definition buffer_line (cap : nat) (output_lines : list string) (line : string)
  : list string :=
  let appended := (output_lines ++ [line])%list in
  if (cap <? length appended)%nat then drop 1 appended else appended.

(** The loop of [read_output] over what [readline] returns; the empty
    string is the end of the stream. *)
Fixpoint read_lines (cap : nat) (stream : list string) (output_lines : list string)
  : list string :=
  match stream with
  | [] => output_lines
  | line :: rest =>
      if String.eqb line "" then output_lines
      else read_lines cap rest (buffer_line cap output_lines line)
  end.

Definition read_output (stream : list string) : list string :=
  read_lines 1000 stream [].

(** The lines that [readline] hands to the loop: those before the first
    empty string. *)
Fixpoint lines_read (stream : list string) : list string :=
  match stream with
  | [] => []
  | line :: rest => if String.eqb line "" then [] else line :: lines_read rest
  end.

(** *** Vocabulary for the properties *)

(** The books of the polling loop balance: every completion is a success
    or a recorded failure of a mod of the batch. *)
Definition accounted (valid_mods : list Mod) (st : Monitor) : Prop :=
  completed_downloads st = successful_downloads st + length (mon_failed_ids st)
  /\ map failed_id (mon_failed_details st) = mon_failed_ids st
  /\ (forall i, i ∈ mon_failed_ids st -> i ∈ ids valid_mods)
  /\ (forall m, current_mod_info st = Some m -> m ∈ valid_mods).

(** One download as the log shows it: the line that announces the item
    and the line that reports its outcome. *)
Record Run : Type := mkRun {
  run_mod : Mod;
  start_line : string;
  result_line : string
}.

(** The two lines are what the loop expects of them: the first names the
    item and reports nothing, the second reports an outcome and names no
    other item. *)
Definition clean_run (valid_mods : list Mod) (r : Run) : Prop :=
  run_mod r ∈ valid_mods
  /\ Re.search_group true start_pattern (start_line r) = Some (mod_id (run_mod r))
  /\ is_success (start_line r) = false
  /\ is_error (start_line r) = false
  /\ is_success (result_line r) || is_error (result_line r) = true
  /\ (Re.search_group true start_pattern (result_line r) = None
      \/ Re.search_group true start_pattern (result_line r)
         = Some (mod_id (run_mod r))).

Definition run_lines (runs : list Run) : list string :=
  flat_map (fun r => [start_line r; result_line r]) runs.

Definition run_failed (r : Run) : bool := negb (is_success (result_line r)).

Definition failure_of (r : Run) : FailedDetail :=
  mkFailed (mod_id (run_mod r)) (title_of (run_mod r)) "Download failed".

End SteamCMDDownloader.

(* ===================================================================== *)
(** ** The metadata resolver ([steam_api.py]) *)
(* ===================================================================== *)

Module SteamAPI.

(** A decoded JSON value. Numbers are integers; a JSON float is outside
    the model. An object is an association list read left to right. *)
#[local] Unset Elimination Schemes.
Inductive json : Type :=
| JNull
| JBool (b : bool)
| JInt (z : Z)
| JStr (s : string)
| JList (l : list json)
| JDict (d : list (string * json)).
#[local] Set Elimination Schemes.

(** A raised exception: its class as far as the handlers tell classes
    apart, and [str(e)]. *)
Inductive exn : Type :=
| RequestException (msg : string)   (* [requests.exceptions.RequestException] and subclasses *)
| AttributeError (msg : string)
| TypeError (msg : string)
| KeyError (msg : string)
| OtherError (msg : string).

Definition str_of_exn (e : exn) : string :=
  match e with
  | RequestException m | AttributeError m | TypeError m
  | KeyError m | OtherError m => m
  end.

(** A computation that returns or raises. *)
Definition Exc (A : Type) : Type := exn + A.
Definition ret {A} (a : A) : Exc A := inr a.
Definition raise {A} (e : exn) : Exc A := inl e.
Definition bind {A B} (c : Exc A) (k : A -> Exc B) : Exc B :=
  match c with
  | inl e => inl e
  | inr a => k a
  end.
Notation "x <- c ;; k" := (bind c (fun x => k))
  (at level 100, c at next level, right associativity).

(** Python truth value. *)
Definition truthy (v : json) : bool :=
  match v with
  | JNull => false
  | JBool b => b
  | JInt z => negb (z =? 0)%Z
  | JStr s => negb (String.eqb s "")
  | JList l => match l with [] => false | _ => true end
  | JDict d => match d with [] => false | _ => true end
  end.

Fixpoint assoc (k : string) (d : list (string * json)) : option json :=
  match d with
  | [] => None
  | (k', v) :: d' => if String.eqb k' k then Some v else assoc k d'
  end.

(** [type(v).__name__] *)
Definition type_name (v : json) : string :=
  match v with
  | JNull => "NoneType"
  | JBool _ => "bool"
  | JInt _ => "int"
  | JStr _ => "str"
  | JList _ => "list"
  | JDict _ => "dict"
  end.

(** [v.get(key, dflt)]: only a dict has the method. The texts of the
    exceptions are those of CPython 3.11. *)
Definition py_get (v : json) (key : string) (dflt : json) : Exc json :=
  match v with
  | JDict d => ret (default dflt (assoc key d))
  | _ => raise (AttributeError
                  ("'" +:+ type_name v +:+ "' object has no attribute 'get'"))
  end.

(** [v[0]] for a value that passed the truth test. *)
Definition py_first (v : json) : Exc json :=
  match v with
  | JList (x :: _) => ret x
  | JList [] => raise (OtherError "list index out of range")
  | JStr (String c _) => ret (JStr (String c ""))
  | JStr EmptyString => raise (OtherError "string index out of range")
  | JDict _ => raise (KeyError "0")
  | _ => raise (TypeError ("'" +:+ type_name v +:+ "' object is not subscriptable"))
  end.

(** [v != 1] is false for the integer 1 and for [True]. *)
Definition py_eq_1 (v : json) : bool :=
  match v with
  | JInt z => (z =? 1)%Z
  | JBool b => b
  | _ => false
  end.

Definition is_amp (v : json) : bool :=
  match v with JStr s => String.eqb s "&" | _ => false end.

(** The result dict; an absent key is [None]. *)
Record ModInfo : Type := mkModInfo {
  title : option json;
  error : option string;
  app_id : option json;
  preview_url : option json;
  file_size : option json;
  description : option json;
  dependencies : option (list string)
}.

(** [{"title": f"Mod {mod_id}", "error": msg}] *)
Definition error_result (mod_id msg : string) : ModInfo :=
  mkModInfo (Some (JStr ("Mod " +:+ mod_id))) (Some msg) None None None None None.

(** [id=(\d+)] *)
Definition id_pattern : Re.re :=
  Re.Seq (Re.Str "id=") (Re.Grp (Re.Plus Re.digit)).

(** The loop over the links of the [RequiredItems] block; an element is
    [link.get('href')]. *)
Fixpoint required_ids (hrefs : list (option string)) : list string :=
  match hrefs with
  | [] => []
  | Some href :: rest =>
      if negb (String.eqb href "") then
        match Re.search_group false id_pattern href with
        | Some i => i :: required_ids rest
        | None => required_ids rest
        end
      else required_ids rest
  | None :: rest => required_ids rest
  end.

(** An answer of the details API in the shape the service gives it,
    [{"response": {"publishedfiledetails": [{...}, ...]}}]; [d] holds
    the fields of the first item. Any other answer is malformed. *)
Definition api_answer (data : json) (d : list (string * json)) : Prop :=
  exists top resp rest,
    data = JDict top
    /\ assoc "response" top = Some (JDict resp)
    /\ assoc "publishedfiledetails" resp = Some (JList (JDict d :: rest)).

(** What the network gave to one call of [fetch_mod_info]. *)
Record Net : Type := mkNet {
  (* [requests.post], [raise_for_status] and [response.json()] *)
  api_response : Exc json;
  (* [requests.get], [raise_for_status], the parse and
     [soup.find('div', id='RequiredItems')]: the hrefs of the links of
     the block, [None] when the page has no such block *)
  page_scrape : Exc (option (list (option string)))
}.

Section Resolver.
(** Library functions used as they are: [str()] of a decoded value in
    an f-string and [html.unescape] on a string. *)
Variable py_str : json -> string.
Variable unescape : string -> string.

(** [html.unescape(v)] starts with ['&' not in v]. *)
Definition html_unescape (v : json) : Exc json :=
  match v with
  | JStr s => ret (JStr (unescape s))
  | JList l =>
      if existsb is_amp l
      then raise (TypeError "expected string or bytes-like object, got 'list'")
      else ret v
  | JDict d =>
      match assoc "&" d with
      | Some _ => raise (TypeError "expected string or bytes-like object, got 'dict'")
      | None => ret v
      end
  | _ => raise (TypeError ("argument of type '" +:+ type_name v +:+ "' is not iterable"))
  end.

(** The inner [try]: a failure leaves [dependencies] as it was, [[]]. *)
Definition scrape_dependencies (net : Net) : list string :=
  match page_scrape net with
  | inl scrape_error => []
  | inr None => []
  | inr (Some hrefs) => required_ids hrefs
  end.

(** The first part of the outer [try], up to the check of the result
    code: an early return ([inl]), or [details] ([inr]). *)
Definition api_details (net : Net) (mod_id : string) : Exc (ModInfo + json) :=
  data <- api_response net ;;
  response <- py_get data "response" (JDict []) ;;
  files <- py_get response "publishedfiledetails" JNull ;;
  if negb (truthy files) then
    ret (inl (error_result mod_id "No details in API response."))
  else
    details <- py_first files ;;
    result <- py_get details "result" JNull ;;
    if negb (py_eq_1 result) then
      ret (inl (error_result mod_id
                  ("API result not OK (result code: " +:+ py_str result +:+ ")")))
    else ret (inr details).

(** [description = details.get("description", "")] and its unescaping. *)
Definition describe (details : json) : Exc json :=
  description <- py_get details "description" (JStr "") ;;
  if truthy description then html_unescape description else ret description.

(** The body of the outer [try]. *)
Definition fetch_body (net : Net) (mod_id : string) : Exc ModInfo :=
  checked <- api_details net mod_id ;;
  match checked with
  | inl early => ret early
  | inr details =>
      let dependencies := scrape_dependencies net in
      description <- describe details ;;
      title <- py_get details "title" (JStr "Unknown") ;;
      app_id <- py_get details "consumer_app_id" JNull ;;
      preview_url <- py_get details "preview_url" (JStr "") ;;
      file_size <- py_get details "file_size" (JInt 0) ;;
      ret (mkModInfo (Some title) None (Some app_id) (Some preview_url)
             (Some file_size) (Some description) (Some dependencies))
  end.

(** [fetch_mod_info]: the body under its two handlers. [inl] would be
    an exception that reaches the caller. *)
Definition fetch_mod_info (net : Net) (mod_id : string) : Exc ModInfo :=
  match fetch_body net mod_id with
  | inr r => ret r
  | inl (RequestException msg) =>
      ret (error_result mod_id ("Network error: " +:+ msg))
  | inl e => ret (error_result mod_id (str_of_exn e))
  end.

(** The body of the [try] of [fetch_mod_description]. *)
Definition description_body (net : Net) : Exc (option json) :=
  data <- api_response net ;;
  response <- py_get data "response" (JDict []) ;;
  files <- py_get response "publishedfiledetails" JNull ;;
  if truthy files then
    details <- py_first files ;;
    result <- py_get details "result" JNull ;;
    if py_eq_1 result then
      description <- py_get details "description" (JStr "") ;;
      if truthy description then
        unescaped <- html_unescape description ;;
        ret (Some unescaped)
      else ret None
    else ret None
  else ret None.

(** [fetch_mod_description]: every exception is turned into [None]. *)
Definition fetch_mod_description (net : Net) : option json :=
  match description_body net with
  | inr r => r
  | inl _ => None
  end.

End Resolver.

End SteamAPI.

(* ===================================================================== *)
(** ** References: what a caller of the read accessors holds *)
(* ===================================================================== *)

(** [self.mods] is a list object whose items are references to dict
    objects. The value model of [ModManager] is what one reads through
    these references; this module keeps the references, to tell a copied
    object from a shared one. *)
Module Store.
Import ModManager.

Definition ref : Type := positive.

Inductive object : Type :=
| Dict (m : Mod)
| List (items : list ref).

(** [get_all_mods]: [self.mods.copy()] makes a new list object that
    holds the same item references. The result is the store afterwards
    and the reference returned; [None] when [self_mods] is not a list. *)
Definition get_all_mods (h : gmap ref object) (self_mods : ref)
  : option (gmap ref object * ref) :=
  match h !! self_mods with
  | Some (List items) =>
      let r := fresh (dom h) in
      Some (<[r := List items]> h, r)
  | _ => None
  end.

Definition dict_has_id (h : gmap ref object) (i : string) (r : ref) : bool :=
  match h !! r with
  | Some (Dict m) => has_id i m
  | _ => false
  end.

(** [get_mod_by_id]: [next(...)] hands out the item itself. *)
Definition get_mod_by_id (h : gmap ref object) (self_mods : ref) (i : string)
  : option (option ref) :=
  match h !! self_mods with
  | Some (List items) => Some (List.find (dict_has_id h i) items)
  | _ => None
  end.

(** A caller's assignment into a dict it holds, such as
    [mod["is_dependency"] = True]. *)
Definition dict_update (h : gmap ref object) (r : ref) (f : Mod -> Mod)
  : gmap ref object :=
  match h !! r with
  | Some (Dict m) => <[r := Dict (f m)]> h
  | _ => h
  end.

(** A caller's change of a list it holds ([append], [del], [sort], ...). *)
Definition list_update (h : gmap ref object) (r : ref)
  (g : list ref -> list ref) : gmap ref object :=
  match h !! r with
  | Some (List items) => <[r := List (g items)]> h
  | _ => h
  end.

Definition read_dict (h : gmap ref object) (r : ref) : option Mod :=
  match h !! r with
  | Some (Dict m) => Some m
  | _ => None
  end.

(** The records of the repository, read through [self.mods]. *)
Definition contents (h : gmap ref object) (self_mods : ref) : option (list Mod) :=
  match h !! self_mods with
  | Some (List items) => mapM (read_dict h) items
  | _ => None
  end.

End Store.

(* ===================================================================== *)
(** ** The coordination code that uses the repository ([main.py]) *)
(* ===================================================================== *)

Module Main.
Import ModManager.

(** *** [_apply_filter] *)

(** [str.isspace] on an ASCII character. *)
Definition is_space (c : ascii) : bool :=
  let n := nat_of_ascii c in
  ((9 <=? n)%nat && (n <=? 13)%nat) || ((28 <=? n)%nat && (n <=? 32)%nat).

Fixpoint lstrip (s : list ascii) : list ascii :=
  match s with
  | c :: s' => if is_space c then lstrip s' else s
  | [] => []
  end.

(** [str.strip()] *)
Definition strip (s : string) : string :=
  string_of_list_ascii
    (rev (lstrip (rev (lstrip (list_ascii_of_string s))))).

(** [str.lower()] on an ASCII character. *)
Definition lower (c : ascii) : ascii :=
  let n := nat_of_ascii c in
  if (65 <=? n)%nat && (n <=? 90)%nat then ascii_of_nat (n + 32) else c.

(** [str.lower()] *)
Fixpoint lower_str (s : string) : string :=
  match s with
  | String c s' => String (lower c) (lower_str s')
  | EmptyString => EmptyString
  end.

(** [needle in hay] *)
Fixpoint contains (needle hay : string) : bool :=
  if String.prefix needle hay then true
  else
    match hay with
    | String _ hay' => contains needle hay'
    | EmptyString => false
    end.

(** The body of the loop over [all_mods]: [true] when the record is
    appended to [filtered_mods]. *)
Definition passes_filter (filter_text : string) (show_main show_deps : bool)
  (m : Mod) : bool :=
  if is_dependency m && negb show_deps then false
  else if negb (is_dependency m) && negb show_main then false
  else if negb (String.eqb filter_text "") then
    let title := lower_str (default "" (title (info m))) in
    let mod_id := lower_str (mod_id m) in
    let url := lower_str (url m) in
    negb (negb (contains filter_text title)
          && negb (contains filter_text mod_id)
          && negb (contains filter_text url))
  else true.

(** [_apply_filter]: the new [self.filtered_mods]; [entry] is the text of
    the filter entry. *)
Definition _apply_filter (all_mods : list Mod) (entry : string)
  (show_main show_deps : bool) : list Mod :=
  List.filter (passes_filter (strip (lower_str entry)) show_main show_deps) all_mods.

(** *** [_build_filtered_hierarchical_list] *)

(** The nested [add_mod_with_dependencies] of the filtered view: it has
    no [visited] set, only [processed_mods]. It calls itself for every
    listed dependency that is filtered and has a record, also for one
    that is processed already. As in the repository's walk, [frames]
    is the number of free levels of the recursion counter,
    [builtin_levels] is what the call of a built-in method takes (here
    first [processed_mods.add]), and [None] is [RecursionError]. *)
Fixpoint add_filtered (builtin_levels frames : nat)
  (all_mods_by_id : gmap string Mod)
  (filtered_mods_ids : gset string) (m : Mod) (indent_level : nat) (st : Walk)
  : option Walk :=
  match frames with
  | O => None
  | S frames' =>
      if decide (mod_id m ∈ processed_mods st) then Some st
      else if (frames' <? builtin_levels)%nat then None
      else
        let st := mkWalk (hierarchical_list st ++ [(m, indent_level)])%list
                         ({[mod_id m]} ∪ processed_mods st) in
        foldl (fun acc dep_id =>
                 match acc with
                 | None => None
                 | Some st =>
                     if decide (dep_id ∈ filtered_mods_ids) then
                       match all_mods_by_id !! dep_id with
                       | Some dep_mod =>
                           add_filtered builtin_levels frames' all_mods_by_id
                             filtered_mods_ids
                             dep_mod (S indent_level) st
                       | None => Some st
                       end
                     else Some st
                 end) (Some st) (deps_of m)
  end.

(** The two loops over [root_mods] and [self.filtered_mods]; the second
    skips the records that are processed. *)
Definition filtered_walk (builtin_levels frames : nat)
  (all_mods_by_id : gmap string Mod)
  (filtered_mods_ids : gset string) (skip_processed : bool)
  (todo : list Mod) (st : Walk) : option Walk :=
  foldl (fun acc m =>
           match acc with
           | None => None
           | Some st =>
               if skip_processed && bool_decide (mod_id m ∈ processed_mods st)
               then Some st
               else add_filtered builtin_levels frames all_mods_by_id
                      filtered_mods_ids m 0 st
           end) (Some st) todo.

(** The ids that the walk can mark: those of the filtered records. *)
Definition filtered_ids (filtered_mods : list Mod) : gset string :=
  list_to_set (ids filtered_mods).

(** [_build_filtered_hierarchical_list], with [frames] levels free for
    the walk: the returned list, or [None] when [RecursionError] was
    raised. *)
Definition _build_filtered_hierarchical_list (builtin_levels frames : nat)
  (all_mods filtered_mods : list Mod) : option (list (Mod * nat)) :=
  let all_mods_by_id := mods_dict_of all_mods in
  let filtered_mods_ids := filtered_ids filtered_mods in
  match filtered_walk builtin_levels frames all_mods_by_id filtered_mods_ids false
          (root_mods filtered_mods) (mkWalk [] ∅) with
  | None => None
  | Some st =>
      match filtered_walk builtin_levels frames all_mods_by_id filtered_mods_ids
              true
              filtered_mods st with
      | None => None
      | Some st => Some (hierarchical_list st)
      end
  end.

(** *** The dependency loop of [_fetch_info_worker] *)

(** One turn of [for dep_id in dependency_ids]: the repository
    afterwards, and whether [_start_info_fetch(dep_id)] is called. *)
Definition register_dependency (mods : list Mod) (dep_id : string)
  : list Mod * bool :=
  let mods1 :=
    match get_mod_by_id mods dep_id with
    | Some existing_mod =>
        if negb (is_dependency existing_mod)
        then (mark_as_dependency mods dep_id).1
        else mods
    | None => mods
    end in
  add_mod_by_id mods1 dep_id true.

(** The loop over the ids it came to handle before a shutdown: the
    repository afterwards and the ids whose fetch was started, in order. *)
Definition register_dependencies (mods : list Mod) (dependency_ids : list string)
  : list Mod * list string :=
  foldl (fun acc dep_id =>
           let r := register_dependency acc.1 dep_id in
           (r.1, if r.2 then (acc.2 ++ [dep_id])%list else acc.2))
    (mods, []) dependency_ids.

(** *** [delete_selected] *)

(** [', '.join(l)] and the like. *)
Fixpoint join (sep : string) (l : list string) : string :=
  match l with
  | [] => ""
  | [x] => x
  | x :: rest => x +:+ sep +:+ join sep rest
  end.

(** [dep.get('info', {}).get('title', dep['id'])] *)
Definition title_or_id (m : Mod) : string := default (mod_id m) (title (info m)).

Definition remaining_dependents (mods : list Mod) (mod_ids_to_delete : gset string)
  (m : Mod) : list Mod :=
  filter (fun dep => mod_id dep ∉ mod_ids_to_delete)
    (find_dependents mods (mod_id m)).

(** [dependency_warnings] for the selection [mods_to_delete] (index and
    record). *)
Definition dependency_warnings (mods : list Mod) (mods_to_delete : list (Z * Mod))
  : list string :=
  let mod_ids_to_delete : gset string :=
    list_to_set (map (fun e => mod_id e.2) mods_to_delete) in
  omap (fun e : Z * Mod =>
          match remaining_dependents mods mod_ids_to_delete e.2 with
          | [] => None
          | deps =>
              Some ("'" +:+ title_or_id e.2 +:+ "' is required by: "
                    +:+ join ", " (map title_or_id deps))
          end) mods_to_delete.

(** [sort(key=lambda x: x[0], reverse=True)]: a stable sort by
    descending index, here by insertion. *)
Fixpoint insert_desc (e : Z * Mod) (l : list (Z * Mod)) : list (Z * Mod) :=
  match l with
  | [] => [e]
  | x :: rest =>
      if (x.1 <? e.1)%Z then e :: l else x :: insert_desc e rest
  end.

Definition sort_desc (l : list (Z * Mod)) : list (Z * Mod) :=
  foldr insert_desc [] l.

(** The loop of removals in [delete_selected], after the confirmation. *)
Definition delete_indices (mods : list Mod) (mods_to_delete : list (Z * Mod))
  : list Mod :=
  foldl (fun ms e => (remove_mod_by_index ms e.1).1) mods (sort_desc mods_to_delete).

(** [delete_selected] with the selection resolved to [(index, record)]
    pairs; [confirm] is the answer to the warning dialog. *)
Definition delete_selected (mods : list Mod) (mods_to_delete : list (Z * Mod))
  (confirm : bool) : list Mod :=
  match mods_to_delete with
  | [] => mods
  | _ =>
      match dependency_warnings mods mods_to_delete with
      | [] => delete_indices mods mods_to_delete
      | _ => if confirm then delete_indices mods mods_to_delete else mods
      end
  end.

(** *** Preparing a download *)

Record Prepared : Type := mkPrepared {
  initial_mod_ids : gset string;
  final_mod_ids_to_download : gset string;
  added_deps_ids : gset string
}.

(** [_prepare_download_worker]; [None] is the [except] branch (an index
    out of range). The indices are positions of the list box mapping,
    never negative. *)
Definition _prepare_download_worker (all_mods : list Mod)
  (initial_mod_indices : list nat) : option Prepared :=
  match mapM (fun i => mod_id <$> all_mods !! i) initial_mod_indices with
  | None => None
  | Some selected =>
      let initial := list_to_set selected in
      match get_all_dependencies_efficient all_mods initial with
      | None => None
      | Some all_dependencies =>
          Some (mkPrepared initial (initial ∪ all_dependencies)
                  (all_dependencies ∖ initial))
      end
  end.

(** [added_deps_titles]: the titles of the added ids that have a record
    (the order is that of the set iteration). *)
Definition added_deps_titles (all_mods : list Mod) (added : gset string)
  : list string :=
  omap (fun dep_id => title_or_id <$> get_mod_by_id all_mods dep_id)
    (elements added).

(** [_handle_dependencies_resolved]: the batch handed to
    [_start_download], [None] when the user declines or nothing is left
    to download. *)
Definition _handle_dependencies_resolved (all_mods : list Mod) (p : Prepared)
  (user_accepts : bool) : option (list Mod) :=
  match added_deps_titles all_mods (added_deps_ids p) with
  | _ :: _ =>
      if user_accepts then
        match filter (fun m => mod_id m ∈ final_mod_ids_to_download p) all_mods with
        | [] => None
        | batch => Some batch
        end
      else None
  | [] =>
      match filter (fun m => mod_id m ∈ final_mod_ids_to_download p) all_mods with
      | [] => None
      | batch => Some batch
      end
  end.

(** *** Vocabulary for the properties *)

(** What holds of the filtered walk between calls. *)
Definition filtered_ok (all_mods filtered_mods : list Mod) (st : Walk) : Prop :=
  walk_ok (all_mods ++ filtered_mods) st
  /\ processed_mods st ⊆ filtered_ids filtered_mods.

Definition filtered_extends (all_mods filtered_mods : list Mod) (st st' : Walk)
  : Prop :=
  processed_mods st ⊆ processed_mods st'
  /\ (filtered_ok all_mods filtered_mods st -> filtered_ok all_mods filtered_mods st').

(** The list without the records at the positions in [skip]; [off] is
    the position of the head. *)
Fixpoint omit_from (off : nat) (skip : gset nat) (l : list Mod) : list Mod :=
  match l with
  | [] => []
  | m :: ms =>
      if decide (off ∈ skip) then omit_from (S off) skip ms
      else m :: omit_from (S off) skip ms
  end.

End Main.

(* ===================================================================== *)
(** ** Sample data *)
(* ===================================================================== *)

Module Samples.
Import ModManager.

(** A resolved record. *)
Definition sample_mod (i : string) (app : option Z) (deps : list string)
  (is_dep : bool) : Mod :=
  mkMod i ("https://steamcommunity.com/workshop/filedetails/?id=" +:+ i)
    (mkInfo (Some ("Mod " +:+ i)) app None (Some deps) None) is_dep.

Definition mod_123 : Mod := sample_mod "123" (Some 294100%Z) [] false.
Definition mod_no_app : Mod := sample_mod "9" None [] false.

(** A requires B and C, which both require D. *)
Definition diamond : list Mod :=
  [ sample_mod "A" (Some 1%Z) ["B"; "C"] false;
    sample_mod "B" (Some 1%Z) ["D"] true;
    sample_mod "C" (Some 1%Z) ["D"] true;
    sample_mod "D" (Some 1%Z) [] true ].

(** A requires B, which requires C. *)
Definition chain : list Mod :=
  [ sample_mod "A" (Some 1%Z) ["B"] false;
    sample_mod "B" (Some 1%Z) ["C"] true;
    sample_mod "C" (Some 1%Z) [] true ].

(** A and B require each other; B also names Z, which has no record. *)
Definition cycle : list Mod :=
  [ sample_mod "A" (Some 1%Z) ["B"] true;
    sample_mod "B" (Some 1%Z) ["A"; "Z"] true ].

(** The fields of an item that the API knows. *)
Definition api_ok_item : list (string * SteamAPI.json) :=
  [("result", SteamAPI.JInt 1);
   ("title", SteamAPI.JStr "Some mod");
   ("consumer_app_id", SteamAPI.JInt 294100);
   ("description", SteamAPI.JStr "text")].

(** A well-formed answer of the details API for one item. *)
Definition api_ok : SteamAPI.json :=
  SteamAPI.JDict
    [("response",
      SteamAPI.JDict
        [("publishedfiledetails",
          SteamAPI.JList [SteamAPI.JDict api_ok_item])])].

(** The answer for an id that the API does not know. *)
Definition api_not_found : SteamAPI.json :=
  SteamAPI.JDict
    [("response",
      SteamAPI.JDict
        [("publishedfiledetails",
          SteamAPI.JList [SteamAPI.JDict [("result", SteamAPI.JInt 9)]])])].

(** Stand-ins for [str()] and [html.unescape] in the examples. *)
Definition show_code (v : SteamAPI.json) : string :=
  match v with SteamAPI.JInt 9 => "9" | _ => "?" end.
Definition no_entities (s : string) : string := s.

(** A repository of one record: [self.mods] is the list object at 1 and
    its only item is the dict object at 2. *)
Definition sample_store : gmap Store.ref Store.object :=
  <[2%positive := Store.Dict (ModManager.placeholder "7" false)]>
    (<[1%positive := Store.List [2%positive]]> ∅).

End Samples.

(* ===================================================================== *)
(** * Properties *)
(* ===================================================================== *)

(** ** The patterns on sample text *)

Example re_digits :
  Re.search_group false (Re.Seq (Re.Str "id=") (Re.Grp (Re.Plus Re.digit)))
    "x?id=42&y" = Some "42".
Proof. reflexivity. Qed.

Example url_extract :
  ModManager.add_mod_by_url []
    "https://steamcommunity.com/sharedfiles/filedetails/?l=en&id=123&searchtext="
  = ([ModManager.placeholder "123" false], Some "123").
Proof. reflexivity. Qed.

(** [.*] is greedy: the id is taken at the last [id=<digits>] of the url. *)
Example url_last_id :
  (ModManager.add_mod_by_url []
     "https://steamcommunity.com/sharedfiles/filedetails/?id=123&sid=9").2
  = Some "9".
Proof. reflexivity. Qed.

Example url_rejected :
  ModManager.add_mod_by_url [] "https://example.org/?id=123" = ([], None).
Proof. reflexivity. Qed.

Example monitor_patterns :
  SteamCMDDownloader.is_success "Success. Downloaded item 123 to disk" = true
  /\ SteamCMDDownloader.is_error "ERROR! Download item 123 failed (Failure)." = true
  /\ SteamCMDDownloader.is_error "Downloading item 123 ..." = false
  /\ Re.search_group true SteamCMDDownloader.start_pattern
       "Downloading item 123 ..." = Some "123".
Proof. by repeat split. Qed.

(** [re.IGNORECASE] takes the long s (U+017F) for [s] and the dotless i
    (U+0131) for [i]; [\d] takes the full-width digits (U+FF11 ...). *)
Example monitor_patterns_folding :
  SteamCMDDownloader.is_success
    (Re.encode [383; 117; 99; 99; 101; 383; 383; 46]%N) = true
  /\ SteamCMDDownloader.is_error (Re.encode [102; 97; 305; 108; 101; 100]%N) = true
  /\ Re.search_group true SteamCMDDownloader.start_pattern
       ("downloading item " +:+ Re.encode [65297; 65298]%N)
     = Some (Re.encode [65297; 65298]%N).
Proof. by vm_compute. Qed.

(** ** Adding records *)

Section Adding.
Import ModManager.

Lemma get_mod_by_id_Some mods i m :
  get_mod_by_id mods i = Some m -> mod_id m = i /\ m ∈ mods.
Proof.
  unfold get_mod_by_id. intros H. apply find_some in H as [Hin Hid].
  split.
  - unfold has_id in Hid. by apply String.eqb_eq.
  - by apply list_elem_of_In.
Qed.

Lemma get_mod_by_id_None mods i :
  get_mod_by_id mods i = None <-> i ∉ ids mods.
Proof.
  unfold get_mod_by_id, ids. induction mods as [|m ms IH]; simpl.
  - split; [set_solver | done].
  - unfold has_id at 1. destruct (String.eqb_spec (mod_id m) i) as [->|Hne].
    + split; [done | set_solver].
    + rewrite IH. set_solver.
Qed.

Lemma get_mod_by_id_is_Some mods i :
  i ∈ ids mods -> is_Some (get_mod_by_id mods i).
Proof.
  intros Hin. destruct (get_mod_by_id mods i) eqn:E; [eauto|].
  by apply get_mod_by_id_None in E.
Qed.

Lemma ids_update_first i b mods :
  ids (update_first i (set_is_dependency b) mods) = ids mods.
Proof.
  unfold ids. induction mods as [|m ms IH]; simpl; [done|].
  destruct (has_id i m); simpl; [done | by rewrite IH].
Qed.

Lemma get_update_first i b mods e :
  get_mod_by_id mods i = Some e ->
  get_mod_by_id (update_first i (set_is_dependency b) mods) i
  = Some (set_is_dependency b e).
Proof.
  unfold get_mod_by_id. induction mods as [|m ms IH]; simpl; [done|].
  destruct (has_id i m) eqn:E; simpl.
  - intros [= ->]. unfold has_id in *. simpl. by rewrite E.
  - rewrite E. apply IH.
Qed.

Lemma get_app_new mods i m :
  get_mod_by_id mods i = None -> mod_id m = i ->
  get_mod_by_id (mods ++ [m]) i = Some m.
Proof.
  unfold get_mod_by_id. intros Hn Hi.
  induction mods as [|x xs IH]; simpl in *.
  - unfold has_id. rewrite Hi, String.eqb_refl. done.
  - destruct (has_id i x); [done | by apply IH].
Qed.

Lemma ids_add_mod_by_id mods i d :
  ids (add_mod_by_id mods i d).1
  = if decide (i ∈ ids mods) then ids mods else (ids mods ++ [i])%list.
Proof.
  unfold add_mod_by_id. case_decide as Hin.
  - destruct (get_mod_by_id_is_Some _ _ Hin) as [e ->].
    destruct (is_dependency e && negb d); simpl; [apply ids_update_first | done].
  - apply get_mod_by_id_None in Hin. rewrite Hin. simpl.
    unfold ids. by rewrite map_app.
Qed.

Lemma add_mod_by_id_NoDup mods i d :
  NoDup (ids mods) -> NoDup (ids (add_mod_by_id mods i d).1).
Proof.
  intros Hnd. rewrite ids_add_mod_by_id. case_decide; [done|].
  apply NoDup_app. split_and!; [done | set_solver | apply NoDup_singleton].
Qed.

Lemma add_mod_by_id_present mods i d :
  i ∈ ids mods ->
  (add_mod_by_id mods i d).1 = mods \/
  (add_mod_by_id mods i d).1 = update_first i (set_is_dependency false) mods.
Proof.
  intros Hin. unfold add_mod_by_id.
  destruct (get_mod_by_id_is_Some _ _ Hin) as [e ->].
  destruct (is_dependency e && negb d); simpl; auto.
Qed.

End Adding.

Section AddReports.
Import ModManager.

(** C3 (as amended). [add_mod_by_id] on an id with no record appends the
    placeholder and returns [True]; on a record marked dependency-only,
    called with [is_dependency=False], it clears the flag of that record,
    keeps every id in place and returns [True]; in every other case it
    returns the repository as it was and [False]. Hence the returned
    bool is [False] exactly for "unchanged", and "added" and "changed"
    both come back as [True]. When the id had no record, two calls with
    [is_dependency=False] return [True] then [False], and a call as a
    dependency followed by a call as a non-dependency returns [True]
    twice and leaves the flag cleared. *)
Theorem add_mod_by_id_reports (mods : list Mod) (i : string) (is_dep : bool) :
  match spec_report mods i is_dep with
  | Added =>
      add_mod_by_id mods i is_dep = ((mods ++ [placeholder i is_dep])%list, true)
  | Changed =>
      add_mod_by_id mods i is_dep
      = (update_first i (set_is_dependency false) mods, true)
      /\ ids (add_mod_by_id mods i is_dep).1 = ids mods
      /\ is_dependency <$> get_mod_by_id (add_mod_by_id mods i is_dep).1 i
         = Some false
  | Unchanged => add_mod_by_id mods i is_dep = (mods, false)
  end
  /\ ((add_mod_by_id mods i is_dep).2 = false
      <-> spec_report mods i is_dep = Unchanged)
  /\ (get_mod_by_id mods i = None ->
      let first := add_mod_by_id mods i false in
      let first_dep := add_mod_by_id mods i true in
      first.2 = true
      /\ add_mod_by_id first.1 i false = (first.1, false)
      /\ first_dep.2 = true
      /\ (add_mod_by_id first_dep.1 i false).2 = true
      /\ is_dependency <$>
           get_mod_by_id (add_mod_by_id first_dep.1 i false).1 i = Some false).
Proof.
  split_and!.
  - unfold spec_report, add_mod_by_id.
    destruct (get_mod_by_id mods i) as [e|] eqn:E; [|done].
    destruct (is_dependency e && negb is_dep) eqn:B; [|done].
    simpl. split_and!; [done | apply ids_update_first |].
    by rewrite (get_update_first _ _ _ _ E).
  - unfold spec_report, add_mod_by_id.
    destruct (get_mod_by_id mods i) as [e|]; [|by split].
    destruct (is_dependency e && negb is_dep); by split.
  - intros Hnone.
    assert (Hadd : forall d, add_mod_by_id mods i d
                             = ((mods ++ [placeholder i d])%list, true)).
    { intros d. unfold add_mod_by_id. by rewrite Hnone. }
    assert (Hget : forall d, get_mod_by_id (mods ++ [placeholder i d]) i
                             = Some (placeholder i d)).
    { intros d. by apply get_app_new. }
    cbv zeta. rewrite !Hadd. cbn [fst snd].
    split_and!; try done.
    + unfold add_mod_by_id. by rewrite Hget.
    + unfold add_mod_by_id. by rewrite Hget.
    + unfold add_mod_by_id. rewrite Hget. cbn [fst snd placeholder is_dependency andb negb].
      by rewrite (get_update_first _ _ _ _ (Hget true)).
Qed.

Lemma add_mod_by_id_reports_witness :
  get_mod_by_id [] "42" = None /\
  (add_mod_by_id [] "42" false).2 = true /\
  add_mod_by_id (add_mod_by_id [] "42" false).1 "42" false
  = ((add_mod_by_id [] "42" false).1, false).
Proof.
  split; [reflexivity|].
  destruct (add_mod_by_id_reports [] "42" false) as (_ & _ & H).
  destruct (H eq_refl) as (H1 & H2 & _). split; [exact H1 | exact H2].
Defined.

(** C3 (as stated) fails: no reading of the returned bool tells the
    three reports apart, because adding ["1"] to an empty repository and
    promoting the dependency-only record ["1"] both return [True]. *)
Lemma add_reports_not_distinguishable :
  add_mod_by_id [] "1" false = ([placeholder "1" false], true)
  /\ spec_report [] "1" false = Added
  /\ add_mod_by_id [placeholder "1" true] "1" false
     = ([set_is_dependency false (placeholder "1" true)], true)
  /\ spec_report [placeholder "1" true] "1" false = Changed
  /\ ~ (exists decode : bool -> AddReport,
          forall mods i is_dep,
            decode (add_mod_by_id mods i is_dep).2 = spec_report mods i is_dep).
Proof.
  split_and!; try reflexivity.
  intros [decode H].
  pose proof (H [] "1" false) as H1.
  pose proof (H [placeholder "1" true] "1" false) as H2.
  vm_compute in H1, H2. congruence.
Qed.

(** C10. In a repository where every id occurs at most once,
    [add_mod_by_id] and [add_mod_by_url] keep it so; when the id is
    already there they append nothing: the ids stay as they are, and the
    repository is either the same or the same with the flag of the
    existing record cleared. *)
Theorem add_preserves_unique_ids (mods : list Mod) :
  NoDup (ids mods) ->
  (forall i is_dep,
      let mods' := (add_mod_by_id mods i is_dep).1 in
      NoDup (ids mods')
      /\ (i ∈ ids mods ->
          ids mods' = ids mods
          /\ (mods' = mods
              \/ mods' = update_first i (set_is_dependency false) mods)))
  /\ (forall u,
         let mods' := (add_mod_by_url mods u).1 in
         NoDup (ids mods')
         /\ (forall i, (add_mod_by_url mods u).2 = Some i -> i ∈ ids mods ->
             ids mods' = ids mods
             /\ (mods' = mods
                 \/ mods' = update_first i (set_is_dependency false) mods))).
Proof.
  intros Hnd.
  assert (Hid : forall i is_dep,
             NoDup (ids (add_mod_by_id mods i is_dep).1)
             /\ (i ∈ ids mods ->
                 ids (add_mod_by_id mods i is_dep).1 = ids mods
                 /\ ((add_mod_by_id mods i is_dep).1 = mods
                     \/ (add_mod_by_id mods i is_dep).1
                        = update_first i (set_is_dependency false) mods))).
  { intros i d. split; [by apply add_mod_by_id_NoDup|].
    intros Hin. split; [|by apply add_mod_by_id_present].
    rewrite ids_add_mod_by_id. by rewrite decide_True. }
  split; [exact Hid|].
  intros u. simpl. unfold add_mod_by_url.
  destruct (Re.search_group false url_pattern u) as [i|]; simpl.
  - split; [apply Hid|]. intros j [= <-]. apply Hid.
  - split; [done|]. intros j [=].
Qed.

Lemma add_preserves_unique_ids_witness :
  NoDup (ids [placeholder "7" true]) /\
  NoDup (ids (add_mod_by_url [placeholder "7" true]
                "https://steamcommunity.com/workshop/filedetails/?id=7").1).
Proof.
  assert (H : NoDup (ids [placeholder "7" true])).
  { apply NoDup_singleton. }
  split; [exact H|].
  destruct (add_preserves_unique_ids [placeholder "7" true] H) as [_ Hu].
  exact (proj1 (Hu "https://steamcommunity.com/workshop/filedetails/?id=7")).
Defined.

End AddReports.

(** ** The process monitor *)

Section MonitorProperties.
Import ModManager SteamCMDDownloader.

Lemma valid_split_length (mods : list Mod) :
  length mods = length (valid_mods_of mods) + length (no_app_id mods).
Proof.
  unfold valid_mods_of, no_app_id.
  induction mods as [|m ms IH]; simpl; [done|].
  destruct (has_app_id m); simpl; lia.
Qed.

Lemma finish_completed n st :
  completed_downloads st <= n -> completed (finish n st) = n.
Proof.
  intros Hle. unfold finish.
  destruct (Nat.ltb_spec (completed_downloads st) n); simpl; lia.
Qed.

Lemma finish_completed_ge n st : n <= completed (finish n st).
Proof.
  unfold finish.
  destruct (Nat.ltb_spec (completed_downloads st) n); simpl; lia.
Qed.

(** A line adds at most one completion, and only a success or error line
    adds one. *)
Lemma parse_line_completed mods_by_id n st line :
  completed_downloads (parse_line mods_by_id n st line)
  = completed_downloads st
  \/ (is_success line || is_error line = true
      /\ completed_downloads (parse_line mods_by_id n st line)
         = S (completed_downloads st)).
Proof.
  unfold parse_line.
  destruct (bind_current mods_by_id line (current_mod_info st));
    destruct (is_success line || is_error line) eqn:E; simpl; auto.
  - destruct (is_success line); simpl; auto.
  - destruct (completed_downloads st <? n)%nat; simpl; auto.
Qed.

Lemma parse_lines_completed_bound valid lines :
  completed_downloads (parse_lines valid lines)
  <= length (List.filter (fun l => is_success l || is_error l) lines).
Proof.
  unfold parse_lines.
  generalize (mods_dict_of valid) (length valid). intros d n.
  assert (H : forall st,
             completed_downloads (foldl (parse_line d n) st lines)
             <= completed_downloads st
                + length (List.filter (fun l => is_success l || is_error l) lines)).
  { induction lines as [|l ls IH]; intros st; simpl; [lia|].
    specialize (IH (parse_line d n st l)).
    destruct (parse_line_completed d n st l) as [Heq | [Hm Heq]].
    - destruct (is_success l || is_error l); simpl; lia.
    - rewrite Hm. simpl. lia. }
  specialize (H monitor_start). simpl in H. lia.
Qed.

(** C1 (as amended). With the executable present and a run whose monitor
    returns without raising, [completed] equals the size of the batch
    (valid entries plus entries without an app id) for every sequence of
    parsed lines on which the loop recorded no more completions than there
    are valid entries, however the loop ended. The error paths report
    otherwise on purpose: a missing executable and an exception that
    leaves the monitor give [completed = 0]; an exception caught inside
    the monitor gives the number of entries without an app id. *)
Theorem download_mods_completed (w : World) (mods : list Mod) :
  (steamcmd_available w = true ->
   forall parsed,
     process_run w = Monitored parsed ->
     completed_downloads (parse_lines (valid_mods_of mods) parsed)
       <= length (valid_mods_of mods) ->
     completed (download_mods w mods) = length mods)
  /\ (steamcmd_available w = false -> completed (download_mods w mods) = 0)
  /\ (steamcmd_available w = true -> valid_mods_of mods <> [] ->
      (forall parsed, process_run w = Raised parsed ->
                      completed (download_mods w mods) = length (no_app_id mods))
      /\ (forall fnf, process_run w = Escaped fnf ->
                      completed (download_mods w mods) = 0)).
Proof.
  split_and!.
  - intros Hav parsed Hrun Hle. unfold download_mods.
    destruct mods as [|m ms]; [done|].
    rewrite Hav. cbn [negb].
    rewrite (valid_split_length (m :: ms)).
    destruct (valid_mods_of (m :: ms)) as [|v vs] eqn:Ev.
    { cbn [completed]. by rewrite length_map. }
    rewrite Hrun. cbn [_execute_steamcmd_with_monitoring completed].
    rewrite finish_completed by exact Hle. by rewrite length_map.
  - intros Hav. unfold download_mods.
    destruct mods; [done|]. by rewrite Hav.
  - intros Hav Hvalid. unfold download_mods.
    destruct mods as [|m ms]; [done|]. rewrite Hav. cbn [negb].
    destruct (valid_mods_of (m :: ms)) as [|v vs] eqn:Ev; [done|].
    split.
    + intros parsed ->. cbn. by rewrite length_map.
    + intros fnf ->. done.
Qed.

Lemma download_mods_completed_witness :
  completed (download_mods
               (mkWorld true (Monitored ["Downloading item 123 ..."; "Success. Downloaded item 123"]))
               [Samples.mod_123; Samples.mod_no_app]) = 2.
Proof.
  refine (proj1 (download_mods_completed
                   (mkWorld true (Monitored ["Downloading item 123 ..."; "Success. Downloaded item 123"]))
                   [Samples.mod_123; Samples.mod_no_app]) eq_refl _ eq_refl _).
  vm_compute. lia.
Defined.

(** C1 (as stated) fails: with the executable missing, and with an
    exception raised when the subprocess is started, a batch of one valid
    mod comes back with [completed = 0]. *)
Lemma completed_is_not_always_batch_size :
  completed (download_mods (mkWorld false (Monitored [])) [Samples.mod_123]) = 0
  /\ completed (download_mods (mkWorld true (Raised [])) [Samples.mod_123]) = 0
  /\ length [Samples.mod_123] = 1
  /\ ~ (forall w mods, completed (download_mods w mods) = length mods).
Proof.
  split_and!; try reflexivity.
  intros H. specialize (H (mkWorld false (Monitored [])) [Samples.mod_123]).
  vm_compute in H. discriminate.
Qed.

Lemma mods_dict_of_single (m : Mod) :
  mods_dict_of [m] = <[mod_id m := m]> ∅.
Proof. reflexivity. Qed.

Lemma bind_current_single (m : Mod) (line : string) :
  bind_current (mods_dict_of [m]) line (Some m) = Some m.
Proof.
  unfold bind_current. rewrite mods_dict_of_single.
  destruct (Re.search_group true start_pattern line) as [i|]; [|done].
  destruct (decide (mod_id m = i)) as [<-|Hne].
  - by rewrite lookup_insert_eq.
  - by rewrite lookup_insert_ne, lookup_empty.
Qed.

(** C8. For a batch that holds exactly the mod ["123"], with an app id,
    a parsed line whose start match names item 123 (and which is not
    itself a success or error line) followed directly by an error line
    (one that does not also match the success pattern) gives
    [completed = 1], [successful = 0], [failed_ids = ["123"]] and one
    failure detail for that mod, from the monitor and from
    [download_mods]. *)
Theorem start_then_error_fails_mod (m : Mod) (l1 l2 : string) :
  mod_id m = "123" ->
  has_app_id m = true ->
  Re.search_group true start_pattern l1 = Some "123" ->
  is_success l1 = false -> is_error l1 = false ->
  is_error l2 = true -> is_success l2 = false ->
  let expected :=
    mkResult 1 0 ["123"] [mkFailed "123" (title_of m) "Download failed"] in
  _execute_steamcmd_with_monitoring (Monitored [l1; l2]) [m] = Some expected
  /\ download_mods (mkWorld true (Monitored [l1; l2])) [m] = expected.
Proof.
  intros Hid Happ Hstart Hs1 He1 He2 Hs2 expected.
  assert (Hparse : parse_lines [m] [l1; l2]
                   = mkMonitor 1 0 None ["123"]
                       [mkFailed "123" (title_of m) "Download failed"]).
  { unfold parse_lines. cbn [foldl].
    assert (H1 : parse_line (mods_dict_of [m]) (length [m]) monitor_start l1
                 = mkMonitor 0 0 (Some m) [] []).
    { unfold parse_line, bind_current. rewrite <- Hid in Hstart.
      rewrite Hstart, mods_dict_of_single, lookup_insert_eq.
      by rewrite Hs1, He1. }
    rewrite H1. unfold parse_line. cbn [current_mod_info].
    rewrite bind_current_single, Hs2, He2. cbn. by rewrite Hid. }
  assert (Hexec : _execute_steamcmd_with_monitoring (Monitored [l1; l2]) [m]
                  = Some expected).
  { unfold _execute_steamcmd_with_monitoring. by rewrite Hparse. }
  split; [exact Hexec|].
  unfold download_mods. cbn [steamcmd_available negb process_run].
  unfold valid_mods_of, no_app_id. cbn [List.filter]. rewrite Happ. cbn [negb map length].
  fold (valid_mods_of [m]). unfold valid_mods_of. cbn [List.filter].
  rewrite Hexec. subst expected. cbn. done.
Qed.

Lemma start_then_error_fails_mod_witness :
  download_mods (mkWorld true (Monitored ["downloading item 123"; "Error"]))
    [Samples.mod_123]
  = mkResult 1 0 ["123"] [mkFailed "123" "Mod 123" "Download failed"].
Proof.
  exact (proj2 (start_then_error_fails_mod Samples.mod_123
                  "downloading item 123" "Error"
                  eq_refl eq_refl eq_refl eq_refl eq_refl eq_refl eq_refl)).
Defined.

(** C9. A success or error line that arrives while no mod is bound, and
    that does not itself bind one, with fewer completions recorded than
    there are valid mods, adds one to [completed_downloads] and one to
    [successful_downloads] and leaves [failed_ids] and [failed_details]
    as they were; this holds for an error line as well. *)
Theorem anonymous_slot_counts_success (mods_by_id : gmap string Mod)
  (n_valid : nat) (st : Monitor) (line : string) :
  current_mod_info st = None ->
  bind_current mods_by_id line None = None ->
  is_success line || is_error line = true ->
  completed_downloads st < n_valid ->
  parse_line mods_by_id n_valid st line
  = mkMonitor (S (completed_downloads st)) (S (successful_downloads st)) None
      (mon_failed_ids st) (mon_failed_details st).
Proof.
  intros Hcur Hbind Hline Hlt. unfold parse_line.
  rewrite Hcur, Hbind, Hline.
  by destruct (Nat.ltb_spec (completed_downloads st) n_valid); [|lia].
Qed.

Lemma anonymous_slot_counts_success_witness :
  is_error "ERROR! Download item 456 failed (Failure)." = true
  /\ is_success "ERROR! Download item 456 failed (Failure)." = false
  /\ parse_line (mods_dict_of [Samples.mod_123]) 1 monitor_start
       "ERROR! Download item 456 failed (Failure)."
     = mkMonitor 1 1 None [] [].
Proof.
  split; [reflexivity|]. split; [reflexivity|].
  apply (anonymous_slot_counts_success (mods_dict_of [Samples.mod_123]) 1
           monitor_start "ERROR! Download item 456 failed (Failure).").
  - reflexivity.
  - reflexivity.
  - reflexivity.
  - simpl. lia.
Defined.

(** The stream of the document that ends in success. *)
Example start_then_success :
  download_mods (mkWorld true (Monitored ["downloading item 123"; "Success."]))
    [Samples.mod_123]
  = mkResult 1 1 [] [].
Proof. reflexivity. Qed.

(** An unparsed stream: the adjustment after the loop counts the mod as
    completed and successful. *)
Example nothing_parsed :
  download_mods (mkWorld true (Monitored [])) [Samples.mod_123; Samples.mod_no_app]
  = mkResult 2 1 ["9"] [mkFailed "9" "Mod 9" "No App ID found"].
Proof. reflexivity. Qed.

End MonitorProperties.

(** ** The transitive closure *)

Section ClosureProperties.
Import ModManager.

Lemma visit_deps_spec proc deps a t :
  foldl (visit_dep proc) (a, t) deps
  = (a ∪ list_to_set deps, t ∪ (list_to_set deps ∖ proc)).
Proof.
  revert a t. induction deps as [|d ds IH]; intros a t; simpl.
  - f_equal; set_solver.
  - unfold visit_dep at 2. simpl. rewrite IH. case_decide; f_equal; set_solver.
Qed.

(** A turn of the loop in terms of sets. *)
Lemma iteration_spec mods_dict x st :
  iteration mods_dict x st =
  if decide (x ∈ processed st) then
    mkClosure (all_dependencies st) (to_process st ∖ {[x]}) (processed st)
  else
    mkClosure (all_dependencies st ∪ direct_deps mods_dict x)
      ((to_process st ∖ {[x]})
         ∪ (direct_deps mods_dict x ∖ ({[x]} ∪ processed st)))
      ({[x]} ∪ processed st).
Proof.
  unfold iteration, direct_deps. case_decide; [done|].
  destruct (mods_dict !! x) as [m|].
  - by rewrite visit_deps_spec.
  - f_equal; set_solver.
Qed.

Lemma mods_dict_of_lookup mods x m :
  mods_dict_of mods !! x = Some m -> m ∈ mods /\ mod_id m = x.
Proof.
  unfold mods_dict_of.
  assert (H : forall (d : gmap string Mod),
             foldl (fun d m => <[mod_id m := m]> d) d mods !! x = Some m ->
             (m ∈ mods /\ mod_id m = x) \/ d !! x = Some m).
  { induction mods as [|a l IH]; intros d; simpl; [auto|].
    intros Hl. destruct (IH _ Hl) as [[Hin Hid]|Hd].
    - left. split; [by right | done].
    - destruct (decide (mod_id a = x)) as [Heq|Hne].
      + rewrite Heq, lookup_insert_eq in Hd. injection Hd as ->.
        left. split; [by left | done].
      + rewrite lookup_insert_ne in Hd by done. by right. }
  intros Hl. destruct (H _ Hl) as [?|Hd]; [done|].
  by rewrite lookup_empty in Hd.
Qed.

Lemma mods_dict_of_dom mods x :
  x ∈ ids mods -> is_Some (mods_dict_of mods !! x).
Proof.
  unfold mods_dict_of, ids.
  assert (H : forall (d : gmap string Mod),
             x ∈ map mod_id mods \/ is_Some (d !! x) ->
             is_Some (foldl (fun d m => <[mod_id m := m]> d) d mods !! x)).
  { induction mods as [|a l IH]; intros d; simpl.
    - intros [Hin|?]; [set_solver | done].
    - intros Hx. apply IH.
      destruct (decide (mod_id a = x)) as [Heq|Hne].
      + right. rewrite Heq, lookup_insert_eq. eauto.
      + rewrite lookup_insert_ne by done. set_solver. }
  intros Hin. apply H. by left.
Qed.

Lemma direct_deps_listed mods x :
  direct_deps (mods_dict_of mods) x ⊆ listed_deps mods.
Proof.
  unfold direct_deps, listed_deps.
  destruct (mods_dict_of mods !! x) as [m|] eqn:E; [|set_solver].
  apply mods_dict_of_lookup in E as [Hin _].
  intros y Hy. rewrite elem_of_list_to_set in Hy.
  rewrite elem_of_list_to_set. apply list_elem_of_In, in_concat.
  exists (deps_of m). split.
  - apply in_map. by apply list_elem_of_In.
  - by apply list_elem_of_In.
Qed.

Lemma step_processed_grows mods_dict st st' :
  step mods_dict st st' -> processed st ⊆ processed st'.
Proof.
  intros [st0 x Hx]. rewrite iteration_spec. case_decide; simpl; set_solver.
Qed.

Lemma step_measure mods st st' :
  step (mods_dict_of mods) st st' ->
  closure_measure mods st' < closure_measure mods st.
Proof.
  intros [st0 x Hx]. rewrite iteration_spec. unfold closure_measure.
  pose proof (direct_deps_listed mods x) as HD.
  case_decide as Hp; simpl.
  - assert (H1 : (listed_deps mods ∪ to_process st0 ∖ {[x]}) ∖ processed st0
                 ⊆ (listed_deps mods ∪ to_process st0) ∖ processed st0)
      by set_solver.
    assert (H2 : (to_process st0 ∖ {[x]}) ∩ processed st0
                 ⊂ to_process st0 ∩ processed st0) by set_solver.
    apply subseteq_size in H1. apply subset_size in H2. lia.
  - assert (H1 : (listed_deps mods
                  ∪ (to_process st0 ∖ {[x]}
                     ∪ direct_deps (mods_dict_of mods) x ∖ ({[x]} ∪ processed st0)))
                 ∖ ({[x]} ∪ processed st0)
                 ⊂ (listed_deps mods ∪ to_process st0) ∖ processed st0)
      by set_solver.
    assert (H2 : (to_process st0 ∖ {[x]}
                  ∪ direct_deps (mods_dict_of mods) x ∖ ({[x]} ∪ processed st0))
                 ∩ ({[x]} ∪ processed st0)
                 ⊆ to_process st0 ∩ processed st0) by set_solver.
    apply subset_size in H1. apply subseteq_size in H2. lia.
Qed.

Lemma step_terminates mods :
  well_founded (fun st' st => step (mods_dict_of mods) st st').
Proof.
  apply (wf_projected lt (closure_measure mods)); [|apply lt_wf].
  intros st' st Hstep. by apply step_measure.
Qed.

Lemma pop_None s : pop s = None -> s = ∅.
Proof.
  unfold pop. intros H. apply leibniz_equiv, elements_empty_inv.
  destruct (elements s); [done | discriminate].
Qed.

Lemma pop_Some s x : pop s = Some x -> x ∈ s.
Proof.
  unfold pop. intros H. apply elem_of_elements.
  destruct (elements s); [discriminate|]. injection H as ->. by left.
Qed.

(** With fuel for the measure, the executable run returns, and what it
    returns is the result of a run of the loop. *)
Lemma loop_returns mods fuel st :
  closure_measure mods st <= fuel ->
  exists r, loop fuel (mods_dict_of mods) st = Some r
            /\ returns (mods_dict_of mods) st r.
Proof.
  revert st. induction fuel as [|fuel IH]; intros st Hle.
  - destruct (pop (to_process st)) as [x|] eqn:E.
    + apply pop_Some in E.
      assert (Hs : step (mods_dict_of mods) st (iteration (mods_dict_of mods) x st))
        by (by constructor).
      apply step_measure in Hs. lia.
    + exists (all_dependencies st). simpl. rewrite E. split; [done|].
      constructor. by apply pop_None.
  - simpl. destruct (pop (to_process st)) as [x|] eqn:E.
    + apply pop_Some in E.
      assert (Hs : step (mods_dict_of mods) st (iteration (mods_dict_of mods) x st))
        by (by constructor).
      destruct (IH (iteration (mods_dict_of mods) x st)) as (r & Hr & Hret).
      { apply step_measure in Hs. lia. }
      exists r. split; [done|]. by eapply returns_step.
    + exists (all_dependencies st). split; [done|].
      constructor. by apply pop_None.
Qed.

Lemma initial_measure mods mod_ids :
  closure_measure mods (initial mod_ids) = size (listed_deps mods ∪ mod_ids).
Proof.
  unfold closure_measure, initial. simpl.
  replace ((listed_deps mods ∪ mod_ids) ∖ ∅) with (listed_deps mods ∪ mod_ids)
    by set_solver.
  replace (mod_ids ∩ ∅) with (∅ : gset string) by set_solver.
  rewrite size_empty. lia.
Qed.

Lemma get_all_dependencies_efficient_returns mods mod_ids :
  exists r, get_all_dependencies_efficient mods mod_ids = Some r
            /\ may_return mods mod_ids r.
Proof.
  unfold get_all_dependencies_efficient, may_return.
  apply loop_returns. by rewrite initial_measure.
Qed.

Lemma transitive_dep_step d seeds x y :
  x ∈ seeds \/ transitive_dep d seeds x -> requires d x y ->
  transitive_dep d seeds y.
Proof.
  intros [Hs | (s & Hs & Htc)] Hreq.
  - exists x. split; [done | by apply tc_once].
  - exists s. split; [done | by eapply tc_r].
Qed.

Lemma closure_inv_initial d seeds : closure_inv d seeds (initial seeds).
Proof. unfold closure_inv, initial. simpl. set_solver. Qed.

Lemma closure_inv_step d seeds st st' :
  closure_inv d seeds st -> step d st st' -> closure_inv d seeds st'.
Proof.
  intros Hinv Hstep. destruct Hstep as [st0 x Hx].
  destruct Hinv as (Hall & Hreach & Hseeds & Hclosed).
  rewrite iteration_spec. unfold closure_inv. case_decide as Hp; simpl.
  - split_and!.
    + done.
    + intros z Hz. apply Hreach. set_solver.
    + intros z Hz. specialize (Hseeds z Hz).
      destruct (decide (z = x)) as [->|Hne]; set_solver.
    + intros z Hz. destruct (Hclosed z Hz) as [H1 H2]. split; [done|].
      intros y Hy. specialize (H2 y Hy).
      destruct (decide (y = x)) as [->|Hne]; set_solver.
  - assert (Hx' : x ∈ seeds \/ transitive_dep d seeds x)
      by (apply Hreach; set_solver).
    split_and!.
    + intros y [Hy|Hy]%elem_of_union; [by apply Hall|].
      by eapply transitive_dep_step.
    + intros z Hz.
      destruct (decide (z ∈ direct_deps d x)) as [Hd|Hd].
      * right. by eapply transitive_dep_step.
      * destruct (decide (z = x)) as [->|Hne]; [done|].
        apply Hreach. set_solver.
    + intros z Hz. specialize (Hseeds z Hz).
      destruct (decide (z = x)); set_solver.
    + intros z [Hz|Hz]%elem_of_union.
      * apply elem_of_singleton in Hz as ->. split; [set_solver|].
        intros y Hy. destruct (decide (y ∈ {[x]} ∪ processed st0)); set_solver.
      * destruct (Hclosed z Hz) as [H1 H2]. split; [set_solver|].
        intros y Hy. specialize (H2 y Hy).
        destruct (decide (y = x)); set_solver.
Qed.

(** When the loop ends, [all_dependencies] is the set of transitive
    dependencies of the seeds. *)
Lemma returns_spec d seeds st r :
  closure_inv d seeds st -> returns d st r ->
  forall y, y ∈ r <-> transitive_dep d seeds y.
Proof.
  intros Hinv Hret. induction Hret as [st Hempty | st st' r Hstep Hret IH].
  - destruct Hinv as (Hall & Hreach & Hseeds & Hclosed).
    intros y. split; [apply Hall|].
    intros (s & Hs & Htc).
    assert (Hsp : s ∈ processed st) by set_solver.
    clear Hs. revert Hsp.
    induction Htc as [x y Hxy | x z y Hxz Hzy IHtc]; intros Hxp.
    + destruct (Hclosed x Hxp) as [H1 _]. by apply H1.
    + destruct (Hclosed x Hxp) as [_ H2].
      apply IHtc. specialize (H2 z Hxz). set_solver.
  - apply IH. by eapply closure_inv_step.
Qed.

Lemma may_return_spec mods seeds r :
  may_return mods seeds r ->
  forall y, y ∈ r <-> transitive_dep (mods_dict_of mods) seeds y.
Proof. apply returns_spec, closure_inv_initial. Qed.

(** The closure of [r ∪ seeds], for [r] the closure of [seeds], is [r]. *)
Lemma may_return_again mods seeds r1 r2 :
  may_return mods seeds r1 -> may_return mods (r1 ∪ seeds) r2 -> r2 = r1.
Proof.
  intros H1 H2. apply set_eq. intros y.
  rewrite (may_return_spec _ _ _ H2 y), (may_return_spec _ _ _ H1 y).
  split.
  - intros (s & [Hs|Hs]%elem_of_union & Htc).
    + apply (may_return_spec _ _ _ H1) in Hs as (s0 & Hs0 & Htc0).
      exists s0. split; [done|]. by etrans.
    + by exists s.
  - intros (s & Hs & Htc). exists s. split; [set_solver | done].
Qed.

(** C4. The closure loop ends for every repository and every seed set,
    cycles and ids without a record included: [processed] never loses an
    id, no sequence of turns is infinite whatever id [pop] hands out and
    from whatever state, and [get_all_dependencies_efficient] returns a
    set. *)
Theorem closure_terminates (mods : list Mod) (mod_ids : gset string) :
  (forall st st', step (mods_dict_of mods) st st' ->
                  processed st ⊆ processed st'
                  /\ closure_measure mods st' < closure_measure mods st)
  /\ well_founded (fun st' st => step (mods_dict_of mods) st st')
  /\ (exists r, get_all_dependencies_efficient mods mod_ids = Some r)
  /\ (exists r, may_return mods mod_ids r).
Proof.
  split_and!.
  - intros st st' Hstep. split.
    + by eapply step_processed_grows.
    + by apply step_measure.
  - apply step_terminates.
  - destruct (get_all_dependencies_efficient_returns mods mod_ids) as (r & Hr & _).
    by exists r.
  - destruct (get_all_dependencies_efficient_returns mods mod_ids) as (r & _ & Hr).
    by exists r.
Qed.

Lemma closure_terminates_witness :
  let d := mods_dict_of Samples.cycle in
  step d (initial {["A"]}) (iteration d "A" (initial {["A"]}))
  /\ closure_measure Samples.cycle (iteration d "A" (initial {["A"]}))
     < closure_measure Samples.cycle (initial {["A"]}).
Proof.
  intros d.
  assert (Hs : step d (initial {["A"]}) (iteration d "A" (initial {["A"]}))).
  { constructor. simpl. by apply elem_of_singleton. }
  split; [exact Hs|].
  exact (proj2 (proj1 (closure_terminates Samples.cycle {["A"]}) _ _ Hs)).
Defined.

(** C5. The closure is idempotent: with [r1] the closure of the seeds [S]
    and [r2] the closure of [r1 ∪ S], [r2 ⊆ r1 ∪ S] (indeed [r2 = r1]),
    for the run that [get_all_dependencies_efficient] makes, which
    returns both times, and for every order in which [pop] may hand out
    the ids. *)
Theorem closure_idempotent (mods : list Mod) (S : gset string) :
  (exists r1 r2,
      get_all_dependencies_efficient mods S = Some r1
      /\ get_all_dependencies_efficient mods (r1 ∪ S) = Some r2
      /\ r2 ⊆ r1 ∪ S)
  /\ (forall r1 r2,
         may_return mods S r1 -> may_return mods (r1 ∪ S) r2 ->
         r2 ⊆ r1 ∪ S /\ r2 = r1).
Proof.
  assert (Hrel : forall r1 r2,
             may_return mods S r1 -> may_return mods (r1 ∪ S) r2 ->
             r2 ⊆ r1 ∪ S /\ r2 = r1).
  { intros r1 r2 H1 H2. pose proof (may_return_again _ _ _ _ H1 H2) as ->.
    split; [set_solver | done]. }
  split; [|exact Hrel].
  destruct (get_all_dependencies_efficient_returns mods S) as (r1 & Hr1 & Hm1).
  destruct (get_all_dependencies_efficient_returns mods (r1 ∪ S)) as (r2 & Hr2 & Hm2).
  exists r1, r2. split_and!; [done | done |].
  by apply (Hrel r1 r2).
Qed.

Lemma get_all_dependencies_efficient_may_return mods mod_ids r :
  get_all_dependencies_efficient mods mod_ids = Some r ->
  may_return mods mod_ids r.
Proof.
  intros H.
  destruct (get_all_dependencies_efficient_returns mods mod_ids) as (r' & Hr' & Hm).
  congruence.
Qed.

Lemma closure_idempotent_witness :
  may_return Samples.cycle {["A"]} {["A"; "B"; "Z"]}
  /\ may_return Samples.cycle ({["A"; "B"; "Z"]} ∪ {["A"]}) {["A"; "B"; "Z"]}
  /\ ({["A"; "B"; "Z"]} : gset string) ⊆ {["A"; "B"; "Z"]} ∪ {["A"]}.
Proof.
  assert (H1 : may_return Samples.cycle {["A"]} {["A"; "B"; "Z"]}).
  { apply get_all_dependencies_efficient_may_return. by vm_compute. }
  assert (H2 : may_return Samples.cycle ({["A"; "B"; "Z"]} ∪ {["A"]})
                 {["A"; "B"; "Z"]}).
  { apply get_all_dependencies_efficient_may_return. by vm_compute. }
  split; [exact H1|]. split; [exact H2|].
  exact (proj1 (proj2 (closure_idempotent Samples.cycle {["A"]}) _ _ H1 H2)).
Defined.

End ClosureProperties.

(** ** The hierarchy walk *)

Section HierarchyProperties.
Import ModManager.

Lemma foldl_option_None {A B} (f : option A -> B -> option A) (l : list B) :
  (forall x, f None x = None) -> foldl f None l = None.
Proof.
  intros Hf. induction l as [|x l IH]; simpl; [done|]. by rewrite Hf.
Qed.


Lemma foldl_option_rel {A B} (R : A -> A -> Prop)
  (f : option A -> B -> option A) (l : list B) :
  (forall a, R a a) ->
  (forall a b c, R a b -> R b c -> R a c) ->
  (forall x, f None x = None) ->
  (forall a x a', x ∈ l -> f (Some a) x = Some a' -> R a a') ->
  forall a a', foldl f (Some a) l = Some a' -> R a a'.
Proof.
  intros Hrefl Htrans Hnone.
  induction l as [|x l IH]; intros Hf a a'; simpl.
  - intros [= ->]. apply Hrefl.
  - destruct (f (Some a) x) as [a1|] eqn:E.
    + intros Hfold. apply (Htrans _ a1).
      * apply (Hf a x); [by left | done].
      * apply IH; [|done]. intros b y b' Hy. apply Hf. by right.
    + by rewrite foldl_option_None.
Qed.




Lemma emitted_ids_snoc out m lvl :
  emitted_ids (out ++ [(m, lvl)]) = (emitted_ids out ++ [mod_id m])%list.
Proof. unfold emitted_ids. by rewrite map_app. Qed.


Lemma root_mods_subset mods m : m ∈ root_mods mods -> m ∈ mods.
Proof. unfold root_mods. intros H. by apply list_elem_of_filter in H as [_ ?]. Qed.







(** *** Where a record is emitted *)








Lemma walk_ok_start mods : walk_ok mods (mkWalk [] ∅).
Proof.
  unfold walk_ok, emitted_ids. simpl. split_and!.
  - apply NoDup_nil_2.
  - set_solver.
  - intros e He. by apply elem_of_nil in He.
Qed.





(** The walk on the two-record cycle: B is found under A, and A is not
    entered again from B. *)
Example cycle_walk :
  emitted_ids <$> build_hierarchical_list 1 3 Samples.cycle = Some ["A"; "B"]
  /\ (map snd) <$> build_hierarchical_list 1 3 Samples.cycle = Some [0; 1].
Proof. split; by vm_compute. Qed.

(** A chain of three records needs three nested calls, and the third
    one more level for its [visited.add] where that is counted: with too
    few free levels the walk raises [RecursionError]. *)
Example deep_chain_raises :
  build_hierarchical_list 1 3 Samples.chain = None
  /\ emitted_ids <$> build_hierarchical_list 1 4 Samples.chain
     = Some ["A"; "B"; "C"]
  /\ build_hierarchical_list 0 2 Samples.chain = None
  /\ emitted_ids <$> build_hierarchical_list 0 3 Samples.chain
     = Some ["A"; "B"; "C"].
Proof. by vm_compute. Qed.

End HierarchyProperties.

(** ** The metadata resolver *)

Section ResolverProperties.
Import SteamAPI.
Variable py_str : json -> string.
Variable unescape : string -> string.

Lemma api_details_early net mod_id early :
  api_details py_str net mod_id = inr (inl early) ->
  exists msg, early = error_result mod_id msg.
Proof.
  unfold api_details, bind, ret. intros H.
  repeat (case_match; simplify_eq/=); eauto.
Qed.

Lemma api_details_dict net mod_id details :
  api_details py_str net mod_id = inr (inr details) ->
  exists d, details = JDict d.
Proof.
  unfold api_details, bind, ret. intros H.
  repeat (case_match; simplify_eq/=).
  match goal with
  | Hg : py_get ?v "result" JNull = inr _ |- exists d, ?v = JDict d =>
      destruct v; simpl in Hg; try discriminate; eauto
  end.
Qed.

Lemma api_details_response net mod_id e :
  api_response net = inl e -> api_details py_str net mod_id = inl e.
Proof. unfold api_details, bind. by intros ->. Qed.

(** What the body returns when it does not raise: an error dict, or the
    full dict with the scraped dependencies and no error. *)
Lemma fetch_body_returns net mod_id r :
  fetch_body py_str unescape net mod_id = inr r ->
  (exists msg, r = error_result mod_id msg
               /\ forall details, api_details py_str net mod_id <> inr (inr details))
  \/ (error r = None
      /\ dependencies r = Some (scrape_dependencies net)
      /\ exists details, api_details py_str net mod_id = inr (inr details)).
Proof.
  unfold fetch_body, bind at 1.
  destruct (api_details py_str net mod_id) as [e|[early|details]] eqn:E;
    [done | |].
  - intros [= <-]. left. destruct (api_details_early _ _ _ E) as [msg ->].
    exists msg. split; [done|]. intros details. discriminate.
  - destruct (api_details_dict _ _ _ E) as [d ->].
    unfold bind, ret. simpl.
    destruct (describe unescape (JDict d)) as [e|desc]; [done|].
    intros [= <-]. right. simpl. eauto.
Qed.

Lemma fetch_mod_info_returns net mod_id :
  exists r, fetch_mod_info py_str unescape net mod_id = inr r.
Proof.
  unfold fetch_mod_info, ret.
  destruct (fetch_body py_str unescape net mod_id) as [[]|r]; eauto.
Qed.

(** An error in the result always comes with the fallback title, and a
    result without an error is the full dict of the body. *)
Lemma fetch_mod_info_cases net mod_id r :
  fetch_mod_info py_str unescape net mod_id = inr r ->
  (exists msg, r = error_result mod_id msg)
  \/ (error r = None
      /\ dependencies r = Some (scrape_dependencies net)
      /\ exists details, api_details py_str net mod_id = inr (inr details)).
Proof.
  unfold fetch_mod_info, ret.
  destruct (fetch_body py_str unescape net mod_id) as [e|r'] eqn:E.
  - destruct e; intros [= <-]; left; eauto.
  - intros [= <-]. destruct (fetch_body_returns _ _ _ E) as [(msg & -> & _)|?];
      [left; eauto | by right].
Qed.

(** The scrape does not decide whether the body raises or returns early. *)
Lemma fetch_mod_info_scrape_failure net mod_id e :
  page_scrape net = inl e ->
  fetch_mod_info py_str unescape net mod_id
  = fetch_mod_info py_str unescape (mkNet (api_response net) (inr None)) mod_id.
Proof.
  intros Hs. unfold fetch_mod_info, fetch_body, api_details, scrape_dependencies.
  simpl. by rewrite Hs.
Qed.

(** An answer that passes the checks has the shape of an API answer,
    and the result code of its item compares equal to 1. *)
Lemma api_details_answer net mod_id details :
  api_details py_str net mod_id = inr (inr details) ->
  exists data d,
    api_response net = inr data /\ api_answer data d /\ details = JDict d
    /\ py_eq_1 (default JNull (assoc "result" d)) = true.
Proof.
  unfold api_details, bind, ret. intros H.
  destruct (api_response net) as [e|[| | | | |top]] eqn:Ea; try done.
  simpl in H.
  destruct (assoc "response" top) as [[| | | | |resp]|] eqn:Er; try done;
    simpl in H.
  destruct (assoc "publishedfiledetails" resp)
    as [[|[]|z|[|c s]|[|[| | | | |d] rest]|[|kv dd]]|] eqn:Ef;
    try done; simpl in H.
  - by destruct (z =? 0)%Z.
  - destruct (py_eq_1 (default JNull (assoc "result" d))) eqn:E1; [|done].
    injection H as <-. exists (JDict top), d. split_and!; [done | | done | done].
    by exists top, resp, rest.
Qed.

(** What a sound answer gives, whatever the scrape did. *)
Lemma fetch_mod_info_sound net mod_id data d :
  api_response net = inr data -> api_answer data d ->
  assoc "result" d = Some (JInt 1) ->
  (assoc "description" d = None \/ exists s, assoc "description" d = Some (JStr s)) ->
  exists r,
    fetch_mod_info py_str unescape net mod_id = inr r
    /\ error r = None
    /\ title r = Some (default (JStr "Unknown") (assoc "title" d))
    /\ dependencies r = Some (scrape_dependencies net).
Proof.
  intros Ha (top & resp & rest & -> & Hr & Hf) Hres Hdesc.
  unfold fetch_mod_info, fetch_body, api_details, describe, bind, ret.
  rewrite Ha. simpl. rewrite Hr. simpl. rewrite Hf. simpl. rewrite Hres. simpl.
  destruct Hdesc as [->|[s ->]]; simpl.
  - eexists. split; [done|]. done.
  - destruct (negb (s =? "")%string); simpl; eexists; (split; [done|]); done.
Qed.

(** A result code other than 1 gives the error that names it. *)
Lemma fetch_mod_info_result_code net mod_id data d :
  api_response net = inr data -> api_answer data d ->
  assoc "result" d <> Some (JInt 1) -> assoc "result" d <> Some (JBool true) ->
  fetch_mod_info py_str unescape net mod_id
  = inr (error_result mod_id
           ("API result not OK (result code: "
            +:+ py_str (default JNull (assoc "result" d)) +:+ ")")).
Proof.
  intros Ha (top & resp & rest & -> & Hr & Hf) Hne1 Hne2.
  unfold fetch_mod_info, fetch_body, api_details, bind, ret.
  rewrite Ha. simpl. rewrite Hr. simpl. rewrite Hf. simpl.
  assert (Hcode : py_eq_1 (default JNull (assoc "result" d)) = false).
  { destruct (assoc "result" d) as [[|[]|z| | |]|]; simpl; try done.
    destruct (Z.eqb_spec z 1) as [->|]; done. }
  by rewrite Hcode.
Qed.

(** An answer without an item gives the error that says so. *)
Lemma fetch_mod_info_no_details net mod_id top resp :
  api_response net = inr (JDict top) ->
  assoc "response" top = Some (JDict resp) ->
  (assoc "publishedfiledetails" resp = None
   \/ assoc "publishedfiledetails" resp = Some (JList [])) ->
  fetch_mod_info py_str unescape net mod_id
  = inr (error_result mod_id "No details in API response.").
Proof.
  intros Ha Hr Hf.
  unfold fetch_mod_info, fetch_body, api_details, bind, ret.
  rewrite Ha. simpl. rewrite Hr. simpl. by destruct Hf as [->| ->].
Qed.

(** C6. [fetch_mod_info] returns a dict in every case, it never raises.
    A result that carries an error has the title ["Mod <id>"]. Every API
    failure gives such a result: a network error (reported as
    ["Network error: ..."]); a malformed answer, that is every answer
    that is not [{"response": {"publishedfiledetails": [{...}, ...]}}],
    with its own message when the item list is missing or empty; and a
    result code other than 1 (the message names the code; [true], which
    compares equal to 1, is taken for 1). A failed scrape is not a
    failure: it gives what a page without a required-items block gives,
    and with a well-formed answer, result code 1 and a description that
    is a string or absent, the result has no error, and
    [dependencies = []] when the scrape failed. *)
Theorem fetch_mod_info_failure_policy (net : Net) (mod_id : string) :
  exists r,
    fetch_mod_info py_str unescape net mod_id = inr r
    /\ (is_Some (error r) -> title r = Some (JStr ("Mod " +:+ mod_id)))
    /\ (forall e, api_response net = inl e ->
                  error r = Some (match e with
                                  | RequestException msg => "Network error: " +:+ msg
                                  | _ => str_of_exn e
                                  end))
    /\ (forall data, api_response net = inr data ->
                     (forall d, ~ api_answer data d) -> is_Some (error r))
    /\ (forall top resp,
          api_response net = inr (JDict top) ->
          assoc "response" top = Some (JDict resp) ->
          assoc "publishedfiledetails" resp = None
          \/ assoc "publishedfiledetails" resp = Some (JList []) ->
          error r = Some "No details in API response.")
    /\ (forall data d,
          api_response net = inr data -> api_answer data d ->
          assoc "result" d <> Some (JInt 1) ->
          assoc "result" d <> Some (JBool true) ->
          error r = Some ("API result not OK (result code: "
                          +:+ py_str (default JNull (assoc "result" d)) +:+ ")"))
    /\ (forall data d,
          api_response net = inr data -> api_answer data d ->
          assoc "result" d = Some (JInt 1) ->
          assoc "description" d = None
          \/ (exists s, assoc "description" d = Some (JStr s)) ->
          error r = None
          /\ dependencies r = Some (scrape_dependencies net)
          /\ (forall e, page_scrape net = inl e -> dependencies r = Some []))
    /\ (forall e, page_scrape net = inl e ->
          fetch_mod_info py_str unescape net mod_id
          = fetch_mod_info py_str unescape (mkNet (api_response net) (inr None)) mod_id
          /\ (error r = None -> dependencies r = Some [])).
Proof.
  destruct (fetch_mod_info_returns net mod_id) as [r Hr].
  exists r. split; [exact Hr|].
  pose proof (fetch_mod_info_cases _ _ _ Hr) as Hcases.
  split_and!.
  - intros [msg Hmsg]. destruct Hcases as [[m ->]|(Hnone & _)]; [done|].
    congruence.
  - intros e He. revert Hr.
    unfold fetch_mod_info, fetch_body.
    rewrite (api_details_response _ _ _ He). unfold bind, ret.
    by destruct e; intros [= <-].
  - intros data Ha Hbad.
    destruct Hcases as [[m ->]|(_ & _ & details & Hd)]; [by eexists|].
    apply api_details_answer in Hd as (data' & d & Ha' & Hans & _).
    rewrite Ha in Ha'. injection Ha' as <-. by destruct (Hbad d).
  - intros top resp Ha Hresp Hf.
    rewrite (fetch_mod_info_no_details _ _ _ _ Ha Hresp Hf) in Hr.
    by injection Hr as <-.
  - intros data d Ha Hans Hne1 Hne2.
    rewrite (fetch_mod_info_result_code _ _ _ _ Ha Hans Hne1 Hne2) in Hr.
    by injection Hr as <-.
  - intros data d Ha Hans Hres Hdesc.
    destruct (fetch_mod_info_sound net mod_id data d Ha Hans Hres Hdesc)
      as (r' & Hr' & Herr & _ & Hdeps).
    rewrite Hr in Hr'. injection Hr' as <-.
    split_and!; [done | done |].
    intros e He. rewrite Hdeps. unfold scrape_dependencies. by rewrite He.
  - intros e Hscrape.
    assert (Hdeps : scrape_dependencies net = []).
    { unfold scrape_dependencies. by rewrite Hscrape. }
    split.
    + by eapply fetch_mod_info_scrape_failure.
    + intros Hnone. destruct Hcases as [[m ->]|(_ & Hd & _)]; [done|].
      by rewrite Hd, Hdeps.
Qed.

End ResolverProperties.

Lemma fetch_mod_info_failure_policy_witness :
  let net := SteamAPI.mkNet (inr Samples.api_ok)
               (inl (SteamAPI.RequestException "timed out")) in
  SteamAPI.page_scrape net = inl (SteamAPI.RequestException "timed out")
  /\ exists r,
       SteamAPI.fetch_mod_info Samples.show_code Samples.no_entities net "123" = inr r
       /\ SteamAPI.error r = None
       /\ SteamAPI.dependencies r = Some [].
Proof.
  intros net. split; [reflexivity|].
  destruct (fetch_mod_info_failure_policy Samples.show_code Samples.no_entities
              net "123") as (r & Hr & _ & _ & _ & _ & _ & Hsound & _).
  exists r. split; [exact Hr|].
  destruct (Hsound Samples.api_ok Samples.api_ok_item eq_refl) as (Herr & _ & Hdeps).
  - eexists _, _, _. split; [reflexivity|]. split; reflexivity.
  - reflexivity.
  - right. eexists. reflexivity.
  - split; [exact Herr | exact (Hdeps _ eq_refl)].
Defined.

(** The answers that the policy turns into an error: a result code
    other than 1, an empty item list, an answer that is not a dict. *)
Example fetch_failures :
  let fetch data :=
    SteamAPI.fetch_mod_info Samples.show_code Samples.no_entities
      (SteamAPI.mkNet (inr data) (inr None)) "77" in
  fetch Samples.api_not_found
  = inr (SteamAPI.error_result "77" "API result not OK (result code: 9)")
  /\ fetch (SteamAPI.JDict
              [("response",
                SteamAPI.JDict [("publishedfiledetails", SteamAPI.JList [])])])
     = inr (SteamAPI.error_result "77" "No details in API response.")
  /\ fetch (SteamAPI.JList [])
     = inr (SteamAPI.error_result "77" "'list' object has no attribute 'get'").
Proof. by vm_compute. Qed.

Example fetch_not_found :
  SteamAPI.fetch_mod_info Samples.show_code Samples.no_entities
    (SteamAPI.mkNet (inr Samples.api_not_found) (inr None)) "77"
  = inr (SteamAPI.error_result "77" "API result not OK (result code: 9)").
Proof. reflexivity. Qed.

Example fetch_required_items :
  match SteamAPI.fetch_mod_info Samples.show_code Samples.no_entities
          (SteamAPI.mkNet (inr Samples.api_ok)
             (inr (Some [Some "https://steamcommunity.com/workshop/filedetails/?id=818773962";
                         None;
                         Some "https://example.org/";
                         Some "https://steamcommunity.com/workshop/filedetails/?id=735106432"])))
          "123"
  with
  | inr r => SteamAPI.dependencies r
  | inl _ => None
  end = Some ["818773962"; "735106432"].
Proof. reflexivity. Qed.

(** ** Copies and shared records *)

Section StoreProperties.
Import ModManager.

Lemma mapM_read_ext (f g : Store.ref -> option Mod) (items : list Store.ref) :
  (forall x, f x = g x) -> mapM f items = mapM g items.
Proof.
  intros Hfg. induction items as [|x items IH]; simpl; [done|].
  by rewrite Hfg, IH.
Qed.

Lemma contents_ext (h1 h2 : gmap Store.ref Store.object) (s : Store.ref) :
  h1 !! s = h2 !! s ->
  (forall x, Store.read_dict h1 x = Store.read_dict h2 x) ->
  Store.contents h1 s = Store.contents h2 s.
Proof.
  intros Hs Hread. unfold Store.contents. rewrite Hs.
  destruct (h2 !! s) as [[m|items]|]; [done | | done].
  by apply mapM_read_ext.
Qed.

(** Putting a list object at a place that held no dict changes no read
    of a dict. *)
Lemma read_dict_insert_list (h : gmap Store.ref Store.object) r items x :
  Store.read_dict h r = None ->
  Store.read_dict (<[r := Store.List items]> h) x = Store.read_dict h x.
Proof.
  intros Hr. unfold Store.read_dict in *.
  destruct (decide (r = x)) as [->|Hne].
  - by rewrite lookup_insert_eq, Hr.
  - by rewrite lookup_insert_ne.
Qed.

(** C7 (as amended). [get_all_mods] returns a new list object holding the
    item references of [self.mods]: it is not [self.mods], and whatever
    the caller does to that list leaves [self.mods] and the records read
    through it as they were. The items are the stored dicts themselves,
    and so is what [get_mod_by_id] returns: a reference to the first
    stored dict with that id, through which an assignment by the caller
    is an assignment to the repository's record. *)
Theorem reads_copy_the_list_only (h : gmap Store.ref Store.object)
  (self_mods : Store.ref) :
  (forall h' r,
      Store.get_all_mods h self_mods = Some (h', r) ->
      r <> self_mods
      /\ h !! r = None
      /\ (exists items, h !! self_mods = Some (Store.List items)
                        /\ h' !! r = Some (Store.List items))
      /\ Store.contents h' self_mods = Store.contents h self_mods
      /\ (forall g,
             Store.list_update h' r g !! self_mods = h !! self_mods
             /\ Store.contents (Store.list_update h' r g) self_mods
                = Store.contents h self_mods))
  /\ (forall i r,
         Store.get_mod_by_id h self_mods i = Some (Some r) ->
         exists items m,
           h !! self_mods = Some (Store.List items)
           /\ r ∈ items
           /\ h !! r = Some (Store.Dict m)
           /\ mod_id m = i
           /\ forall f, Store.read_dict (Store.dict_update h r f) r = Some (f m)).
Proof.
  split.
  - intros h' r. unfold Store.get_all_mods.
    destruct (h !! self_mods) as [[m|items]|] eqn:Es; [done | | done].
    intros [= <- <-].
    pose proof (is_fresh (dom h)) as Hfresh.
    assert (Hr : h !! fresh (dom h) = None) by (by apply not_elem_of_dom).
    assert (Hne : fresh (dom h) <> self_mods) by congruence.
    assert (Hrd : Store.read_dict h (fresh (dom h)) = None).
    { unfold Store.read_dict. by rewrite Hr. }
    split_and!; [done | done | | |].
    + exists items. split; [done | by rewrite lookup_insert_eq].
    + apply contents_ext; [by rewrite lookup_insert_ne|].
      intros x. by apply read_dict_insert_list.
    + intros g. unfold Store.list_update. rewrite lookup_insert_eq.
      rewrite insert_insert_eq. split.
      * by rewrite lookup_insert_ne.
      * apply contents_ext; [by rewrite lookup_insert_ne|].
        intros x. by apply read_dict_insert_list.
  - intros i r. unfold Store.get_mod_by_id.
    destruct (h !! self_mods) as [[m|items]|] eqn:Es; [done | | done].
    intros [= Hfind]. apply find_some in Hfind as [Hin Hid].
    unfold Store.dict_has_id in Hid.
    destruct (h !! r) as [[m|?]|] eqn:Er; [|done|done].
    exists items, m. split_and!; [done | by apply list_elem_of_In | done | |].
    + unfold has_id in Hid. by apply String.eqb_eq.
    + intros f. unfold Store.dict_update, Store.read_dict.
      by rewrite Er, lookup_insert_eq.
Qed.

Lemma reads_copy_the_list_only_witness :
  Store.get_mod_by_id Samples.sample_store 1%positive "7" = Some (Some 2%positive)
  /\ exists items m,
       Samples.sample_store !! 1%positive = Some (Store.List items)
       /\ 2%positive ∈ items
       /\ Samples.sample_store !! 2%positive = Some (Store.Dict m)
       /\ mod_id m = "7".
Proof.
  assert (H : Store.get_mod_by_id Samples.sample_store 1%positive "7"
              = Some (Some 2%positive)) by reflexivity.
  split; [exact H|].
  destruct (proj2 (reads_copy_the_list_only Samples.sample_store 1%positive)
              "7" 2%positive H) as (items & m & H1 & H2 & H3 & H4 & _).
  exists items, m. by split_and!.
Defined.

(** C7 (as stated) fails: the dict that [get_mod_by_id] returns, and the
    items of the list that [get_all_mods] returns, are the stored dicts;
    setting [is_dependency] through either changes the repository. *)
Lemma returned_record_is_shared :
  let h := Samples.sample_store in
  let mark := set_is_dependency true in
  Store.contents h 1%positive = Some [placeholder "7" false]
  /\ Store.get_mod_by_id h 1%positive "7" = Some (Some 2%positive)
  /\ Store.contents (Store.dict_update h 2%positive mark) 1%positive
     = Some [mark (placeholder "7" false)]
  /\ (exists h' r,
         Store.get_all_mods h 1%positive = Some (h', r)
         /\ h' !! r = Some (Store.List [2%positive])
         /\ Store.contents (Store.dict_update h' 2%positive mark) 1%positive
            = Some [mark (placeholder "7" false)])
  /\ ~ (forall (h : gmap Store.ref Store.object) s i r f,
          Store.get_mod_by_id h s i = Some (Some r) ->
          Store.contents (Store.dict_update h r f) s = Store.contents h s).
Proof.
  intros h mark. split_and!.
  - by vm_compute.
  - by vm_compute.
  - by vm_compute.
  - eexists _, _. split; [reflexivity|]. split; by vm_compute.
  - intros H.
    specialize (H h 1%positive "7" 2%positive mark eq_refl).
    vm_compute in H. discriminate.
Qed.

End StoreProperties.

(** ** Removing and updating records *)

Section RepositoryUpdates.
Import ModManager.

Lemma has_id_true i m : has_id i m = true <-> mod_id m = i.
Proof. unfold has_id. apply String.eqb_eq. Qed.

Lemma list_find_get_mod_by_id mods i :
  snd <$> list_find (fun m => has_id i m = true) mods = get_mod_by_id mods i.
Proof.
  unfold get_mod_by_id. induction mods as [|m ms IH]; simpl; [done|].
  case_decide as Hm.
  - by rewrite Hm.
  - apply not_true_is_false in Hm. rewrite Hm, <- IH.
    by destruct (list_find _ ms) as [[]|].
Qed.

Lemma update_first_absent i f mods :
  i ∉ ids mods -> update_first i f mods = mods.
Proof.
  unfold ids. induction mods as [|m ms IH]; simpl; [done|].
  intros Hin. destruct (has_id i m) eqn:E.
  - apply has_id_true in E. set_solver.
  - rewrite IH; [done | set_solver].
Qed.

Lemma get_update_first_other i j f mods :
  (forall m, mod_id (f m) = mod_id m) -> i <> j ->
  get_mod_by_id (update_first i f mods) j = get_mod_by_id mods j.
Proof.
  intros Hf Hne. unfold get_mod_by_id.
  induction mods as [|m ms IH]; simpl; [done|].
  destruct (has_id i m) eqn:E; simpl.
  - apply has_id_true in E.
    assert (has_id j (f m) = false) as ->.
    { apply not_true_iff_false. rewrite has_id_true, Hf. congruence. }
    assert (has_id j m = false) as ->; [|done].
    apply not_true_iff_false. rewrite has_id_true. congruence.
  - by rewrite IH.
Qed.

Lemma get_update_first_same i f mods e :
  (forall m, mod_id (f m) = mod_id m) ->
  get_mod_by_id mods i = Some e ->
  get_mod_by_id (update_first i f mods) i = Some (f e).
Proof.
  intros Hf. unfold get_mod_by_id.
  induction mods as [|m ms IH]; simpl; [done|].
  destruct (has_id i m) eqn:E; simpl.
  - intros [= ->].
    assert (has_id i (f e) = true) as ->; [|done].
    apply has_id_true. rewrite Hf. by apply has_id_true.
  - rewrite E. apply IH.
Qed.

Lemma ids_update_first_gen i f mods :
  (forall m, mod_id (f m) = mod_id m) ->
  ids (update_first i f mods) = ids mods.
Proof.
  intros Hf. unfold ids. induction mods as [|m ms IH]; simpl; [done|].
  destruct (has_id i m); simpl; [by rewrite Hf | by rewrite IH].
Qed.

Lemma remove_mod_cons m ms i :
  remove_mod (m :: ms) i
  = if has_id i m then (ms, true)
    else ((m :: (remove_mod ms i).1), (remove_mod ms i).2).
Proof.
  unfold remove_mod. simpl. case_decide as Hm.
  - by rewrite Hm.
  - apply not_true_is_false in Hm. rewrite Hm.
    by destruct (list_find _ ms) as [[k x]|].
Qed.

Lemma remove_mod_absent mods i : i ∉ ids mods -> remove_mod mods i = (mods, false).
Proof.
  unfold ids. induction mods as [|m ms IH]; [done|].
  intros Hin. rewrite remove_mod_cons.
  destruct (has_id i m) eqn:E.
  - apply has_id_true in E. set_solver.
  - rewrite IH; [done | set_solver].
Qed.

(** X1. [remove_mod] reports whether the id had a record. Without one the
    repository is unchanged. With one, exactly the first record of that
    id is taken out, the lookups of all other ids are as before, and in a
    repository without duplicate ids the id is gone afterwards. *)
Theorem remove_mod_spec (mods : list Mod) (i : string) :
  ((remove_mod mods i).2 = true <-> i ∈ ids mods)
  /\ (i ∉ ids mods -> (remove_mod mods i).1 = mods)
  /\ (forall m, get_mod_by_id mods i = Some m ->
                mods ≡ₚ m :: (remove_mod mods i).1
                /\ length (remove_mod mods i).1 + 1 = length mods)
  /\ (forall j, j <> i ->
                get_mod_by_id (remove_mod mods i).1 j = get_mod_by_id mods j)
  /\ (NoDup (ids mods) ->
      (i ∉ ids (remove_mod mods i).1) /\ NoDup (ids (remove_mod mods i).1)).
Proof.
  split_and!.
  - induction mods as [|m ms IH]; [set_solver|].
    rewrite remove_mod_cons. unfold ids in *. simpl.
    destruct (has_id i m) eqn:E; simpl.
    + apply has_id_true in E. set_solver.
    + rewrite IH. apply not_true_iff_false in E. rewrite has_id_true in E. set_solver.
  - intros Hin. by rewrite remove_mod_absent.
  - induction mods as [|x ms IH]; intros m; [done|].
    rewrite remove_mod_cons. unfold get_mod_by_id in *. simpl.
    destruct (has_id i x) eqn:E; simpl.
    + intros [= ->]. split; [done | simpl; lia].
    + intros Hm. destruct (IH m Hm) as [Hp Hl]. split; [|simpl; lia].
      rewrite Hp at 1. apply Permutation_swap.
  - intros j Hne. induction mods as [|x ms IH]; [done|].
    rewrite remove_mod_cons. unfold get_mod_by_id in *. simpl.
    destruct (has_id i x) eqn:E; simpl.
    + apply has_id_true in E.
      assert (has_id j x = false) as ->; [|done].
      apply not_true_iff_false. rewrite has_id_true. congruence.
    + by rewrite IH.
  - induction mods as [|x ms IH]; [by split; [set_solver|]|].
    rewrite remove_mod_cons. unfold ids in *. simpl.
    intros [Hx Hnd]%NoDup_cons.
    destruct (has_id i x) eqn:E; simpl.
    + apply has_id_true in E. subst. by split.
    + destruct (IH Hnd) as [H1 H2].
      apply not_true_iff_false in E. rewrite has_id_true in E.
      split; [set_solver|]. apply NoDup_cons. split; [|done].
      intros Hin. apply Hx.
      destruct (decide (i ∈ map mod_id ms)) as [Hi|Hi].
      * destruct (get_mod_by_id_is_Some ms i Hi) as [e He].
        assert (Hperm : ms ≡ₚ e :: (remove_mod ms i).1).
        { clear -He. revert e He. induction ms as [|y ms IH]; intros e; [done|].
          rewrite remove_mod_cons. unfold get_mod_by_id in *. simpl.
          destruct (has_id i y); simpl; [by intros [= ->]|].
          intros He. rewrite (IH e He) at 1. apply Permutation_swap. }
        rewrite Hperm. simpl. set_solver.
      * by rewrite remove_mod_absent in Hin.
Qed.

Lemma remove_mod_spec_witness :
  get_mod_by_id Samples.diamond "B" = Some (Samples.sample_mod "B" (Some 1%Z) ["D"] true)
  /\ length (remove_mod Samples.diamond "B").1 + 1 = length Samples.diamond.
Proof.
  split; [reflexivity|].
  destruct (remove_mod_spec Samples.diamond "B") as (_ & _ & H & _).
  exact (proj2 (H _ eq_refl)).
Defined.

(** X2. Adding an id that has no record and removing it again gives the
    repository back. *)
Theorem add_then_remove (mods : list Mod) (i : string) (is_dep : bool) :
  i ∉ ids mods ->
  remove_mod (add_mod_by_id mods i is_dep).1 i = (mods, true).
Proof.
  intros Hin. unfold add_mod_by_id.
  rewrite (proj2 (get_mod_by_id_None mods i) Hin). simpl.
  unfold ids in Hin. induction mods as [|m ms IH]; simpl.
  - rewrite remove_mod_cons.
    assert (has_id i (placeholder i is_dep) = true) as ->; [|done].
    by apply has_id_true.
  - rewrite remove_mod_cons.
    assert (has_id i m = false) as ->.
    { apply not_true_iff_false. rewrite has_id_true. set_solver. }
    rewrite IH; [done | set_solver].
Qed.

Lemma add_then_remove_witness :
  remove_mod (add_mod_by_id Samples.cycle "77" true).1 "77" = (Samples.cycle, true).
Proof.
  apply add_then_remove. unfold ids. simpl.
  intros H. repeat (apply elem_of_cons in H as [H|H]; [discriminate|]).
  by apply elem_of_nil in H.
Defined.

(** X3. [remove_mod_by_index] and [get_mod_by_index] accept exactly the
    indices [0 <= index < len]; a negative or too large index changes
    nothing and reports [False] / [None]. An accepted index removes the
    record that [get_mod_by_index] returns for it and keeps the order of
    the others. *)
Theorem remove_mod_by_index_spec (mods : list Mod) (index : Z) :
  ((remove_mod_by_index mods index).2 = true
   <-> (0 <= index < Z.of_nat (length mods))%Z)
  /\ (is_Some (get_mod_by_index mods index)
      <-> (0 <= index < Z.of_nat (length mods))%Z)
  /\ ((remove_mod_by_index mods index).2 = false ->
      (remove_mod_by_index mods index).1 = mods)
  /\ (forall m, get_mod_by_index mods index = Some m ->
        mods = (take (Z.to_nat index) mods ++ m :: drop (S (Z.to_nat index)) mods)%list
        /\ (remove_mod_by_index mods index).1
           = (take (Z.to_nat index) mods ++ drop (S (Z.to_nat index)) mods)%list
        /\ length (remove_mod_by_index mods index).1 + 1 = length mods).
Proof.
  assert (Hv : valid_index mods index = true
               <-> (0 <= index < Z.of_nat (length mods))%Z).
  { unfold valid_index. rewrite andb_true_iff, Z.leb_le, Z.ltb_lt. done. }
  unfold remove_mod_by_index, get_mod_by_index.
  destruct (valid_index mods index) eqn:E.
  - pose proof (proj1 Hv eq_refl) as Hr.
    assert (Hlt : Z.to_nat index < length mods) by lia.
    split_and!; simpl.
    + done.
    + split; [done|]. intros _. by apply lookup_lt_is_Some.
    + done.
    + intros m Hm. split_and!.
      * by rewrite (take_drop_middle _ _ _ Hm).
      * apply delete_take_drop.
      * rewrite length_delete by eauto. lia.
  - split_and!; simpl; try done.
    split; [by intros [? [=]]|]. intros H. apply Hv in H. discriminate.
Qed.

Lemma remove_mod_by_index_spec_witness :
  get_mod_by_index Samples.diamond 1
  = Some (Samples.sample_mod "B" (Some 1%Z) ["D"] true)
  /\ ids (remove_mod_by_index Samples.diamond 1).1 = ["A"; "C"; "D"].
Proof.
  split; [reflexivity|].
  destruct (remove_mod_by_index_spec Samples.diamond 1) as (_ & _ & _ & H).
  destruct (H _ eq_refl) as (_ & -> & _). reflexivity.
Defined.

Lemma update_reports_presence mods i (f : Mod -> Mod) :
  (match get_mod_by_id mods i with
   | Some _ => (update_first i f mods, true)
   | None => (mods, false)
   end).2 = true <-> i ∈ ids mods.
Proof.
  destruct (get_mod_by_id mods i) eqn:E; simpl.
  - split; [intros _|done].
    destruct (decide (i ∈ ids mods)) as [?|Hn]; [done|].
    apply get_mod_by_id_None in Hn. congruence.
  - apply get_mod_by_id_None in E. by split.
Qed.

(** X4. [update_mod_info] reports whether the id has a record; without
    one nothing changes. With one, the first record of that id gets the
    new info as a whole; ids, order and the dependency flags stay, and
    every other id reads as before. *)
Theorem update_mod_info_spec (mods : list Mod) (i : string) (new_info : Info) :
  ((update_mod_info mods i new_info).2 = true <-> i ∈ ids mods)
  /\ (i ∉ ids mods -> (update_mod_info mods i new_info).1 = mods)
  /\ ids (update_mod_info mods i new_info).1 = ids mods
  /\ map is_dependency (update_mod_info mods i new_info).1 = map is_dependency mods
  /\ (i ∈ ids mods ->
      info <$> get_mod_by_id (update_mod_info mods i new_info).1 i = Some new_info)
  /\ (forall j, j <> i ->
        get_mod_by_id (update_mod_info mods i new_info).1 j = get_mod_by_id mods j).
Proof.
  split_and!.
  - apply update_reports_presence.
  - intros Hn. unfold update_mod_info.
    by rewrite (proj2 (get_mod_by_id_None mods i) Hn).
  - unfold update_mod_info. destruct (get_mod_by_id mods i); [|done].
    by apply ids_update_first_gen.
  - unfold update_mod_info. destruct (get_mod_by_id mods i) as [e|]; [|done].
    simpl. clear e.
    induction mods as [|x xs IH]; simpl; [done|].
    destruct (has_id i x); simpl; [done | by rewrite IH].
  - intros Hin. unfold update_mod_info.
    destruct (get_mod_by_id_is_Some _ _ Hin) as [e He]. rewrite He. simpl.
    by rewrite (get_update_first_same i (set_info new_info) mods e).
  - intros j Hne. unfold update_mod_info.
    destruct (get_mod_by_id mods i); [|done]. simpl.
    by apply get_update_first_other.
Qed.

Lemma update_mod_info_spec_witness :
  "D" ∈ ids Samples.diamond
  /\ info <$> get_mod_by_id (update_mod_info Samples.diamond "D" empty_info).1 "D"
     = Some empty_info.
Proof.
  assert (H : "D" ∈ ids Samples.diamond).
  { unfold ids. simpl. do 3 right. left. }
  split; [exact H|].
  destruct (update_mod_info_spec Samples.diamond "D" empty_info)
    as (_ & _ & _ & _ & Hget & _).
  exact (Hget H).
Defined.

Lemma direct_deps_insert d (m : Mod) x :
  direct_deps (<[mod_id m := m]> d) x
  = if decide (mod_id m = x) then list_to_set (deps_of m) else direct_deps d x.
Proof.
  unfold direct_deps. case_decide as H.
  - by rewrite H, lookup_insert_eq.
  - by rewrite lookup_insert_ne.
Qed.

Lemma direct_deps_same_graph mods mods' :
  same_graph mods mods' ->
  forall x, direct_deps (mods_dict_of mods) x = direct_deps (mods_dict_of mods') x.
Proof.
  unfold mods_dict_of. intros Hg.
  assert (H : forall d d',
             (forall x, direct_deps d x = direct_deps d' x) ->
             forall x,
               direct_deps (foldl (fun d m => <[mod_id m := m]> d) d mods) x
               = direct_deps (foldl (fun d m => <[mod_id m := m]> d) d' mods') x).
  { induction Hg as [|a b l l' [Hid Hdeps] _ IH]; intros d d' Hd; simpl; [done|].
    apply IH. intros x. rewrite !direct_deps_insert, Hid, Hdeps, Hd. done. }
  by apply H.
Qed.

Lemma iteration_same_deps d d' x st :
  (forall y, direct_deps d y = direct_deps d' y) ->
  iteration d x st = iteration d' x st.
Proof. intros H. by rewrite !iteration_spec, H. Qed.

Lemma loop_same_deps d d' fuel :
  (forall y, direct_deps d y = direct_deps d' y) ->
  forall st, loop fuel d st = loop fuel d' st.
Proof.
  intros H. induction fuel as [|fuel IH]; intros st; simpl; [done|].
  destruct (pop (to_process st)); [|done].
  by rewrite (iteration_same_deps d d' _ _ H), IH.
Qed.

Lemma listed_deps_same_graph mods mods' :
  same_graph mods mods' -> listed_deps mods = listed_deps mods'.
Proof.
  unfold listed_deps. intros Hg. f_equal. f_equal.
  induction Hg as [|a b l l' [_ Hdeps] _ IH]; simpl; [done|].
  by rewrite Hdeps, IH.
Qed.

Lemma same_graph_update_first i f mods :
  (forall m, mod_id (f m) = mod_id m) ->
  (forall m, deps_of (f m) = deps_of m) ->
  same_graph mods (update_first i f mods).
Proof.
  intros Hid Hdeps. unfold same_graph.
  induction mods as [|m ms IH]; simpl; [constructor|].
  destruct (has_id i m).
  - constructor; [by rewrite Hid, Hdeps|].
    apply Forall_Forall2_diag, Forall_true. done.
  - by constructor.
Qed.

Lemma closure_same_graph (mods mods' : list Mod) (mod_ids : gset string) :
  same_graph mods mods' ->
  get_all_dependencies_efficient mods mod_ids
  = get_all_dependencies_efficient mods' mod_ids.
Proof.
  intros Hg. unfold get_all_dependencies_efficient.
  rewrite (listed_deps_same_graph _ _ Hg).
  apply loop_same_deps. by apply direct_deps_same_graph.
Qed.

Lemma may_return_is_result mods mod_ids r :
  may_return mods mod_ids r ->
  get_all_dependencies_efficient mods mod_ids = Some r.
Proof.
  intros Hr.
  destruct (get_all_dependencies_efficient_returns mods mod_ids) as (r' & -> & Hr').
  f_equal. apply set_eq. intros y.
  by rewrite (may_return_spec _ _ _ Hr y), (may_return_spec _ _ _ Hr' y).
Qed.

(** X5. The closure reads ids and dependency lists only: two
    repositories that agree on both, record by record, give the same
    result for every seed set, in the run of
    [get_all_dependencies_efficient] and in every other order of [pop]. *)
Theorem closure_reads_graph_only (mods mods' : list Mod) (mod_ids : gset string) :
  same_graph mods mods' ->
  get_all_dependencies_efficient mods mod_ids
  = get_all_dependencies_efficient mods' mod_ids
  /\ (forall r, may_return mods mod_ids r <-> may_return mods' mod_ids r).
Proof.
  intros Hg. pose proof (closure_same_graph _ _ mod_ids Hg) as Heq.
  split; [exact Heq|].
  intros r. split; intros Hr.
  - apply get_all_dependencies_efficient_may_return.
    rewrite <- Heq. by apply may_return_is_result.
  - apply get_all_dependencies_efficient_may_return.
    rewrite Heq. by apply may_return_is_result.
Qed.

Lemma closure_reads_graph_only_witness :
  get_all_dependencies_efficient Samples.cycle {["A"]}
  = get_all_dependencies_efficient
      (update_first "B" (set_is_dependency false) Samples.cycle) {["A"]}.
Proof.
  apply closure_reads_graph_only.
  apply same_graph_update_first; reflexivity.
Defined.

(** X6. [update_mod_description], [mark_as_dependency] and
    [mark_as_main_mod] report whether the id has a record, keep the ids,
    and leave every result of the closure as it was. The description
    update stores the text and keeps the title, the app id and the
    dependency list of the record. *)
Theorem metadata_updates_keep_graph (mods : list Mod) (i text : string)
  (mod_ids : gset string) :
  ((update_mod_description mods i text).2 = true <-> i ∈ ids mods)
  /\ ((mark_as_dependency mods i).2 = true <-> i ∈ ids mods)
  /\ ((mark_as_main_mod mods i).2 = true <-> i ∈ ids mods)
  /\ get_all_dependencies_efficient (update_mod_description mods i text).1 mod_ids
     = get_all_dependencies_efficient mods mod_ids
  /\ get_all_dependencies_efficient (mark_as_dependency mods i).1 mod_ids
     = get_all_dependencies_efficient mods mod_ids
  /\ get_all_dependencies_efficient (mark_as_main_mod mods i).1 mod_ids
     = get_all_dependencies_efficient mods mod_ids
  /\ (forall e, get_mod_by_id mods i = Some e ->
        get_mod_by_id (update_mod_description mods i text).1 i
        = Some (set_description text e)
        /\ description (info (set_description text e)) = Some text
        /\ title (info (set_description text e)) = title (info e)
        /\ app_id (info (set_description text e)) = app_id (info e)
        /\ deps_of (set_description text e) = deps_of e).
Proof.
  split_and!; try apply update_reports_presence.
  - unfold update_mod_description. destruct (get_mod_by_id mods i); [|done].
    symmetry. apply closure_same_graph, same_graph_update_first; done.
  - unfold mark_as_dependency. destruct (get_mod_by_id mods i); [|done].
    symmetry. apply closure_same_graph, same_graph_update_first; done.
  - unfold mark_as_main_mod. destruct (get_mod_by_id mods i); [|done].
    symmetry. apply closure_same_graph, same_graph_update_first; done.
  - intros e He. unfold update_mod_description. rewrite He. simpl.
    split_and!; try done.
    by apply (get_update_first_same i (set_description text) mods e).
Qed.

Lemma metadata_updates_keep_graph_witness :
  get_mod_by_id Samples.cycle "B"
  = Some (Samples.sample_mod "B" (Some 1%Z) ["A"; "Z"] true)
  /\ description <$>
       (info <$> get_mod_by_id (update_mod_description Samples.cycle "B" "about B").1 "B")
     = Some (Some "about B").
Proof.
  split; [reflexivity|].
  destruct (metadata_updates_keep_graph Samples.cycle "B" "about B" ∅)
    as (_ & _ & _ & _ & _ & _ & H).
  destruct (H _ eq_refl) as (-> & _). reflexivity.
Defined.

Lemma set_is_dependency_same m :
  set_is_dependency (is_dependency m) m = m.
Proof. by destruct m. Qed.

(** X7. On an id that has a record, [add_mod_by_id] with
    [is_dependency=False] leaves the repository as [mark_as_main_mod]
    does, and with [is_dependency=True] it changes nothing and returns
    [False]: a record is never turned into a dependency by adding it
    again. Marking as dependency and then as main mod ends with the flag
    cleared. *)
Theorem add_again_marks_main (mods : list Mod) (i : string) :
  i ∈ ids mods ->
  (add_mod_by_id mods i false).1 = (mark_as_main_mod mods i).1
  /\ add_mod_by_id mods i true = (mods, false)
  /\ is_dependency <$> get_mod_by_id (mark_as_dependency mods i).1 i = Some true
  /\ is_dependency <$>
       get_mod_by_id (mark_as_main_mod (mark_as_dependency mods i).1 i).1 i
     = Some false.
Proof.
  intros Hin. destruct (get_mod_by_id_is_Some _ _ Hin) as [e He].
  unfold add_mod_by_id, mark_as_main_mod, mark_as_dependency. rewrite He.
  split_and!.
  - destruct (is_dependency e) eqn:Ed; simpl; [done|].
    clear Hin. revert He. unfold get_mod_by_id.
    induction mods as [|m ms IH]; simpl; [done|].
    destruct (has_id i m) eqn:E.
    + intros [= ->]. by rewrite <- Ed, set_is_dependency_same.
    + intros He. by rewrite <- IH.
  - by rewrite andb_false_r.
  - simpl. by rewrite (get_update_first _ _ _ _ He).
  - simpl. rewrite (get_update_first _ _ _ _ He). simpl.
    by rewrite (get_update_first _ _ _ _ (get_update_first _ _ _ _ He)).
Qed.

Lemma add_again_marks_main_witness :
  add_mod_by_id Samples.diamond "A" true = (Samples.diamond, false).
Proof.
  refine (proj1 (proj2 (add_again_marks_main Samples.diamond "A" _))).
  unfold ids. simpl. left.
Defined.

End RepositoryUpdates.

(** ** More on the closure and on dependents *)

Section ClosureContents.
Import ModManager.

Lemma NoDup_ids_inj mods a b :
  NoDup (ids mods) -> a ∈ mods -> b ∈ mods -> mod_id a = mod_id b -> a = b.
Proof.
  unfold ids. induction mods as [|m ms IH]; simpl; [by intros _ ?%elem_of_nil|].
  intros [Hm Hnd]%NoDup_cons [->|Ha]%elem_of_cons [->|Hb]%elem_of_cons Heq;
    try done.
  - exfalso. apply Hm. rewrite Heq. apply list_elem_of_fmap. eauto.
  - exfalso. apply Hm. rewrite <- Heq. apply list_elem_of_fmap. eauto.
  - by apply IH.
Qed.

Lemma mods_dict_of_NoDup mods m :
  NoDup (ids mods) -> m ∈ mods -> mods_dict_of mods !! mod_id m = Some m.
Proof.
  intros Hnd Hm.
  destruct (mods_dict_of_dom mods (mod_id m)) as [m' Hm'].
  { unfold ids. apply list_elem_of_fmap. eauto. }
  rewrite Hm'. f_equal.
  apply mods_dict_of_lookup in Hm' as [Hin Hid].
  by apply (NoDup_ids_inj mods).
Qed.

(** X8. The result does not depend on the order in which [pop] hands
    out the ids: every run of the loop returns the set that
    [get_all_dependencies_efficient] computes, and the deprecated
    [get_all_dependencies] returns it for a single seed whatever
    [visited] is passed. *)
Theorem closure_result_unique (mods : list Mod) (mod_ids r : gset string) :
  may_return mods mod_ids r ->
  get_all_dependencies_efficient mods mod_ids = Some r
  /\ (forall r', may_return mods mod_ids r' -> r' = r)
  /\ (forall i visited, mod_ids = {[i]} ->
                        get_all_dependencies mods i visited = Some r).
Proof.
  intros Hr.
  assert (Huniq : forall r', may_return mods mod_ids r' -> r' = r).
  { intros r' Hr'. apply set_eq. intros y.
    by rewrite (may_return_spec _ _ _ Hr y), (may_return_spec _ _ _ Hr' y). }
  assert (Hexec : get_all_dependencies_efficient mods mod_ids = Some r).
  { destruct (get_all_dependencies_efficient_returns mods mod_ids) as (r' & -> & Hm).
    f_equal. by apply Huniq. }
  split_and!; [done | done |].
  intros i visited ->. exact Hexec.
Qed.

Lemma closure_result_unique_witness :
  may_return Samples.cycle {["A"]} {["A"; "B"; "Z"]}
  /\ get_all_dependencies Samples.cycle "A" None = Some {["A"; "B"; "Z"]}.
Proof.
  assert (H : may_return Samples.cycle {["A"]} {["A"; "B"; "Z"]}).
  { apply get_all_dependencies_efficient_may_return. by vm_compute. }
  split; [exact H|].
  exact (proj2 (proj2 (closure_result_unique _ _ _ H)) "A" None eq_refl).
Defined.

(** X9. The closure of a union of seed sets is the union of the
    closures, so a larger seed set gives a larger result. *)
Theorem closure_union (mods : list Mod) (S T rS rT r : gset string) :
  may_return mods S rS -> may_return mods T rT -> may_return mods (S ∪ T) r ->
  r = rS ∪ rT /\ rS ⊆ r.
Proof.
  intros HS HT Hr.
  assert (Heq : r = rS ∪ rT).
  { apply set_eq. intros y. rewrite elem_of_union.
    rewrite (may_return_spec _ _ _ Hr y), (may_return_spec _ _ _ HS y),
      (may_return_spec _ _ _ HT y).
    unfold transitive_dep. split.
    - intros (s & [Hs|Hs]%elem_of_union & Htc); [left | right]; eauto.
    - intros [(s & Hs & Htc)|(s & Hs & Htc)]; exists s; (split; [set_solver | done]). }
  split; [done | set_solver].
Qed.

Lemma closure_union_witness :
  may_return Samples.diamond {["B"]} {["D"]}
  /\ may_return Samples.diamond {["A"]} {["B"; "C"; "D"]}
  /\ may_return Samples.diamond ({["B"]} ∪ {["A"]}) {["B"; "C"; "D"]}
  /\ ({["B"; "C"; "D"]} : gset string) = {["D"]} ∪ {["B"; "C"; "D"]}.
Proof.
  assert (H1 : may_return Samples.diamond {["B"]} {["D"]}).
  { apply get_all_dependencies_efficient_may_return. by vm_compute. }
  assert (H2 : may_return Samples.diamond {["A"]} {["B"; "C"; "D"]}).
  { apply get_all_dependencies_efficient_may_return. by vm_compute. }
  assert (H3 : may_return Samples.diamond ({["B"]} ∪ {["A"]}) {["B"; "C"; "D"]}).
  { apply get_all_dependencies_efficient_may_return. by vm_compute. }
  split_and!; [exact H1 | exact H2 | exact H3 |].
  exact (proj1 (closure_union _ _ _ _ _ _ H1 H2 H3)).
Defined.

Lemma closure_closed (mods : list Mod) (mod_ids r : gset string) :
  may_return mods mod_ids r ->
  (forall s m, s ∈ mod_ids -> mods_dict_of mods !! s = Some m ->
               forall d, d ∈ deps_of m -> d ∈ r)
  /\ (forall x m, x ∈ r -> mods_dict_of mods !! x = Some m ->
                  forall d, d ∈ deps_of m -> d ∈ r).
Proof.
  intros Hr. pose proof (may_return_spec _ _ _ Hr) as Hspec.
  assert (Hreq : forall x m d, mods_dict_of mods !! x = Some m -> d ∈ deps_of m ->
                               requires (mods_dict_of mods) x d).
  { intros x m d Hx Hd. unfold requires, direct_deps. rewrite Hx.
    by apply elem_of_list_to_set. }
  split.
  - intros s m Hs Hm d Hd. apply Hspec. exists s. split; [done|].
    apply tc_once. by eapply Hreq.
  - intros x m Hx Hm d Hd. apply Hspec. apply Hspec in Hx as (s & Hs & Htc).
    exists s. split; [done|]. eapply tc_r; [done|]. by eapply Hreq.
Qed.

(** X10. What the result holds: the dependency list of every seed that
    has a record, and with an id all that its record lists; only ids
    that some record of the repository lists; nothing at all when no
    seed has a record. *)
Theorem closure_contents (mods : list Mod) (mod_ids r : gset string) :
  may_return mods mod_ids r ->
  (forall s m, s ∈ mod_ids -> mods_dict_of mods !! s = Some m ->
               forall d, d ∈ deps_of m -> d ∈ r)
  /\ (forall x m, x ∈ r -> mods_dict_of mods !! x = Some m ->
                  forall d, d ∈ deps_of m -> d ∈ r)
  /\ r ⊆ listed_deps mods
  /\ ((forall s, s ∈ mod_ids -> s ∉ ids mods) -> r = ∅).
Proof.
  intros Hr. pose proof (may_return_spec _ _ _ Hr) as Hspec.
  destruct (closure_closed _ _ _ Hr) as [Hseed Hstep].
  split_and!; [exact Hseed | exact Hstep | |].
  - intros y (s & Hs & Htc)%Hspec.
    assert (Hlast : exists x, requires (mods_dict_of mods) x y).
    { clear Hs. induction Htc; eauto. }
    destruct Hlast as [x Hx]. by apply (direct_deps_listed mods x).
  - intros Hnone. apply set_eq. intros y. split; [|set_solver].
    intros (s & Hs & Htc)%Hspec. exfalso.
    assert (Hfirst : exists z, requires (mods_dict_of mods) s z).
    { destruct Htc; eauto. }
    destruct Hfirst as [z Hz]. unfold requires, direct_deps in Hz.
    destruct (mods_dict_of mods !! s) as [m|] eqn:E; [|set_solver].
    apply mods_dict_of_lookup in E as [Hin <-].
    apply (Hnone _ Hs). unfold ids. apply list_elem_of_fmap. eauto.
Qed.

Lemma closure_contents_witness :
  may_return Samples.cycle {["A"]} {["A"; "B"; "Z"]}
  /\ "B" ∈ ({["A"; "B"; "Z"]} : gset string).
Proof.
  assert (H : may_return Samples.cycle {["A"]} {["A"; "B"; "Z"]}).
  { apply get_all_dependencies_efficient_may_return. by vm_compute. }
  split; [exact H|].
  refine (proj1 (closure_contents _ _ _ H) "A" (Samples.sample_mod "A" (Some 1%Z) ["B"] true)
            _ _ "B" _).
  - by apply elem_of_singleton.
  - by vm_compute.
  - simpl. left.
Defined.

(** X11. [find_dependents] returns exactly the records that list the
    id. Every id of a closure result has such a record; and in a
    repository without duplicate ids, the closure of a dependent's id
    holds the id it depends on. *)
Theorem find_dependents_spec (mods : list Mod) (x : string) :
  (forall m, m ∈ find_dependents mods x <-> m ∈ mods /\ x ∈ deps_of m)
  /\ (forall mod_ids r, may_return mods mod_ids r -> x ∈ r ->
                        find_dependents mods x <> [])
  /\ (NoDup (ids mods) ->
      forall m r, m ∈ find_dependents mods x ->
                  may_return mods {[mod_id m]} r -> x ∈ r).
Proof.
  assert (Hfd : forall m, m ∈ find_dependents mods x <-> m ∈ mods /\ x ∈ deps_of m).
  { intros m. unfold find_dependents. rewrite list_elem_of_filter. tauto. }
  split_and!; [exact Hfd | |].
  - intros S r Hr Hx.
    apply (may_return_spec _ _ _ Hr) in Hx as (s & Hs & Htc).
    assert (Hlast : exists y, requires (mods_dict_of mods) y x).
    { clear Hs. induction Htc; eauto. }
    destruct Hlast as [y Hy]. unfold requires, direct_deps in Hy.
    destruct (mods_dict_of mods !! y) as [m|] eqn:E; [|set_solver].
    apply mods_dict_of_lookup in E as [Hin _].
    apply elem_of_list_to_set in Hy.
    intros Hnil. assert (Hm : m ∈ find_dependents mods x) by (by apply Hfd).
    rewrite Hnil in Hm. by apply elem_of_nil in Hm.
  - intros Hnd m r [Hm Hx]%Hfd Hr.
    apply (proj1 (closure_closed _ _ _ Hr) (mod_id m) m); [set_solver | | done].
    by apply mods_dict_of_NoDup.
Qed.

Lemma find_dependents_spec_witness :
  NoDup (ids Samples.diamond)
  /\ Samples.sample_mod "B" (Some 1%Z) ["D"] true ∈ find_dependents Samples.diamond "D"
  /\ may_return Samples.diamond {["B"]} {["D"]}
  /\ "D" ∈ ({["D"]} : gset string).
Proof.
  assert (Hnd : NoDup (ids Samples.diamond)).
  { apply (bool_decide_unpack _). by vm_compute. }
  assert (Hb : Samples.sample_mod "B" (Some 1%Z) ["D"] true
               ∈ find_dependents Samples.diamond "D").
  { apply (bool_decide_unpack _). by vm_compute. }
  assert (Hr : may_return Samples.diamond {["B"]} {["D"]}).
  { apply get_all_dependencies_efficient_may_return. by vm_compute. }
  split_and!; [exact Hnd | exact Hb | exact Hr |].
  exact (proj2 (proj2 (find_dependents_spec Samples.diamond "D")) Hnd _ _ Hb Hr).
Defined.

End ClosureContents.

(** ** The shape of the hierarchy *)

Section HierarchyShape.
Import ModManager.

Lemma nested_snoc out m lvl :
  nested out -> parent_emitted out m lvl -> nested (out ++ [(m, lvl)]).
Proof.
  intros Hn Hp k m' lvl' Hk.
  destruct (decide (k < length out)) as [Hlt|Hge].
  - rewrite lookup_app_l in Hk by done.
    destruct (Hn _ _ _ Hk) as (j & p & Hj & Hjp & Hin).
    exists j, p. split_and!; [done | | done].
    rewrite lookup_app_l by lia. done.
  - rewrite lookup_app_r in Hk by lia.
    destruct (k - length out) as [|n] eqn:E; simpl in Hk; [|by destruct n].
    injection Hk as -> ->. simpl in Hp.
    destruct Hp as (j & p & Hjp & Hin).
    exists j, p. apply lookup_lt_Some in Hjp as Hj.
    split_and!; [lia | | done].
    by rewrite lookup_app_l.
Qed.

Lemma grows_nested_refl st : grows_nested st st.
Proof. by split. Qed.

Lemma grows_nested_trans a b c :
  grows_nested a b -> grows_nested b c -> grows_nested a c.
Proof. intros [H1 H2] [H3 H4]. split; [by etrans | auto]. Qed.

Lemma add_mod_with_dependencies_nested mods bl frames :
  forall m lvl v st st',
    add_mod_with_dependencies bl frames (mods_dict_of mods) m lvl v st = Some st' ->
    parent_emitted (hierarchical_list st) m lvl ->
    grows_nested st st'.
Proof.
  induction frames as [|frames IH]; intros m lvl v st st'; simpl; [done|].
  case_decide as Hc.
  - intros [= <-] _. apply grows_nested_refl.
  - destruct (frames <? bl)%nat; [done|]. intros Hfold Hparent.
    set (st1 := mkWalk (hierarchical_list st ++ [(m, lvl)])
                  ({[mod_id m]} ∪ processed_mods st)) in *.
    assert (H01 : grows_nested st st1).
    { split; simpl; [by apply prefix_app_r | intros Hn; by apply nested_snoc]. }
    apply (grows_nested_trans _ st1); [done|].
    assert (Hgoal : hierarchical_list st1 `prefix_of` hierarchical_list st1 ->
                    grows_nested st1 st'); [|by apply Hgoal].
    revert Hfold.
    apply (foldl_option_rel
             (fun a a' => hierarchical_list st1 `prefix_of` hierarchical_list a ->
                          hierarchical_list st1 `prefix_of` hierarchical_list a'
                          /\ grows_nested a a')).
    + intros a Ha. split; [done | apply grows_nested_refl].
    + intros a b c Hab Hbc Ha. destruct (Hab Ha) as [Hb Hgab].
      destruct (Hbc Hb) as [Hc' Hgbc]. split; [done | by eapply grows_nested_trans].
    + done.
    + intros a x a' Hx Hcall Ha.
      destruct (mods_dict_of mods !! x) as [dm|] eqn:E.
      * case_decide.
        -- injection Hcall as <-. split; [done | apply grows_nested_refl].
        -- assert (Hg : grows_nested a a').
           { apply (IH _ _ _ _ _ Hcall). simpl.
             exists (length (hierarchical_list st)), m. split.
             - eapply prefix_lookup_Some; [|exact Ha].
               unfold st1. simpl. by apply list_lookup_middle.
             - apply mods_dict_of_lookup in E as [_ ->]. done. }
           split; [|done]. destruct Hg as [Hg _]. by etrans.
      * injection Hcall as <-. split; [done | apply grows_nested_refl].
Qed.

Lemma walk_roots_nested mods bl frames roots st st' :
  walk_roots bl frames (mods_dict_of mods) roots st = Some st' -> grows_nested st st'.
Proof.
  unfold walk_roots. apply (foldl_option_rel grows_nested).
  - apply grows_nested_refl.
  - apply grows_nested_trans.
  - done.
  - intros a x a' _ Hcall.
    by apply (add_mod_with_dependencies_nested _ _ _ _ _ _ _ _ Hcall).
Qed.

Lemma walk_rest_nested mods bl frames rest st st' :
  walk_rest bl frames (mods_dict_of mods) rest st = Some st' -> grows_nested st st'.
Proof.
  unfold walk_rest. apply (foldl_option_rel grows_nested).
  - apply grows_nested_refl.
  - apply grows_nested_trans.
  - done.
  - intros a x a' _. case_decide.
    + intros [= <-]. apply grows_nested_refl.
    + intros Hcall.
      by apply (add_mod_with_dependencies_nested _ _ _ _ _ _ _ _ Hcall).
Qed.

(** X12. In the list that [build_hierarchical_list] returns, every entry
    at depth [n+1] comes after an entry at depth [n] whose record lists
    it as a dependency; so the first entry is at depth 0 and no entry is
    deeper than its position in the list. *)
Theorem build_hierarchical_list_nested (builtin_levels frames : nat)
  (mods : list Mod) (out : list (Mod * nat)) :
  build_hierarchical_list builtin_levels frames mods = Some out ->
  (forall k m lvl,
      out !! k = Some (m, S lvl) ->
      exists j p, j < k /\ out !! j = Some (p, lvl) /\ mod_id m ∈ deps_of p)
  /\ (forall m lvl, head out = Some (m, lvl) -> lvl = 0)
  /\ (forall k m lvl, out !! k = Some (m, lvl) -> lvl <= k).
Proof.
  unfold build_hierarchical_list.
  destruct (walk_roots _ _ _ _ _) as [st1|] eqn:E1; [|done].
  destruct (walk_rest _ _ _ _ _) as [st2|] eqn:E2; [|done].
  intros [= <-].
  apply walk_roots_nested in E1 as [_ H1].
  apply walk_rest_nested in E2 as [_ H2].
  assert (Hn : nested (hierarchical_list st2)).
  { apply H2, H1. intros k m lvl Hk. simpl in Hk. by destruct k. }
  split_and!.
  - exact Hn.
  - intros m lvl Hhead. destruct lvl as [|lvl]; [done|].
    rewrite head_lookup in Hhead.
    destruct (Hn _ _ _ Hhead) as (j & _ & Hj & _). lia.
  - intros k m lvl. revert k m.
    induction lvl as [|lvl IH]; intros k m Hk; [lia|].
    destruct (Hn _ _ _ Hk) as (j & p & Hj & Hjp & _).
    specialize (IH _ _ Hjp). lia.
Qed.

Lemma build_hierarchical_list_nested_witness :
  exists out, build_hierarchical_list 1 4 Samples.diamond = Some out
              /\ forall k m lvl, out !! k = Some (m, lvl) -> lvl <= k.
Proof.
  eexists. split; [by vm_compute|].
  refine (proj2 (proj2 (build_hierarchical_list_nested 1 4 Samples.diamond _ _))).
  by vm_compute.
Defined.

End HierarchyShape.

(** ** The filtered view *)

Section FilteredView.
Import ModManager Main.

Lemma foldl_option_total {A B} (R : A -> A -> Prop)
  (f : option A -> B -> option A) (l : list B) :
  (forall a, R a a) ->
  (forall a b c, R a b -> R b c -> R a c) ->
  forall a0,
    (forall a x, x ∈ l -> R a0 a -> exists a', f (Some a) x = Some a' /\ R a a') ->
    exists a', foldl f (Some a0) l = Some a' /\ R a0 a'.
Proof.
  intros Hrefl Htrans. induction l as [|x l IH]; intros a0 Hf; simpl.
  - eauto.
  - destruct (Hf a0 x) as (a1 & -> & H01); [by left | done |].
    destruct (IH a1) as (a' & Ha' & H1').
    { intros a y Hy Ha. apply Hf; [by right | by eapply Htrans]. }
    exists a'. split; [done | by eapply Htrans].
Qed.

Lemma filtered_extends_refl all_mods filtered_mods st :
  filtered_extends all_mods filtered_mods st st.
Proof. by split. Qed.

Lemma filtered_extends_trans all_mods filtered_mods a b c :
  filtered_extends all_mods filtered_mods a b ->
  filtered_extends all_mods filtered_mods b c ->
  filtered_extends all_mods filtered_mods a c.
Proof. intros [H1 H2] [H3 H4]. split; [set_solver | auto]. Qed.

Lemma add_filtered_spec all_mods filtered_mods bl frames :
  forall m lvl st,
    m ∈ (all_mods ++ filtered_mods)%list ->
    mod_id m ∈ filtered_ids filtered_mods ->
    size (filtered_ids filtered_mods ∖ processed_mods st) + bl `max` 1 <= frames ->
    exists st',
      add_filtered bl frames (mods_dict_of all_mods) (filtered_ids filtered_mods)
        m lvl st = Some st'
      /\ filtered_extends all_mods filtered_mods st st'
      /\ mod_id m ∈ processed_mods st'.
Proof.
  induction frames as [|frames IH]; intros m lvl st Hm Hid Hsize; [lia|].
  simpl. case_decide as Hc.
  - exists st. split_and!; [done | apply filtered_extends_refl | done].
  - assert (Hpos : 1 <= size (filtered_ids filtered_mods ∖ processed_mods st)).
    { assert (H : ({[mod_id m]} : gset string)
                  ⊆ filtered_ids filtered_mods ∖ processed_mods st) by set_solver.
      apply subseteq_size in H. by rewrite size_singleton in H. }
    destruct (Nat.ltb_spec frames bl) as [?|_]; [lia|].
    set (st1 := mkWalk (hierarchical_list st ++ [(m, lvl)])
                  ({[mod_id m]} ∪ processed_mods st)) in *.
    assert (H01 : filtered_extends all_mods filtered_mods st st1).
    { split; [set_solver|]. intros [(Hnd & Hproc & Hin) Hsub].
      unfold filtered_ok, walk_ok, st1. simpl. rewrite emitted_ids_snoc.
      split_and!.
      - apply NoDup_app. split_and!; [done | | apply NoDup_singleton].
        intros i Hi. rewrite <- Hproc in Hi. set_solver.
      - intros i. rewrite elem_of_app, <- Hproc. set_solver.
      - intros e [He|He]%elem_of_app; [by apply Hin|].
        apply list_elem_of_singleton in He as ->. done.
      - set_solver. }
    assert (Hsize1 : size (filtered_ids filtered_mods ∖ processed_mods st1)
                     + bl `max` 1 <= frames).
    { assert (Hsub : filtered_ids filtered_mods ∖ processed_mods st1
                     ⊂ filtered_ids filtered_mods ∖ processed_mods st)
        by (unfold st1; simpl; set_solver).
      apply subset_size in Hsub. lia. }
    match goal with |- context [foldl ?f _ _] => set (f0 := f) end.
    destruct (foldl_option_total (filtered_extends all_mods filtered_mods) f0
                (deps_of m) (filtered_extends_refl _ _)
                (filtered_extends_trans _ _) st1) as (st' & Hst' & H1').
    { intros a x _ [Hmono _]. unfold f0.
      case_decide as Hx; [|eexists; split; [done | apply filtered_extends_refl]].
      destruct (mods_dict_of all_mods !! x) as [dm|] eqn:E;
        [|eexists; split; [done | apply filtered_extends_refl]].
      apply mods_dict_of_lookup in E as [Hin Hdm].
      destruct (IH dm (S lvl) a) as (a' & Ha' & Hext & _).
      - apply elem_of_app. by left.
      - by rewrite Hdm.
      - assert (Hsub : filtered_ids filtered_mods ∖ processed_mods a
                       ⊆ filtered_ids filtered_mods ∖ processed_mods st1)
          by set_solver.
        apply subseteq_size in Hsub. lia.
      - eauto. }
    exists st'. split_and!; [done | by eapply filtered_extends_trans |].
    destruct H1' as [Hmono _]. apply Hmono. unfold st1. simpl. set_solver.
Qed.

Lemma filtered_walk_spec all_mods filtered_mods bl frames skip todo :
  size (filtered_ids filtered_mods) + bl `max` 1 <= frames ->
  (forall m, m ∈ todo -> m ∈ filtered_mods) ->
  forall st,
  exists st',
    filtered_walk bl frames (mods_dict_of all_mods)
      (filtered_ids filtered_mods) skip todo st = Some st'
    /\ filtered_extends all_mods filtered_mods st st'
    /\ (forall m, m ∈ todo -> mod_id m ∈ processed_mods st').
Proof.
  intros Hframes. unfold filtered_walk.
  induction todo as [|m todo IH]; intros Hsub st; cbn [foldl].
  - exists st. split_and!; [done | apply filtered_extends_refl | set_solver].
  - assert (Hm : m ∈ filtered_mods) by (apply Hsub; by left).
    assert (H1 : exists st1,
               (if skip && bool_decide (mod_id m ∈ processed_mods st) then Some st
                else add_filtered bl frames
                       (mods_dict_of all_mods) (filtered_ids filtered_mods) m 0 st)
               = Some st1
               /\ filtered_extends all_mods filtered_mods st st1
               /\ mod_id m ∈ processed_mods st1).
    { destruct (skip && bool_decide (mod_id m ∈ processed_mods st)) eqn:E.
      - apply andb_true_iff in E as [_ E%bool_decide_eq_true].
        exists st. split_and!; [done | apply filtered_extends_refl | done].
      - apply add_filtered_spec.
        + apply elem_of_app. by right.
        + unfold filtered_ids, ids. apply elem_of_list_to_set, list_elem_of_fmap. eauto.
        + assert (H : filtered_ids filtered_mods ∖ processed_mods st
                      ⊆ filtered_ids filtered_mods) by set_solver.
          apply subseteq_size in H. lia. }
    destruct H1 as (st1 & -> & H01 & Hin1).
    destruct (IH (fun x Hx => Hsub x (list_elem_of_further _ _ _ Hx)) st1)
      as (st' & Hst' & H1' & Hcov).
    exists st'. split_and!; [done | by eapply filtered_extends_trans |].
    intros x [->|Hx]%elem_of_cons; [|by apply Hcov].
    destruct H1' as [Hmono _]. by apply Hmono.
Qed.

(** With enough levels free the filtered walk returns, and
    this is what it returns. *)
Lemma filtered_walk_result (bl frames : nat) (all_mods filtered_mods : list Mod) :
  size (filtered_ids filtered_mods) + bl `max` 1 <= frames ->
  exists out,
    _build_filtered_hierarchical_list bl frames all_mods filtered_mods = Some out
    /\ NoDup (emitted_ids out)
    /\ (forall i, i ∈ emitted_ids out <-> i ∈ ids filtered_mods)
    /\ (forall e, e ∈ out -> e.1 ∈ all_mods \/ e.1 ∈ filtered_mods).
Proof.
  intros Hframes. unfold _build_filtered_hierarchical_list.
  destruct (filtered_walk_spec all_mods filtered_mods bl frames false
              (root_mods filtered_mods) Hframes
              (root_mods_subset filtered_mods) (mkWalk [] ∅))
    as (st1 & -> & [_ Hok1] & _).
  destruct (filtered_walk_spec all_mods filtered_mods bl frames true filtered_mods
              Hframes (fun m Hm => Hm) st1) as (st2 & -> & [_ Hok2] & Hcov).
  exists (hierarchical_list st2).
  destruct (Hok2 (Hok1 (conj (walk_ok_start _) (empty_subseteq _))))
    as [(Hnd & Hproc & Hin) Hsub].
  split_and!; [done | done | |].
  - intros i. split.
    + intros Hi%Hproc%Hsub. unfold filtered_ids in Hi.
      by apply elem_of_list_to_set in Hi.
    + unfold ids. intros (m & -> & Hm)%list_elem_of_fmap.
      apply Hproc. by apply Hcov.
  - intros e He. apply elem_of_app. by apply Hin.
Qed.

(** *** A walk that returns does the same with more levels free *)

Lemma foldl_option_mono {A B} (f g : option A -> B -> option A) (l : list B) :
  (forall x, f None x = None) ->
  (forall a x a', x ∈ l -> f (Some a) x = Some a' -> g (Some a) x = Some a') ->
  forall a a', foldl f (Some a) l = Some a' -> foldl g (Some a) l = Some a'.
Proof.
  intros Hnone. induction l as [|x l IH]; intros Hfg a a'; simpl; [done|].
  destruct (f (Some a) x) as [a1|] eqn:E; [|by rewrite foldl_option_None].
  rewrite (Hfg a x a1); [|by left | done].
  apply IH. intros b y b' Hy. apply Hfg. by right.
Qed.

Lemma add_filtered_mono d fids bl frames :
  forall frames' m lvl st st',
    frames <= frames' ->
    add_filtered bl frames d fids m lvl st = Some st' ->
    add_filtered bl frames' d fids m lvl st = Some st'.
Proof.
  induction frames as [|frames IH]; intros frames' m lvl st st' Hle; [done|].
  destruct frames' as [|frames']; [lia|]. simpl.
  case_decide; [done|].
  destruct (Nat.ltb_spec frames bl) as [?|Hge]; [done|].
  destruct (Nat.ltb_spec frames' bl) as [?|_]; [lia|].
  apply foldl_option_mono; [done|].
  intros a x a' _. case_decide; [|done].
  destruct (d !! x) as [dm|]; [|done].
  apply IH. lia.
Qed.

Lemma filtered_walk_mono d fids bl frames frames' skip todo st st' :
  frames <= frames' ->
  filtered_walk bl frames d fids skip todo st = Some st' ->
  filtered_walk bl frames' d fids skip todo st = Some st'.
Proof.
  intros Hle. unfold filtered_walk. apply foldl_option_mono; [done|].
  intros a x a' _.
  destruct (skip && bool_decide (mod_id x ∈ processed_mods a)); [done|].
  by apply add_filtered_mono.
Qed.

Lemma build_filtered_mono bl frames frames' all_mods filtered_mods out :
  frames <= frames' ->
  _build_filtered_hierarchical_list bl frames all_mods filtered_mods = Some out ->
  _build_filtered_hierarchical_list bl frames' all_mods filtered_mods = Some out.
Proof.
  intros Hle. unfold _build_filtered_hierarchical_list.
  destruct (filtered_walk bl frames _ _ false _ _) as [st1|] eqn:E1; [|done].
  rewrite (filtered_walk_mono _ _ _ _ _ _ _ _ _ Hle E1).
  destruct (filtered_walk bl frames _ _ true _ _) as [st2|] eqn:E2; [|done].
  by rewrite (filtered_walk_mono _ _ _ _ _ _ _ _ _ Hle E2).
Qed.

(** What a returned view holds, however many levels were free. *)
Lemma filtered_view_holds bl frames all_mods filtered_mods out :
  _build_filtered_hierarchical_list bl frames all_mods filtered_mods = Some out ->
  NoDup (emitted_ids out)
  /\ (forall i, i ∈ emitted_ids out <-> i ∈ ids filtered_mods)
  /\ (forall e, e ∈ out -> e.1 ∈ all_mods \/ e.1 ∈ filtered_mods).
Proof.
  intros Hout.
  set (big := frames `max` (size (filtered_ids filtered_mods) + bl `max` 1)).
  destruct (filtered_walk_result bl big all_mods filtered_mods)
    as (out' & Hout' & H); [unfold big; lia|].
  apply (build_filtered_mono bl frames big) in Hout; [|unfold big; lia].
  rewrite Hout in Hout'. by injection Hout' as <-.
Qed.

(** X13. [_build_filtered_hierarchical_list] has no per-path set: the
    shared [processed_mods] alone stops it, and it calls itself also for
    a dependency that is processed. Its recursion is never deeper than
    the number of filtered ids plus one, cycles included: it returns
    whenever that many levels are free (and, where a built-in call takes
    more than one level, as many as its deepest body needs). A view that
    it returns carries no id twice, the ids in it are exactly the ids of
    the filtered records, and each entry is a filtered record or a
    record of the repository. So the view never has more rows than there
    are filtered records, and exactly as many when their ids are
    distinct. *)
Theorem build_filtered_hierarchical_list_spec (builtin_levels frames : nat)
  (all_mods filtered_mods : list Mod) :
  (size (filtered_ids filtered_mods) + builtin_levels `max` 1 <= frames ->
   is_Some (_build_filtered_hierarchical_list builtin_levels frames
              all_mods filtered_mods))
  /\ (forall out,
        _build_filtered_hierarchical_list builtin_levels frames
          all_mods filtered_mods = Some out ->
        NoDup (emitted_ids out)
        /\ (forall i, i ∈ emitted_ids out <-> i ∈ ids filtered_mods)
        /\ (forall e, e ∈ out -> e.1 ∈ all_mods \/ e.1 ∈ filtered_mods)
        /\ length out <= length filtered_mods
        /\ (NoDup (ids filtered_mods) -> length out = length filtered_mods)).
Proof.
  split.
  - intros Hframes.
    destruct (filtered_walk_result builtin_levels frames all_mods filtered_mods
                Hframes) as (out & -> & _). eauto.
  - intros out Hout.
    destruct (filtered_view_holds _ _ _ _ _ Hout) as (Hnd & Hids & Hin).
    split_and!; [done | done | done | |].
    + assert (Hsub : emitted_ids out ⊆+ ids filtered_mods).
      { apply NoDup_submseteq; [done|]. intros i. apply Hids. }
      apply submseteq_length in Hsub. unfold emitted_ids, ids in Hsub.
      by rewrite !length_map in Hsub.
    + intros Hndf.
      assert (H1 : emitted_ids out ⊆+ ids filtered_mods).
      { apply NoDup_submseteq; [done|]. intros i. apply Hids. }
      assert (H2 : ids filtered_mods ⊆+ emitted_ids out).
      { apply NoDup_submseteq; [done|]. intros i. apply Hids. }
      apply submseteq_length in H1, H2. unfold emitted_ids, ids in H1, H2.
      rewrite !length_map in H1, H2. lia.
Qed.

Lemma build_filtered_hierarchical_list_spec_witness :
  size (filtered_ids Samples.cycle) + 1 `max` 1 <= 3
  /\ exists out,
       _build_filtered_hierarchical_list 1 3 Samples.cycle Samples.cycle = Some out
       /\ emitted_ids out = ["A"; "B"]
       /\ NoDup (emitted_ids out).
Proof.
  assert (Hsize : size (filtered_ids Samples.cycle) + 1 `max` 1 <= 3).
  { apply (bool_decide_unpack _). by vm_compute. }
  split; [exact Hsize|].
  destruct (build_filtered_hierarchical_list_spec 1 3 Samples.cycle Samples.cycle)
    as [Hret Hholds].
  destruct (Hret Hsize) as [out Hout].
  exists out. split; [exact Hout|].
  split; [|exact (proj1 (Hholds out Hout))].
  assert (H : _build_filtered_hierarchical_list 1 3 Samples.cycle Samples.cycle
              = Some [(Samples.sample_mod "A" (Some 1%Z) ["B"] true, 0);
                      (Samples.sample_mod "B" (Some 1%Z) ["A"; "Z"] true, 1)])
    by (by vm_compute).
  rewrite H in Hout. by injection Hout as <-.
Defined.

(** Two filtered records that list each other: the second call for A
    comes from B, three calls deep, and with two levels free the view is
    not built, however built-in calls are counted. *)
Example filtered_cycle_raises :
  _build_filtered_hierarchical_list 0 2 Samples.cycle Samples.cycle = None
  /\ _build_filtered_hierarchical_list 1 2 Samples.cycle Samples.cycle = None.
Proof. by vm_compute. Qed.

End FilteredView.

(** ** The filter *)

Section FilterProperties.
Import ModManager Main.

Lemma is_space_lower c : is_space (lower c) = is_space c.
Proof. destruct c as [[] [] [] [] [] [] [] []]; reflexivity. Qed.

Lemma list_ascii_lower_str s :
  list_ascii_of_string (lower_str s) = map lower (list_ascii_of_string s).
Proof. induction s as [|c s IH]; simpl; [done | by rewrite IH]. Qed.

Lemma lstrip_spaces l : forallb is_space l = true -> lstrip l = [].
Proof.
  induction l as [|c l IH]; simpl; [done|].
  intros [-> Hl]%andb_true_iff. by apply IH.
Qed.

Lemma strip_blank entry :
  forallb is_space (list_ascii_of_string entry) = true ->
  strip (lower_str entry) = "".
Proof.
  intros Hblank. unfold strip. rewrite list_ascii_lower_str.
  assert (Hin : lstrip (map lower (list_ascii_of_string entry)) = []).
  { apply lstrip_spaces.
    rewrite forallb_forall in *. intros c (c0 & <- & Hc0)%in_map_iff.
    rewrite is_space_lower. by apply Hblank. }
  by rewrite Hin.
Qed.

Lemma filter_all {A} (f : A -> bool) (l : list A) :
  (forall x, f x = true) -> List.filter f l = l.
Proof.
  intros Hf. induction l as [|x l IH]; simpl; [done|]. by rewrite Hf, IH.
Qed.

Lemma filter_none {A} (f : A -> bool) (l : list A) :
  (forall x, f x = false) -> List.filter f l = [].
Proof.
  intros Hf. induction l as [|x l IH]; simpl; [done|]. by rewrite Hf.
Qed.

Lemma filter_sublist {A} (f : A -> bool) (l : list A) :
  List.filter f l `sublist_of` l.
Proof.
  induction l as [|x l IH]; simpl; [done|].
  destruct (f x); [by apply sublist_skip | by apply sublist_cons].
Qed.

Lemma filtered_ids_size (l : list Mod) : size (filtered_ids l) <= length l.
Proof.
  unfold filtered_ids, ids. induction l as [|m l IH].
  - change (size (∅ : gset string) <= 0). by rewrite size_empty.
  - change (size ({[mod_id m]} ∪ list_to_set (map mod_id l) : gset string)
            <= S (length l)).
    rewrite size_union_alt, size_singleton.
    assert (H : (list_to_set (map mod_id l) : gset string) ∖ {[mod_id m]}
                ⊆ list_to_set (map mod_id l)) by set_solver.
    apply subseteq_size in H. lia.
Qed.

(** X14. [_apply_filter] keeps a sub-sequence of the repository, in
    order. A record is shown only if the box for its kind is ticked;
    with both boxes unticked nothing is shown, and with both ticked and a
    blank entry (the state after [_clear_filter]) every record is shown.
    When one more level is free than the repository has records (or
    those of a built-in call more, if that is more than one), the
    filtered view is built from its result, whatever the filter; and a
    view that is built lists exactly the ids of the records it kept,
    each once. *)
Theorem apply_filter_spec (all_mods : list Mod) (entry : string)
  (show_main show_deps : bool) :
  _apply_filter all_mods entry show_main show_deps `sublist_of` all_mods
  /\ (forall m, m ∈ _apply_filter all_mods entry show_main show_deps ->
        m ∈ all_mods
        /\ (if is_dependency m then show_deps = true else show_main = true))
  /\ _apply_filter all_mods entry false false = []
  /\ (forallb is_space (list_ascii_of_string entry) = true ->
      _apply_filter all_mods entry true true = all_mods)
  /\ (forall builtin_levels frames,
        (length all_mods + builtin_levels `max` 1 <= frames ->
         is_Some (_build_filtered_hierarchical_list builtin_levels frames all_mods
                    (_apply_filter all_mods entry show_main show_deps)))
        /\ (forall out,
              _build_filtered_hierarchical_list builtin_levels frames all_mods
                (_apply_filter all_mods entry show_main show_deps) = Some out ->
              NoDup (emitted_ids out)
              /\ forall i, i ∈ emitted_ids out
                           <-> i ∈ ids (_apply_filter all_mods entry
                                          show_main show_deps))).
Proof.
  split_and!.
  - apply filter_sublist.
  - intros m Hm. unfold _apply_filter in Hm.
    apply list_elem_of_In, filter_In in Hm as [Hin Hp].
    split; [by apply list_elem_of_In|].
    unfold passes_filter in Hp.
    destruct (is_dependency m), show_deps, show_main; simpl in Hp; done.
  - unfold _apply_filter. apply filter_none. intros m. unfold passes_filter.
    by destruct (is_dependency m).
  - intros Hblank. unfold _apply_filter. apply filter_all. intros m.
    rewrite (strip_blank _ Hblank). unfold passes_filter.
    by destruct (is_dependency m).
  - intros builtin_levels frames. split.
    + intros Hframes.
      destruct (filtered_walk_result builtin_levels frames all_mods
                  (_apply_filter all_mods entry show_main show_deps))
        as (out & -> & _); [|eauto].
      pose proof (filtered_ids_size
                    (_apply_filter all_mods entry show_main show_deps)) as H1.
      pose proof (sublist_length _ _
                    (filter_sublist (passes_filter (strip (lower_str entry))
                                       show_main show_deps) all_mods)) as H2.
      unfold _apply_filter in *. lia.
    + intros out Hout.
      destruct (filtered_view_holds _ _ _ _ _ Hout) as (Hnd & Hids & _). done.
Qed.

Lemma apply_filter_spec_witness :
  forallb is_space (list_ascii_of_string "  ") = true
  /\ _apply_filter Samples.diamond "  " true true = Samples.diamond.
Proof.
  split; [reflexivity|].
  exact (proj1 (proj2 (proj2 (proj2
           (apply_filter_spec Samples.diamond "  " true true)))) eq_refl).
Defined.

Example filter_by_text :
  ids (_apply_filter Samples.diamond " ID=c " true true) = ["C"]
  /\ ids (_apply_filter Samples.diamond "mod" true false) = ["A"].
Proof. split; reflexivity. Qed.

End FilterProperties.

(** ** Registering discovered dependencies *)

Section Registering.
Import ModManager Main.

Lemma update_first_flag_same i b mods e :
  get_mod_by_id mods i = Some e -> is_dependency e = b ->
  update_first i (set_is_dependency b) mods = mods.
Proof.
  unfold get_mod_by_id. induction mods as [|m ms IH]; simpl; [done|].
  destruct (has_id i m) eqn:E.
  - intros [= ->] <-. by rewrite set_is_dependency_same.
  - intros He Hb. by rewrite IH.
Qed.

Lemma register_dependency_present mods d e :
  get_mod_by_id mods d = Some e ->
  register_dependency mods d
  = (update_first d (set_is_dependency true) mods, false).
Proof.
  intros He. unfold register_dependency, mark_as_dependency. rewrite He.
  destruct (is_dependency e) eqn:Ed; simpl.
  - unfold add_mod_by_id. rewrite He, Ed. simpl.
    by rewrite (update_first_flag_same d true mods e).
  - unfold add_mod_by_id.
    by rewrite (get_update_first _ _ _ _ He).
Qed.

Lemma register_dependency_absent mods d :
  get_mod_by_id mods d = None ->
  register_dependency mods d = ((mods ++ [placeholder d true])%list, true).
Proof.
  intros He. unfold register_dependency. rewrite He.
  unfold add_mod_by_id. by rewrite He.
Qed.

Lemma get_mod_by_id_app_Some mods extra j e :
  get_mod_by_id mods j = Some e -> get_mod_by_id (mods ++ extra) j = Some e.
Proof.
  unfold get_mod_by_id. induction mods as [|m ms IH]; simpl; [done|].
  destruct (has_id j m); [done | apply IH].
Qed.

Lemma get_mod_by_id_app_other mods m j :
  mod_id m <> j -> get_mod_by_id (mods ++ [m]) j = get_mod_by_id mods j.
Proof.
  intros Hne. unfold get_mod_by_id. induction mods as [|x xs IH]; simpl.
  - assert (has_id j m = false) as ->; [|done].
    apply not_true_iff_false. by rewrite has_id_true.
  - by rewrite IH.
Qed.

(** One turn of the loop. *)
Lemma register_dependency_spec mods d :
  ids (register_dependency mods d).1
  = (ids mods ++ (if (register_dependency mods d).2 then [d] else []))%list
  /\ ((register_dependency mods d).2 = true <-> d ∉ ids mods)
  /\ is_dependency <$> get_mod_by_id (register_dependency mods d).1 d = Some true
  /\ (forall j, j <> d ->
        get_mod_by_id (register_dependency mods d).1 j = get_mod_by_id mods j)
  /\ (forall j, is_dependency <$> get_mod_by_id mods j = Some true ->
        is_dependency <$> get_mod_by_id (register_dependency mods d).1 j = Some true).
Proof.
  destruct (get_mod_by_id mods d) as [e|] eqn:He.
  - rewrite (register_dependency_present _ _ _ He). simpl.
    assert (Hin : d ∈ ids mods).
    { destruct (decide (d ∈ ids mods)) as [?|Hn]; [done|].
      apply get_mod_by_id_None in Hn. congruence. }
    split_and!.
    + by rewrite ids_update_first, app_nil_r.
    + by split.
    + by rewrite (get_update_first _ _ _ _ He).
    + intros j Hne. by apply get_update_first_other.
    + intros j Hj. destruct (decide (d = j)) as [<-|Hne].
      * by rewrite (get_update_first _ _ _ _ He).
      * by rewrite get_update_first_other.
  - rewrite (register_dependency_absent _ _ He). simpl.
    apply get_mod_by_id_None in He as Hn.
    split_and!.
    + unfold ids. by rewrite map_app.
    + by split.
    + by rewrite (get_app_new _ _ _ He).
    + intros j Hne. by apply get_mod_by_id_app_other.
    + intros j Hj. destruct (get_mod_by_id mods j) as [x|] eqn:Ej; [|done].
      by rewrite (get_mod_by_id_app_Some _ _ _ _ Ej).
Qed.

Lemma register_dependencies_snoc mods ds d :
  register_dependencies mods (ds ++ [d])
  = let acc := register_dependencies mods ds in
    let r := register_dependency acc.1 d in
    (r.1, if r.2 then (acc.2 ++ [d])%list else acc.2).
Proof. unfold register_dependencies. by rewrite foldl_app. Qed.

(** X15. The dependency loop of [_fetch_info_worker], over the ids it
    handles: afterwards every handled id has a record and that record is
    flagged as a dependency, also when the user had added it as a main
    mod. New records are appended for exactly the ids that had none, a
    fetch is started for those and for no other id, each once; ids stay
    unique, and records of ids that were not handled read as before. *)
Theorem register_dependencies_spec (mods : list Mod) (dependency_ids : list string) :
  let r := register_dependencies mods dependency_ids in
  ids r.1 = (ids mods ++ r.2)%list
  /\ (forall d, d ∈ dependency_ids ->
        is_dependency <$> get_mod_by_id r.1 d = Some true)
  /\ (forall d, d ∈ r.2 <-> d ∈ dependency_ids /\ d ∉ ids mods)
  /\ NoDup r.2
  /\ (NoDup (ids mods) -> NoDup (ids r.1))
  /\ (forall j, j ∉ dependency_ids -> get_mod_by_id r.1 j = get_mod_by_id mods j).
Proof.
  induction dependency_ids as [|d ds IH] using rev_ind.
  - simpl. split_and!; try done.
    + by rewrite app_nil_r.
    + intros d Hd. by apply elem_of_nil in Hd.
    + intros d. split; [by intros ?%elem_of_nil | by intros [?%elem_of_nil _]].
    + apply NoDup_nil_2.
  - cbv zeta in *. rewrite register_dependencies_snoc. cbv zeta.
    destruct IH as (Hids & Hflag & Hsched & Hnd & Hkeep & Hother).
    set (acc := register_dependencies mods ds) in *.
    destruct (register_dependency_spec acc.1 d) as (Sids & Snew & Sflag & Sother & Skeep).
    assert (Hnew : (register_dependency acc.1 d).2 = true
                   <-> (d ∉ ids mods) /\ (d ∉ ds)).
    { rewrite Snew, Hids, not_elem_of_app, Hsched. tauto. }
    cbn [fst snd]. split_and!.
    + rewrite Sids, Hids. destruct (register_dependency acc.1 d).2;
        by rewrite ?app_nil_r, ?app_assoc.
    + intros x [Hx|Hx]%elem_of_app.
      * apply Skeep. by apply Hflag.
      * apply list_elem_of_singleton in Hx as ->. done.
    + intros x. destruct (register_dependency acc.1 d).2 eqn:E.
      * destruct (proj1 Hnew eq_refl) as [E1 E2].
        rewrite !elem_of_app, Hsched, !list_elem_of_singleton.
        split; [intros [[? ?]| ->]; tauto | intros [[?| ->] ?]; tauto].
      * rewrite Hsched, elem_of_app, list_elem_of_singleton.
        split; [tauto|]. intros [[?| ->] Hn]; [done|].
        destruct (decide (d ∈ ds)) as [?|Hds]; [done|].
        by pose proof (proj2 Hnew (conj Hn Hds)).
    + destruct (register_dependency acc.1 d).2 eqn:E; [|done].
      destruct (proj1 Hnew eq_refl) as [E1 E2].
      apply NoDup_app. split_and!; [done | | apply NoDup_singleton].
      intros x Hx ->%list_elem_of_singleton. apply Hsched in Hx as [? ?]. done.
    + intros Hm. rewrite Sids. specialize (Hkeep Hm).
      destruct (register_dependency acc.1 d).2 eqn:E; [|by rewrite app_nil_r].
      apply NoDup_app. split_and!; [done | | apply NoDup_singleton].
      intros x Hx ->%list_elem_of_singleton. by apply (proj1 Snew eq_refl).
    + intros j [Hj1 Hj2]%not_elem_of_app.
      rewrite Sother; [by apply Hother|].
      intros ->. apply Hj2. by apply list_elem_of_singleton.
Qed.

Lemma register_dependencies_spec_witness :
  NoDup (ids [Samples.mod_123])
  /\ ids (register_dependencies [Samples.mod_123] ["7"; "123"; "7"]).1 = ["123"; "7"]
  /\ (register_dependencies [Samples.mod_123] ["7"; "123"; "7"]).2 = ["7"]
  /\ NoDup (ids (register_dependencies [Samples.mod_123] ["7"; "123"; "7"]).1).
Proof.
  assert (H : NoDup (ids [Samples.mod_123])) by apply NoDup_singleton.
  split_and!; [exact H | reflexivity | reflexivity |].
  destruct (register_dependencies_spec [Samples.mod_123] ["7"; "123"; "7"])
    as (_ & _ & _ & _ & Hnd & _).
  exact (Hnd H).
Defined.

End Registering.

(** ** Deleting a selection *)

Section Deleting.
Import ModManager Main.

Lemma omap_nil_iff {A B} (f : A -> option B) (l : list A) :
  omap f l = [] <-> forall x, x ∈ l -> f x = None.
Proof.
  induction l as [|x l IH]; simpl.
  - split; [intros _ y Hy; by apply elem_of_nil in Hy | done].
  - destruct (f x) eqn:E.
    + split; [done|]. intros H. specialize (H x (list_elem_of_here _ _)). congruence.
    + rewrite IH. split.
      * intros H y [->|Hy]%elem_of_cons; auto.
      * intros H y Hy. apply H. by right.
Qed.

Lemma omap_length_le {A B} (f : A -> option B) (l : list A) :
  length (omap f l) <= length l.
Proof.
  induction l as [|x l IH]; simpl; [done|].
  change (list_omap A B f l) with (omap f l).
  destruct (f x); simpl; lia.
Qed.

(** X16. [delete_selected] builds no warning exactly when every record
    that lists a selected mod is itself selected; then it deletes
    without asking. With a warning, a declined dialog leaves the
    repository as it was. *)
Theorem dependency_warnings_spec (mods : list Mod) (mods_to_delete : list (Z * Mod)) :
  (dependency_warnings mods mods_to_delete = []
   <-> forall e dep, e ∈ mods_to_delete -> dep ∈ mods ->
                     mod_id e.2 ∈ deps_of dep ->
                     exists e', e' ∈ mods_to_delete /\ mod_id e'.2 = mod_id dep)
  /\ length (dependency_warnings mods mods_to_delete) <= length mods_to_delete
  /\ (dependency_warnings mods mods_to_delete <> [] ->
      delete_selected mods mods_to_delete false = mods)
  /\ (dependency_warnings mods mods_to_delete = [] ->
      forall confirm,
        delete_selected mods mods_to_delete confirm
        = delete_indices mods mods_to_delete).
Proof.
  split_and!.
  - unfold dependency_warnings. rewrite omap_nil_iff. split.
    + intros H e dep He Hdep Hlists. specialize (H e He). simpl in H.
      destruct (remaining_dependents _ _ e.2) as [|x xs] eqn:E; [|done].
      destruct (decide (mod_id dep ∈ (list_to_set (map (fun e0 : Z * Mod => mod_id e0.2)
                                                    mods_to_delete) : gset string)))
        as [Hin|Hout].
      * apply elem_of_list_to_set, list_elem_of_fmap in Hin as (e' & Heq & He').
        eauto.
      * assert (Hrem : dep ∈ remaining_dependents mods
                         (list_to_set (map (fun e0 : Z * Mod => mod_id e0.2) mods_to_delete))
                         e.2).
        { unfold remaining_dependents, find_dependents.
          apply list_elem_of_filter. split; [done|].
          apply list_elem_of_filter. done. }
        rewrite E in Hrem. by apply elem_of_nil in Hrem.
    + intros H e He. simpl.
      destruct (remaining_dependents _ _ e.2) as [|x xs] eqn:E; [done|].
      assert (Hx : x ∈ remaining_dependents mods
                     (list_to_set (map (fun e0 : Z * Mod => mod_id e0.2) mods_to_delete))
                     e.2) by (rewrite E; by left).
      unfold remaining_dependents, find_dependents in Hx.
      apply list_elem_of_filter in Hx as [Hout Hx].
      apply list_elem_of_filter in Hx as [Hlists Hin].
      destruct (H e x He Hin Hlists) as (e' & He' & Heq).
      exfalso. apply Hout. apply elem_of_list_to_set, list_elem_of_fmap. eauto.
  - unfold dependency_warnings. apply omap_length_le.
  - intros Hw. unfold delete_selected. destruct mods_to_delete; [done|].
    by destruct (dependency_warnings _ _).
  - intros Hw confirm. unfold delete_selected. rewrite Hw.
    by destruct mods_to_delete.
Qed.

Lemma dependency_warnings_spec_witness :
  dependency_warnings Samples.diamond
    [(3%Z, Samples.sample_mod "D" (Some 1%Z) [] true)]
  = ["'Mod D' is required by: Mod B, Mod C"]
  /\ delete_selected Samples.diamond
       [(3%Z, Samples.sample_mod "D" (Some 1%Z) [] true)] false
     = Samples.diamond.
Proof.
  split; [by vm_compute|].
  refine (proj1 (proj2 (proj2 (dependency_warnings_spec Samples.diamond
                                 [(3%Z, Samples.sample_mod "D" (Some 1%Z) [] true)]))) _).
  by vm_compute.
Defined.

Lemma omit_from_above off skip l :
  (forall j, j ∈ skip -> j < off) -> omit_from off skip l = l.
Proof.
  revert off. induction l as [|m ms IH]; intros off Hlt; simpl; [done|].
  case_decide as Hin.
  - apply Hlt in Hin. lia.
  - rewrite IH; [done|]. intros j Hj. apply Hlt in Hj. lia.
Qed.

(** Deleting position [i] and then omitting positions below it is
    omitting them all at once. *)
Lemma omit_from_delete l :
  forall off i skip,
    (forall j, j ∈ skip -> j < off + i) ->
    omit_from off skip (delete i l) = omit_from off ({[off + i]} ∪ skip) l.
Proof.
  induction l as [|m ms IH]; intros off i skip Hlt; [done|].
  destruct i as [|i]; simpl.
  - rewrite decide_True by set_solver.
    rewrite !omit_from_above; [done | |].
    + intros j [->%elem_of_singleton|Hj%Hlt]%elem_of_union; lia.
    + intros j Hj%Hlt. lia.
  - rewrite (IH (S off) i skip) by (intros j Hj%Hlt; lia).
    replace (S off + i) with (off + S i) by lia.
    destruct (decide (off ∈ skip)) as [Hin|Hout].
    + by rewrite decide_True by set_solver.
    + rewrite decide_False; [done|].
      intros [Heq%elem_of_singleton|?]%elem_of_union; [lia | done].
Qed.

(** The removal loop over strictly descending positions. *)
Lemma delete_descending (positions : list nat) :
  forall l,
    StronglySorted (fun a b => b < a) positions ->
    foldl (fun ms i => delete i ms) l positions
    = omit_from 0 (list_to_set positions) l.
Proof.
  induction positions as [|i rest IH]; intros l Hsorted; simpl.
  - by rewrite omit_from_above by set_solver.
  - apply StronglySorted_inv in Hsorted as [Hrest Hall].
    rewrite IH by done.
    rewrite (omit_from_delete l 0 i); [done|].
    intros j Hj%elem_of_list_to_set. rewrite Forall_forall in Hall.
    by apply Hall.
Qed.

Lemma insert_desc_perm e l : insert_desc e l ≡ₚ e :: l.
Proof.
  induction l as [|x l IH]; simpl; [done|].
  destruct (x.1 <? e.1)%Z; [done|]. rewrite IH. apply Permutation_swap.
Qed.

Lemma sort_desc_perm l : sort_desc l ≡ₚ l.
Proof.
  unfold sort_desc. induction l as [|e l IH]; simpl; [done|].
  by rewrite insert_desc_perm, IH.
Qed.

Lemma insert_desc_sorted e l :
  StronglySorted (fun a b : Z * Mod => (b.1 <= a.1)%Z) l ->
  StronglySorted (fun a b : Z * Mod => (b.1 <= a.1)%Z) (insert_desc e l).
Proof.
  induction l as [|x l IH]; intros Hs; simpl.
  - repeat constructor.
  - apply StronglySorted_inv in Hs as [Hl Hx].
    destruct (Z.ltb_spec x.1 e.1) as [Hlt|Hge].
    + constructor; [by constructor|].
      constructor; [lia|]. eapply Forall_impl; [exact Hx|]. simpl. lia.
    + constructor; [by apply IH|].
      rewrite insert_desc_perm. by constructor.
Qed.

Lemma sort_desc_sorted l :
  StronglySorted (fun a b : Z * Mod => (b.1 <= a.1)%Z) (sort_desc l).
Proof.
  unfold sort_desc. induction l as [|e l IH]; simpl; [constructor|].
  by apply insert_desc_sorted.
Qed.

Lemma sorted_positions (l : list (Z * Mod)) :
  StronglySorted (fun a b : Z * Mod => (b.1 <= a.1)%Z) l ->
  NoDup (map fst l) ->
  Forall (fun e : Z * Mod => (0 <= e.1)%Z) l ->
  StronglySorted (fun a b => b < a) (map (fun e : Z * Mod => Z.to_nat e.1) l).
Proof.
  induction l as [|e l IH]; intros Hs Hnd Hpos; simpl; [constructor|].
  apply StronglySorted_inv in Hs as [Hl He].
  apply NoDup_cons in Hnd as [Hne Hnd].
  apply Forall_cons in Hpos as [Hpe Hpos].
  constructor; [by apply IH|].
  apply Forall_fmap, Forall_forall. intros x Hx. simpl.
  rewrite Forall_forall in He, Hpos.
  specialize (He x Hx). specialize (Hpos x Hx). simpl in He, Hpos.
  assert (x.1 <> e.1).
  { intros Heq. apply Hne. rewrite <- Heq. apply list_elem_of_fmap. eauto. }
  lia.
Qed.

Lemma remove_by_index_delete l (i : Z) :
  (0 <= i)%Z -> (remove_mod_by_index l i).1 = delete (Z.to_nat i) l.
Proof.
  intros Hi. unfold remove_mod_by_index, valid_index.
  destruct (Z.leb_spec 0 i); [|lia]. simpl.
  destruct (Z.ltb_spec i (Z.of_nat (length l))); [done|]. simpl.
  rewrite delete_take_drop, take_ge, drop_ge by lia. by rewrite app_nil_r.
Qed.

(** X17. The removal loop of [delete_selected], for a selection of
    distinct non-negative indices: it removes exactly the records at the
    selected positions of the repository and keeps the others in order,
    whatever the order of the selection, because the loop runs from the
    highest index down. *)
Theorem delete_indices_spec (mods : list Mod) (mods_to_delete : list (Z * Mod)) :
  NoDup (map fst mods_to_delete) ->
  Forall (fun e : Z * Mod => (0 <= e.1)%Z) mods_to_delete ->
  delete_indices mods mods_to_delete
  = omit_from 0 (list_to_set (map (fun e : Z * Mod => Z.to_nat e.1) mods_to_delete))
      mods.
Proof.
  intros Hnd Hpos. unfold delete_indices.
  pose proof (sort_desc_perm mods_to_delete) as Hperm.
  assert (Hnd' : NoDup (map fst (sort_desc mods_to_delete))).
  { by rewrite Hperm. }
  assert (Hpos' : Forall (fun e : Z * Mod => (0 <= e.1)%Z) (sort_desc mods_to_delete)).
  { by rewrite Hperm. }
  pose proof (sorted_positions _ (sort_desc_sorted mods_to_delete) Hnd' Hpos')
    as Hsorted.
  assert (Hfold : forall l sel,
             Forall (fun e : Z * Mod => (0 <= e.1)%Z) sel ->
             foldl (fun ms e => (remove_mod_by_index ms e.1).1) l sel
             = foldl (fun ms i => delete i ms) l
                 (map (fun e : Z * Mod => Z.to_nat e.1) sel)).
  { intros l sel. revert l. induction sel as [|e sel IH]; intros l Hf; simpl; [done|].
    apply Forall_cons in Hf as [He Hf].
    rewrite remove_by_index_delete by done. by apply IH. }
  rewrite Hfold by done. rewrite delete_descending by done.
  f_equal. apply set_eq. intros k. rewrite !elem_of_list_to_set.
  by rewrite Hperm.
Qed.

Lemma delete_indices_spec_witness :
  ids (delete_indices Samples.diamond
         [(1%Z, Samples.mod_123); (3%Z, Samples.mod_123); (2%Z, Samples.mod_123)])
  = ["A"].
Proof.
  rewrite delete_indices_spec.
  - by vm_compute.
  - apply (bool_decide_unpack _). by vm_compute.
  - repeat constructor; simpl; lia.
Defined.

End Deleting.

(** ** Preparing a download *)

Section Preparing.
Import ModManager Main.

Lemma handle_resolved_batch all_mods p accept batch :
  _handle_dependencies_resolved all_mods p accept = Some batch ->
  batch = filter (fun m => mod_id m ∈ final_mod_ids_to_download p) all_mods.
Proof.
  unfold _handle_dependencies_resolved.
  destruct (added_deps_titles _ _); [|destruct accept; [|done]];
    destruct (filter _ all_mods); congruence.
Qed.

(** X18. [_prepare_download_worker] fails only on an index outside the
    repository. Otherwise the download set is the selection together
    with the added dependencies, the two being disjoint, and in a
    repository without duplicate ids it is closed: every id listed by a
    record whose id is in the set is in the set. The batch that
    [_handle_dependencies_resolved] starts holds, in repository order,
    exactly the records with an id of the set, so every selected record
    and every dependency that has a record is downloaded with it. When
    no dependency was added the user is not asked. *)
Theorem prepare_download_spec (all_mods : list Mod) (initial_mod_indices : list nat) :
  (is_Some (_prepare_download_worker all_mods initial_mod_indices)
   <-> Forall (fun i => i < length all_mods) initial_mod_indices)
  /\ forall p,
      _prepare_download_worker all_mods initial_mod_indices = Some p ->
      final_mod_ids_to_download p = initial_mod_ids p ∪ added_deps_ids p
      /\ added_deps_ids p ## initial_mod_ids p
      /\ (forall i m, i ∈ initial_mod_indices -> all_mods !! i = Some m ->
                      mod_id m ∈ initial_mod_ids p)
      /\ (NoDup (ids all_mods) ->
          forall m d, m ∈ all_mods -> mod_id m ∈ final_mod_ids_to_download p ->
                      d ∈ deps_of m -> d ∈ final_mod_ids_to_download p)
      /\ (added_deps_ids p = ∅ ->
          _handle_dependencies_resolved all_mods p false
          = _handle_dependencies_resolved all_mods p true)
      /\ forall accept batch,
          _handle_dependencies_resolved all_mods p accept = Some batch ->
          batch `sublist_of` all_mods
          /\ (forall m, m ∈ batch
                        <-> m ∈ all_mods /\ mod_id m ∈ final_mod_ids_to_download p)
          /\ (forall i m, i ∈ initial_mod_indices -> all_mods !! i = Some m ->
                          m ∈ batch)
          /\ (NoDup (ids all_mods) ->
              forall m d m', m ∈ batch -> d ∈ deps_of m ->
                             get_mod_by_id all_mods d = Some m' -> m' ∈ batch).
Proof.
  split.
  - unfold _prepare_download_worker.
    destruct (mapM _ initial_mod_indices) as [selected|] eqn:E.
    + destruct (get_all_dependencies_efficient_returns all_mods (list_to_set selected))
        as (r & -> & _).
      split; [intros _ | eauto].
      assert (Hs : is_Some (mapM (fun i => mod_id <$> all_mods !! i) initial_mod_indices))
        by (rewrite E; eauto).
      apply mapM_is_Some in Hs. eapply Forall_impl; [exact Hs|].
      intros i [y Hy]. simpl in Hy.
      destruct (all_mods !! i) eqn:Ei; [|done]. by apply lookup_lt_Some in Ei.
    + split; [by intros [? ?]|]. intros Hall. exfalso.
      apply mapM_None in E. apply Exists_exists in E as (i & Hi & Hnone).
      rewrite Forall_forall in Hall. specialize (Hall i Hi).
      apply lookup_lt_is_Some in Hall as [m Hm]. by rewrite Hm in Hnone.
  - intros p. unfold _prepare_download_worker.
    destruct (mapM _ initial_mod_indices) as [selected|] eqn:E; [|done].
    destruct (get_all_dependencies_efficient _ _) as [r|] eqn:Er; [|done].
    intros [= <-]. cbn [initial_mod_ids final_mod_ids_to_download added_deps_ids].
    apply get_all_dependencies_efficient_may_return in Er as Hr.
    apply mapM_Some in E.
    assert (Hsel : forall i m, i ∈ initial_mod_indices -> all_mods !! i = Some m ->
                               mod_id m ∈ (list_to_set selected : gset string)).
    { intros i m Hi Hm. apply list_elem_of_lookup in Hi as [k Hk].
      destruct (Forall2_lookup_l _ _ _ _ _ E Hk) as (y & Hy & Hf).
      rewrite Hm in Hf. injection Hf as <-.
      apply elem_of_list_to_set, list_elem_of_lookup. eauto. }
    assert (Hclosed : NoDup (ids all_mods) ->
              forall m d, m ∈ all_mods -> mod_id m ∈ list_to_set selected ∪ r ->
                          d ∈ deps_of m -> d ∈ list_to_set selected ∪ r).
    { intros Hnd m d Hm Hid Hd. apply elem_of_union. right.
      pose proof (mods_dict_of_NoDup _ _ Hnd Hm) as Hdict.
      destruct (closure_closed _ _ _ Hr) as (Hseed & Hstep).
      apply elem_of_union in Hid as [Hid|Hid]; [by eapply Hseed | by eapply Hstep]. }
    split_and!.
    + apply set_eq. intros x.
      destruct (decide (x ∈ (list_to_set selected : gset string))); set_solver.
    + set_solver.
    + exact Hsel.
    + exact Hclosed.
    + intros Hadded. unfold _handle_dependencies_resolved, added_deps_titles.
      cbn [added_deps_ids]. rewrite Hadded. by rewrite elements_empty.
    + intros accept batch Hbatch. apply handle_resolved_batch in Hbatch.
      cbn [final_mod_ids_to_download] in Hbatch. subst batch.
      assert (Hmem : forall m,
                 m ∈ filter (fun m => mod_id m ∈ list_to_set selected ∪ r) all_mods
                 <-> m ∈ all_mods /\ mod_id m ∈ list_to_set selected ∪ r).
      { intros m. rewrite list_elem_of_filter. tauto. }
      split_and!.
      * apply sublist_filter.
      * exact Hmem.
      * intros i m Hi Hm. apply Hmem. split.
        -- apply list_elem_of_lookup. eauto.
        -- apply elem_of_union. left. by eapply Hsel.
      * intros Hnd m d m' [Hm Hid]%Hmem Hd Hm'.
        apply get_mod_by_id_Some in Hm' as [<- Hin'].
        apply Hmem. split; [done|]. by apply (Hclosed Hnd m).
Qed.

Lemma prepare_download_spec_witness :
  Forall (fun i => i < length Samples.diamond) [1]
  /\ is_Some (_prepare_download_worker Samples.diamond [1]).
Proof.
  assert (H : Forall (fun i => i < length Samples.diamond) [1]).
  { repeat constructor. }
  split; [exact H|].
  exact (proj2 (proj1 (prepare_download_spec Samples.diamond [1])) H).
Defined.

Example prepare_diamond :
  (fun p => (elements (initial_mod_ids p), elements (added_deps_ids p)))
    <$> _prepare_download_worker Samples.diamond [1]
  = Some (["B"], ["D"])
  /\ (fun p => ids <$> _handle_dependencies_resolved Samples.diamond p true)
       <$> _prepare_download_worker Samples.diamond [1]
     = Some (Some ["B"; "D"])
  /\ _prepare_download_worker Samples.diamond [7] = None.
Proof. split_and!; by vm_compute. Qed.

End Preparing.

(** ** The reader's buffer *)

Section BufferProperties.
Import SteamCMDDownloader.

Lemma buffer_line_last cap seen line :
  buffer_line cap (drop (length seen - cap) seen) line
  = drop (length (seen ++ [line]) - cap) (seen ++ [line]).
Proof.
  unfold buffer_line. rewrite !length_app, length_drop. simpl.
  destruct (Nat.ltb_spec cap (length seen - (length seen - cap) + 1)) as [Hgt|Hle].
  - assert (Hc : cap <= length seen) by lia.
    rewrite <- drop_app_le by lia. rewrite drop_drop. f_equal. lia.
  - assert (Hc : length seen < cap) by lia.
    replace (length seen - cap) with 0 by lia.
    replace (length seen + 1 - cap) with 0 by lia. done.
Qed.

Lemma read_lines_last cap stream :
  forall seen,
    read_lines cap stream (drop (length seen - cap) seen)
    = drop (length (seen ++ lines_read stream) - cap) (seen ++ lines_read stream).
Proof.
  induction stream as [|line rest IH]; intros seen; simpl.
  - by rewrite app_nil_r.
  - destruct (String.eqb line ""); [by rewrite app_nil_r|].
    rewrite buffer_line_last, IH. by rewrite <- app_assoc.
Qed.

(** X19. The buffer that [read_output] fills never holds more than 1000
    lines: it holds the last 1000 of the lines read (all of them while
    there are fewer), in order. *)
Theorem read_output_bounded (stream : list string) :
  length (read_output stream) <= 1000
  /\ read_output stream
     = drop (length (lines_read stream) - 1000) (lines_read stream)
  /\ (length (lines_read stream) <= 1000 -> read_output stream = lines_read stream).
Proof.
  assert (Heq : read_output stream
                = drop (length (lines_read stream) - 1000) (lines_read stream)).
  { unfold read_output. apply (read_lines_last 1000 stream []). }
  split_and!.
  - rewrite Heq, length_drop. lia.
  - exact Heq.
  - intros Hle. rewrite Heq.
    replace (length (lines_read stream) - 1000) with 0 by lia. done.
Qed.

Lemma read_output_bounded_witness :
  length (lines_read ["a"; "b"; ""; "c"]) <= 1000
  /\ read_output ["a"; "b"; ""; "c"] = ["a"; "b"].
Proof.
  assert (H : length (lines_read ["a"; "b"; ""; "c"]) <= 1000) by (simpl; lia).
  split; [exact H|].
  exact (proj2 (proj2 (read_output_bounded ["a"; "b"; ""; "c"])) H).
Defined.

End BufferProperties.

(** ** The accounts of a download *)

Section Accounting.
Import ModManager SteamCMDDownloader.

Lemma bind_current_valid valid line cur m :
  (forall x, cur = Some x -> x ∈ valid) ->
  bind_current (mods_dict_of valid) line cur = Some m -> m ∈ valid.
Proof.
  intros Hcur. unfold bind_current.
  destruct (Re.search_group true start_pattern line) as [i|]; [|by apply Hcur].
  destruct (mods_dict_of valid !! i) as [x|] eqn:E; [|by apply Hcur].
  intros [= <-]. by apply mods_dict_of_lookup in E as [? _].
Qed.

Lemma parse_line_accounted valid n st line :
  accounted valid st -> accounted valid (parse_line (mods_dict_of valid) n st line).
Proof.
  intros (Hsum & Hdet & Hids & Hcur). unfold parse_line.
  destruct (bind_current _ line (current_mod_info st)) as [m|] eqn:E.
  - pose proof (bind_current_valid _ _ _ _ Hcur E) as Hm.
    destruct (is_success line || is_error line); [destruct (is_success line)|];
      unfold accounted; simpl.
    + split_and!; [lia | done | done | done].
    + split_and!.
      * rewrite length_app. simpl. lia.
      * by rewrite map_app, Hdet.
      * intros i [Hi|Hi]%elem_of_app; [by apply Hids|].
        apply list_elem_of_singleton in Hi as ->.
        unfold ids. apply list_elem_of_fmap. eauto.
      * done.
    + split_and!; [done | done | done |]. by intros x [= <-].
  - destruct (is_success line || is_error line); [|done].
    destruct (completed_downloads st <? n)%nat; [|done].
    unfold accounted; simpl. split_and!; [lia | done | done | done].
Qed.

Lemma parse_lines_accounted valid lines : accounted valid (parse_lines valid lines).
Proof.
  unfold parse_lines.
  assert (H : forall st, accounted valid st ->
                         accounted valid
                           (foldl (parse_line (mods_dict_of valid) (length valid)) st lines)).
  { induction lines as [|l ls IH]; intros st Hst; simpl; [done|].
    by apply IH, parse_line_accounted. }
  apply H. unfold accounted, monitor_start. simpl. split_and!; try done.
  intros i Hi. by apply elem_of_nil in Hi.
Qed.

Lemma no_app_id_ids mods i :
  i ∈ map mod_id (no_app_id mods) -> i ∈ ids mods.
Proof.
  unfold no_app_id, ids. intros (m & -> & Hm)%list_elem_of_fmap.
  apply list_elem_of_fmap. exists m. split; [done|].
  apply list_elem_of_In in Hm. apply filter_In in Hm as [Hm _].
  by apply list_elem_of_In.
Qed.

Lemma valid_mods_ids mods i : i ∈ ids (valid_mods_of mods) -> i ∈ ids mods.
Proof.
  unfold valid_mods_of, ids. intros (m & -> & Hm)%list_elem_of_fmap.
  apply list_elem_of_fmap. exists m. split; [done|].
  apply list_elem_of_In in Hm. apply filter_In in Hm as [Hm _].
  by apply list_elem_of_In.
Qed.

Lemma download_mods_nonempty w mods :
  mods <> [] ->
  download_mods w mods =
  if negb (steamcmd_available w) then mkResult 0 0 [] []
  else
    match valid_mods_of mods with
    | [] => mkResult (length (map mod_id (no_app_id mods))) 0
              (map mod_id (no_app_id mods)) (map no_app_id_detail (no_app_id mods))
    | _ =>
        match _execute_steamcmd_with_monitoring (process_run w) (valid_mods_of mods) with
        | Some result =>
            mkResult (completed result + length (map mod_id (no_app_id mods)))
              (successful result)
              (failed_ids result ++ map mod_id (no_app_id mods))
              (failed_details result ++ map no_app_id_detail (no_app_id mods))
        | None => mkResult 0 0 (map mod_id (no_app_id mods))
                    (map no_app_id_detail (no_app_id mods))
        end
    end.
Proof. intros Hne. by destruct mods. Qed.

(** X20. In every result of [download_mods], on every path:
    [failed_details] lists the ids of [failed_ids] in the same order,
    only ids of the batch are reported as failed, and [successful] never
    exceeds [completed]. When the monitor returns normally the counts
    balance: [completed = successful + len(failed_ids)]. When the
    executable is there, every mod of the batch without an app id is in
    [failed_ids], with the detail "No App ID found". *)
Theorem download_result_accounts (w : World) (mods : list Mod) :
  map failed_id (failed_details (download_mods w mods))
  = failed_ids (download_mods w mods)
  /\ (forall i, i ∈ failed_ids (download_mods w mods) -> i ∈ ids mods)
  /\ successful (download_mods w mods) <= completed (download_mods w mods)
  /\ (forall parsed, process_run w = Monitored parsed ->
        completed (download_mods w mods)
        = successful (download_mods w mods)
          + length (failed_ids (download_mods w mods)))
  /\ (steamcmd_available w = true ->
      forall m, m ∈ mods -> has_app_id m = false ->
        mod_id m ∈ failed_ids (download_mods w mods)
        /\ mkFailed (mod_id m) (title_of m) "No App ID found"
           ∈ failed_details (download_mods w mods)).
Proof.
  assert (Hpre : map failed_id (map no_app_id_detail (no_app_id mods))
                 = map mod_id (no_app_id mods)).
  { rewrite map_map. done. }
  assert (Hno : forall m, m ∈ mods -> has_app_id m = false ->
                  mod_id m ∈ map mod_id (no_app_id mods)
                  /\ mkFailed (mod_id m) (title_of m) "No App ID found"
                     ∈ map no_app_id_detail (no_app_id mods)).
  { intros m Hm Happ.
    assert (Hin : m ∈ no_app_id mods).
    { unfold no_app_id. apply list_elem_of_In, filter_In.
      split; [by apply list_elem_of_In | by rewrite Happ]. }
    split; apply list_elem_of_fmap; exists m; done. }
  destruct (decide (mods = [])) as [->|Hne].
  { simpl. split_and!; try done;
      try (intros i Hi; by apply elem_of_nil in Hi);
      try (intros _ m Hm; by apply elem_of_nil in Hm). }
  rewrite (download_mods_nonempty w mods Hne).
  destruct (steamcmd_available w) eqn:Eav; cbn [negb].
  2: { simpl. split_and!; try done;
         try (intros i Hi; by apply elem_of_nil in Hi). }
  destruct (valid_mods_of mods) as [|v vs] eqn:Ev.
  { cbn [failed_ids failed_details completed successful]. split_and!.
    - exact Hpre.
    - apply no_app_id_ids.
    - lia.
    - intros _ _. lia.
    - intros _. exact Hno. }
  rewrite <- Ev.
  destruct (process_run w) as [parsed|parsed|fnf] eqn:Erun;
    cbn [_execute_steamcmd_with_monitoring failed_ids failed_details completed
         successful].
  - pose proof (parse_lines_accounted (valid_mods_of mods) parsed)
      as (Hsum & Hdet & Hids & _).
    assert (Hfin : forall st n,
               failed_ids (finish n st) = mon_failed_ids st
               /\ failed_details (finish n st) = mon_failed_details st
               /\ (completed_downloads st
                   = successful_downloads st + length (mon_failed_ids st) ->
                   completed (finish n st)
                   = successful (finish n st) + length (mon_failed_ids st))).
    { intros st n. unfold finish.
      destruct (Nat.ltb_spec (completed_downloads st) n); simpl;
        (split_and!; [done | done | lia]). }
    destruct (Hfin (parse_lines (valid_mods_of mods) parsed)
                (length (valid_mods_of mods))) as (-> & -> & Hc).
    specialize (Hc Hsum).
    split_and!.
    + by rewrite map_app, Hdet, Hpre.
    + intros i [Hi|Hi]%elem_of_app;
        [by apply valid_mods_ids, Hids | by apply no_app_id_ids].
    + lia.
    + intros _ _. rewrite length_app. lia.
    + intros _ m Hm Happ. destruct (Hno m Hm Happ).
      split; apply elem_of_app; by right.
  - pose proof (parse_lines_accounted (valid_mods_of mods) parsed)
      as (_ & Hdet & Hids & _).
    split_and!.
    + by rewrite map_app, Hdet, Hpre.
    + intros i [Hi|Hi]%elem_of_app;
        [by apply valid_mods_ids, Hids | by apply no_app_id_ids].
    + lia.
    + intros ? [=].
    + intros _ m Hm Happ. destruct (Hno m Hm Happ).
      split; apply elem_of_app; by right.
  - split_and!.
    + exact Hpre.
    + apply no_app_id_ids.
    + lia.
    + intros ? [=].
    + intros _. exact Hno.
Qed.

Lemma download_result_accounts_witness :
  let w := mkWorld true (Monitored ["downloading item 123"; "ERROR! Timeout"]) in
  let r := download_mods w [Samples.mod_123; Samples.mod_no_app] in
  process_run w = Monitored ["downloading item 123"; "ERROR! Timeout"]
  /\ completed r = successful r + length (failed_ids r)
  /\ failed_ids r = ["123"; "9"].
Proof.
  intros w r. split; [reflexivity|]. split; [|reflexivity].
  destruct (download_result_accounts w [Samples.mod_123; Samples.mod_no_app])
    as (_ & _ & _ & H & _).
  exact (H _ eq_refl).
Defined.

End Accounting.

(** ** The description fetch *)

Section DescriptionProperties.
Import SteamAPI.
Variable py_str : json -> string.
Variable unescape : string -> string.

(** [fetch_mod_description] walks the answer as [fetch_mod_info] does. *)
Lemma description_body_details net mod_id :
  description_body unescape net
  = bind (api_details py_str net mod_id)
      (fun checked =>
         match checked with
         | inl _ => ret None
         | inr details =>
             bind (py_get details "description" (JStr ""))
               (fun description =>
                  if truthy description
                  then bind (html_unescape unescape description)
                         (fun unescaped => ret (Some unescaped))
                  else ret None)
         end).
Proof.
  unfold description_body, api_details, bind, ret.
  repeat (case_match; simplify_eq/=); done.
Qed.

(** X21. [fetch_mod_description] reads the API answer only (the page
    scrape plays no part) and returns [None] on every failure. When it
    returns a description, [fetch_mod_info] on the same answer returns a
    result without an error that carries the same description; and when
    [fetch_mod_info] returns a result without an error whose description
    is not empty, [fetch_mod_description] returns that description. *)
Theorem fetch_mod_description_agrees (net : Net) (mod_id : string) :
  (forall scrape,
      fetch_mod_description unescape (mkNet (api_response net) scrape)
      = fetch_mod_description unescape net)
  /\ (forall e, api_response net = inl e -> fetch_mod_description unescape net = None)
  /\ (forall d,
        fetch_mod_description unescape net = Some d ->
        exists r, fetch_mod_info py_str unescape net mod_id = inr r
                  /\ error r = None /\ description r = Some d)
  /\ (forall r d,
        fetch_mod_info py_str unescape net mod_id = inr r ->
        error r = None -> description r = Some d -> truthy d = true ->
        fetch_mod_description unescape net = Some d).
Proof.
  split_and!.
  - intros scrape. unfold fetch_mod_description, description_body. done.
  - intros e He. unfold fetch_mod_description, description_body, bind.
    by rewrite He.
  - intros d. unfold fetch_mod_description.
    rewrite (description_body_details net mod_id).
    unfold fetch_mod_info, fetch_body, describe.
    destruct (api_details py_str net mod_id) as [e|[early|details]] eqn:E;
      simpl; [done | done |].
    destruct (api_details_dict _ _ _ _ E) as [dict ->]. simpl.
    destruct (truthy (default (JStr "") (assoc "description" dict))) eqn:Et;
      simpl; [|done].
    destruct (html_unescape unescape (default (JStr "") (assoc "description" dict)))
      as [e|u]; simpl; [done|].
    intros [= <-]. eexists. split; [reflexivity|]. done.
  - intros r d. unfold fetch_mod_description.
    rewrite (description_body_details net mod_id).
    unfold fetch_mod_info, fetch_body, describe.
    destruct (api_details py_str net mod_id) as [e|[early|details]] eqn:E; simpl.
    + destruct e; intros [= <-]; done.
    + destruct (api_details_early _ _ _ _ E) as [msg ->]. intros [= <-]. done.
    + destruct (api_details_dict _ _ _ _ E) as [dict ->]. simpl.
      destruct (truthy (default (JStr "") (assoc "description" dict))) eqn:Et; simpl.
      * destruct (html_unescape unescape (default (JStr "") (assoc "description" dict)))
          as [e|u]; simpl.
        -- destruct e; intros [= <-]; done.
        -- intros [= <-] _. simpl. by intros [= <-] _.
      * intros [= <-] _. simpl. intros [= <-] Htrue. congruence.
Qed.

End DescriptionProperties.

Lemma fetch_mod_description_agrees_witness :
  let net := SteamAPI.mkNet (inr Samples.api_ok) (inr None) in
  SteamAPI.fetch_mod_description Samples.no_entities net
  = Some (SteamAPI.JStr "text")
  /\ exists r,
       SteamAPI.fetch_mod_info Samples.show_code Samples.no_entities net "123" = inr r
       /\ SteamAPI.error r = None
       /\ SteamAPI.description r = Some (SteamAPI.JStr "text").
Proof.
  intros net. split; [reflexivity|].
  exact (proj1 (proj2 (proj2
           (fetch_mod_description_agrees Samples.show_code Samples.no_entities
              net "123"))) _ eq_refl).
Defined.

(** ** What the patterns capture *)

Section Captures.
Import ModManager.

Lemma star_inv {R} (p : N -> bool) (s : list N) (k : list N -> option R) r :
  Re.star p s k = Some r ->
  exists ds s', s = (ds ++ s')%list /\ forallb p ds = true /\ k s' = Some r.
Proof.
  induction s as [|c s IH]; simpl.
  - intros H. by exists [], [].
  - destruct (p c) eqn:Ec.
    + destruct (Re.star p s k) as [r'|] eqn:Es.
      * intros [= ->]. destruct (IH eq_refl) as (ds & s' & -> & Hds & Hk).
        exists (c :: ds), s'. simpl. by rewrite Ec.
      * intros Hk. by exists [], (c :: s).
    + intros Hk. by exists [], (c :: s).
Qed.

Lemma consumed_app (a b : list N) : Re.consumed (a ++ b)%list b = a.
Proof.
  unfold Re.consumed. rewrite length_app.
  replace (length a + length b - length b) with (length a) by lia.
  by rewrite take_app_length.
Qed.

(** A successful match ends in a success of the continuation. *)
Lemma go_cont {R} icase (r : Re.re) :
  forall s cap (k : list N -> option (list N) -> option R) x,
    Re.go icase r s cap k = Some x -> exists s' cap', k s' cap' = Some x.
Proof.
  induction r as [l|p|a IHa b IHb|a IHa b IHb|p|a IHa]; intros s cap k x; simpl.
  - destruct (Re.lit icase l s); [eauto | done].
  - destruct s as [|c s]; [done|]. destruct (p c); [eauto | done].
  - intros H. apply IHa in H as (s' & cap' & H). by apply IHb in H.
  - destruct (Re.go icase a s cap k) eqn:E.
    + intros [= ->]. by apply IHa in E.
    + apply IHb.
  - intros H. apply star_inv in H as (_ & s' & _ & _ & H). eauto.
  - intros H. apply IHa in H as (s' & _ & H). eauto.
Qed.

(** The group [(\d+)] captures one or more characters of the class. *)
Lemma go_group_digits {R} icase s cap
  (k : list N -> option (list N) -> option R) x :
  Re.go icase (Re.Grp (Re.Plus Re.digit)) s cap k = Some x ->
  exists g s', g <> [] /\ forallb Re.digit g = true /\ k s' (Some g) = Some x.
Proof.
  simpl. destruct s as [|c s]; [done|].
  destruct (Re.digit c) eqn:Ec; [|done].
  intros H. apply star_inv in H as (ds & s' & -> & Hds & Hk).
  exists (c :: ds), s'. split_and!; [done | by simpl; rewrite Ec |].
  by rewrite <- (consumed_app (c :: ds) s').
Qed.

Lemma search_from_inv icase r s c :
  Re.search_from icase r s = Some c ->
  exists t, Re.go icase r t None (fun _ cap => Some cap) = Some c.
Proof.
  induction s as [|a s IH]; simpl.
  - destruct (Re.go icase r [] None _) eqn:E; [|done]. intros [= ->]. eauto.
  - destruct (Re.go icase r (a :: s) None _) eqn:E; [|apply IH].
    intros [= ->]. eauto.
Qed.

Lemma go_ends_in_id {R} icase (r : Re.re) :
  Re.ends_in_id r ->
  forall s cap (k : list N -> option (list N) -> option R) x,
    Re.go icase r s cap k = Some x ->
    exists g s', g <> [] /\ forallb Re.digit g = true
                 /\ k s' (Some g) = Some x.
Proof.
  induction 1 as [|a b Hb IH]; intros s cap k x H.
  - cbn [Re.go] in H. destruct (Re.lit icase "id=" s) as [s2|]; [|done].
    change (Re.go icase (Re.Grp (Re.Plus Re.digit)) s2 cap k = Some x) in H.
    by apply go_group_digits in H.
  - cbn [Re.go] in H. apply go_cont in H as (s1 & cap1 & H). by eapply IH.
Qed.

Lemma encode_char_nonempty c : Re.encode_char c <> "".
Proof. unfold Re.encode_char. by repeat case_match. Qed.

Lemma chars_of_nonempty p s : Re.chars_of p s -> s <> "".
Proof.
  intros (cs & Hne & _ & ->). destruct cs as [|c cs]; [done|]. simpl.
  pose proof (encode_char_nonempty c). by destruct (Re.encode_char c).
Qed.

(** The patterns that end in [id=(\d+)] capture the text of one or more
    decimal digits. *)
Lemma id_group_digits icase (r : Re.re) s g :
  Re.ends_in_id r ->
  Re.search_group icase r s = Some g ->
  Re.chars_of Re.digit g.
Proof.
  intros Hr. unfold Re.search_group, Re.search.
  destruct (Re.search_from icase r (Re.decode s)) as [[c|]|] eqn:E; [|done..].
  intros [= <-]. apply search_from_inv in E as [t E].
  apply (go_ends_in_id _ _ Hr) in E as (g' & s3 & Hne & Hd & [= <-]).
  by exists g'.
Qed.

Lemma url_pattern_ends : Re.ends_in_id url_pattern.
Proof. unfold url_pattern. repeat constructor. Qed.

Lemma id_pattern_ends : Re.ends_in_id SteamAPI.id_pattern.
Proof. constructor. Qed.

(** X22. An id that [add_mod_by_url] returns is the text of one or more
    decimal digits, as [\d] takes them: [0-9] or the decimal digits of
    any other script. It is not empty and it has a record afterwards; a
    url without a match leaves the repository as it was. *)
Theorem add_mod_by_url_spec (mods : list Mod) (u : string) :
  (forall i, (add_mod_by_url mods u).2 = Some i ->
             i <> ""
             /\ Re.chars_of Re.digit i
             /\ i ∈ ids (add_mod_by_url mods u).1
             /\ (add_mod_by_url mods u).1 = (add_mod_by_id mods i false).1)
  /\ ((add_mod_by_url mods u).2 = None -> (add_mod_by_url mods u).1 = mods).
Proof.
  unfold add_mod_by_url.
  destruct (Re.search_group false url_pattern u) as [i|] eqn:E; simpl.
  - split; [|done]. intros j [= <-].
    pose proof (id_group_digits _ _ _ _ url_pattern_ends E) as Hd.
    split_and!; [by eapply chars_of_nonempty | done | | done].
    rewrite ids_add_mod_by_id. case_decide; [done|].
    apply elem_of_app. right. by left.
  - by split.
Qed.

Lemma add_mod_by_url_spec_witness :
  (add_mod_by_url [] "steamcommunity.com/workshop/filedetails/?id=42").2 = Some "42"
  /\ Re.chars_of Re.digit "42".
Proof.
  split; [reflexivity|].
  exact (proj1 (proj2 (proj1 (add_mod_by_url_spec []
           "steamcommunity.com/workshop/filedetails/?id=42") "42" eq_refl))).
Defined.

(** The pattern has no [re.ASCII]: an id written in Arabic-Indic digits
    (U+0661 U+0662 U+0663) is taken and recorded as it is. *)
Example url_other_digits :
  let i := Re.encode [1633; 1634; 1635]%N in
  add_mod_by_url [] ("steamcommunity.com/workshop/filedetails/?id=" +:+ i)
  = ([placeholder i false], Some i).
Proof. by vm_compute. Qed.

Lemma required_ids_digits hrefs :
  Forall (Re.chars_of Re.digit) (SteamAPI.required_ids hrefs).
Proof.
  induction hrefs as [|[href|] rest IH]; simpl; [constructor | | done].
  destruct (negb (String.eqb href "")); [|done].
  destruct (Re.search_group false SteamAPI.id_pattern href) as [i|] eqn:E; [|done].
  constructor; [|done]. by apply (id_group_digits _ _ _ _ id_pattern_ends E).
Qed.

(** X23. Every dependency id in a result of [fetch_mod_info] is the text
    of one or more decimal digits, as [\d] takes them, and the list is
    empty unless the page had a required-items block. *)
Theorem fetched_dependencies_are_ids (py_str : SteamAPI.json -> string)
  (unescape : string -> string) (net : SteamAPI.Net) (mod_id : string)
  (r : SteamAPI.ModInfo) (deps : list string) :
  SteamAPI.fetch_mod_info py_str unescape net mod_id = inr r ->
  SteamAPI.dependencies r = Some deps ->
  Forall (fun i => i <> "" /\ Re.chars_of Re.digit i) deps
  /\ ((forall hrefs, SteamAPI.page_scrape net <> inr (Some hrefs)) -> deps = []).
Proof.
  intros Hr Hdeps.
  destruct (fetch_mod_info_cases _ _ _ _ _ Hr) as [[msg ->]|(_ & Hd & _)];
    [done|].
  rewrite Hd in Hdeps. injection Hdeps as <-.
  unfold SteamAPI.scrape_dependencies.
  destruct (SteamAPI.page_scrape net) as [e|[hrefs|]] eqn:E.
  - by split.
  - split; [|intros H; by destruct (H hrefs)].
    eapply Forall_impl; [apply required_ids_digits|].
    intros i Hi. split; [by eapply chars_of_nonempty | done].
  - by split.
Qed.

Lemma fetched_dependencies_are_ids_witness :
  let net := SteamAPI.mkNet (inr Samples.api_ok)
               (inr (Some [Some "https://steamcommunity.com/workshop/filedetails/?id=818773962"]))
  in
  exists r,
    SteamAPI.fetch_mod_info Samples.show_code Samples.no_entities net "123" = inr r
    /\ SteamAPI.dependencies r = Some ["818773962"]
    /\ Forall (fun i => i <> "" /\ Re.chars_of Re.digit i) ["818773962"].
Proof.
  intros net. eexists. split; [reflexivity|]. split; [reflexivity|].
  exact (proj1 (fetched_dependencies_are_ids Samples.show_code Samples.no_entities
                  net "123" _ _ eq_refl eq_refl)).
Defined.

End Captures.

(** ** The monitor on a well-formed log *)

Section WellFormedLog.
Import ModManager SteamCMDDownloader.

Lemma parse_run valid n st r :
  NoDup (ids valid) -> clean_run valid r -> current_mod_info st = None ->
  foldl (parse_line (mods_dict_of valid) n) st [start_line r; result_line r]
  = if run_failed r then
      mkMonitor (S (completed_downloads st)) (successful_downloads st) None
        (mon_failed_ids st ++ [mod_id (run_mod r)])
        (mon_failed_details st ++ [failure_of r])
    else
      mkMonitor (S (completed_downloads st)) (S (successful_downloads st)) None
        (mon_failed_ids st) (mon_failed_details st).
Proof.
  intros Hnd (Hin & Hstart & Hs1 & He1 & Hres & Hsame) Hcur.
  pose proof (mods_dict_of_NoDup _ _ Hnd Hin) as Hdict.
  cbn [foldl].
  assert (H1 : parse_line (mods_dict_of valid) n st (start_line r)
               = mkMonitor (completed_downloads st) (successful_downloads st)
                   (Some (run_mod r)) (mon_failed_ids st) (mon_failed_details st)).
  { unfold parse_line, bind_current. by rewrite Hstart, Hdict, Hs1, He1. }
  rewrite H1. unfold parse_line, run_failed. cbn [current_mod_info].
  assert (Hb : bind_current (mods_dict_of valid) (result_line r) (Some (run_mod r))
               = Some (run_mod r)).
  { unfold bind_current. destruct Hsame as [-> | ->]; [done | by rewrite Hdict]. }
  rewrite Hb, Hres. by destruct (is_success (result_line r)).
Qed.

Lemma parse_runs valid n runs :
  NoDup (ids valid) -> Forall (clean_run valid) runs ->
  forall st, current_mod_info st = None ->
    foldl (parse_line (mods_dict_of valid) n) st (run_lines runs)
    = mkMonitor (completed_downloads st + length runs)
        (successful_downloads st
         + length (List.filter (fun r => negb (run_failed r)) runs))
        None
        (mon_failed_ids st
         ++ map (fun r => mod_id (run_mod r)) (List.filter run_failed runs))
        (mon_failed_details st ++ map failure_of (List.filter run_failed runs)).
Proof.
  intros Hnd Hclean. induction Hclean as [|r runs Hr _ IH]; intros st Hcur.
  - simpl. rewrite !Nat.add_0_r, !app_nil_r. by destruct st; simpl in *; subst.
  - change (run_lines (r :: runs))
      with ([start_line r; result_line r] ++ run_lines runs)%list.
    rewrite foldl_app, (parse_run _ _ _ _ Hnd Hr Hcur).
    cbn [List.filter]. destruct (run_failed r); cbn [negb].
    + rewrite IH by done. cbn. f_equal; [lia | by rewrite <- app_assoc..].
    + rewrite IH by done. cbn. f_equal; lia.
Qed.

(** X24. On a log in which every download shows as a clean pair of lines
    (the announcement of an item of the batch, then its outcome), for a
    batch without duplicate ids, the loop counts one completion per pair,
    one success per pair whose outcome line matches the success pattern,
    and records the others as failed, in the order of the log. When the
    log has one pair per valid mod the returned dict holds these counts
    unchanged. *)
Theorem monitor_on_clean_log (valid_mods : list Mod) (runs : list Run) :
  NoDup (ids valid_mods) ->
  Forall (clean_run valid_mods) runs ->
  parse_lines valid_mods (run_lines runs)
  = mkMonitor (length runs)
      (length (List.filter (fun r => negb (run_failed r)) runs)) None
      (map (fun r => mod_id (run_mod r)) (List.filter run_failed runs))
      (map failure_of (List.filter run_failed runs))
  /\ (length runs = length valid_mods ->
      _execute_steamcmd_with_monitoring (Monitored (run_lines runs)) valid_mods
      = Some (mkResult (length runs)
                (length (List.filter (fun r => negb (run_failed r)) runs))
                (map (fun r => mod_id (run_mod r)) (List.filter run_failed runs))
                (map failure_of (List.filter run_failed runs)))).
Proof.
  intros Hnd Hclean.
  assert (Hparse : parse_lines valid_mods (run_lines runs)
    = mkMonitor (length runs)
        (length (List.filter (fun r => negb (run_failed r)) runs)) None
        (map (fun r => mod_id (run_mod r)) (List.filter run_failed runs))
        (map failure_of (List.filter run_failed runs))).
  { unfold parse_lines. by rewrite (parse_runs _ _ _ Hnd Hclean monitor_start). }
  split; [exact Hparse|].
  intros Hlen. unfold _execute_steamcmd_with_monitoring. rewrite Hparse.
  unfold finish. cbn [completed_downloads]. rewrite Hlen.
  by rewrite Nat.ltb_irrefl.
Qed.

Lemma monitor_on_clean_log_witness :
  let runs := [mkRun Samples.mod_123 "Downloading item 123 ..."
                 "Success. Downloaded item 123 to disk"] in
  NoDup (ids [Samples.mod_123])
  /\ Forall (clean_run [Samples.mod_123]) runs
  /\ _execute_steamcmd_with_monitoring (Monitored (run_lines runs)) [Samples.mod_123]
     = Some (mkResult 1 1 [] []).
Proof.
  intros runs.
  assert (Hnd : NoDup (ids [Samples.mod_123])) by apply NoDup_singleton.
  assert (Hclean : Forall (clean_run [Samples.mod_123]) runs).
  { repeat constructor. }
  split_and!; [exact Hnd | exact Hclean |].
  exact (proj2 (monitor_on_clean_log _ _ Hnd Hclean) eq_refl).
Defined.

Lemma parse_silent valid n lines :
  Forall (fun l => is_success l = false /\ is_error l = false) lines ->
  forall st,
    let st' := foldl (parse_line (mods_dict_of valid) n) st lines in
    completed_downloads st' = completed_downloads st
    /\ successful_downloads st' = successful_downloads st
    /\ mon_failed_ids st' = mon_failed_ids st
    /\ mon_failed_details st' = mon_failed_details st.
Proof.
  induction 1 as [|l ls [Hs He] _ IH]; intros st; [done|].
  cbn [foldl]. cbv zeta in IH.
  destruct (IH (parse_line (mods_dict_of valid) n st l)) as (-> & -> & -> & ->).
  unfold parse_line. rewrite Hs, He. simpl.
  by destruct (bind_current _ l (current_mod_info st)).
Qed.

(** X25. When no parsed line matches the success or the error pattern
    (nothing was read yet when the loop was stopped, or only progress
    lines were), the monitor returns every valid mod as completed and as
    successful, with no failure. *)
Theorem monitor_without_outcomes (valid_mods : list Mod) (parsed : list string) :
  Forall (fun l => is_success l = false /\ is_error l = false) parsed ->
  _execute_steamcmd_with_monitoring (Monitored parsed) valid_mods
  = Some (mkResult (length valid_mods) (length valid_mods) [] []).
Proof.
  intros Hsilent. unfold _execute_steamcmd_with_monitoring, parse_lines.
  destruct (parse_silent valid_mods (length valid_mods) parsed Hsilent monitor_start)
    as (Hc & Hs & Hf & Hd).
  unfold finish. rewrite Hc, Hs, Hf, Hd. simpl.
  destruct (Nat.ltb_spec 0 (length valid_mods)) as [Hlt|Hge]; f_equal.
  - f_equal. lia.
  - f_equal; lia.
Qed.

Lemma monitor_without_outcomes_witness :
  _execute_steamcmd_with_monitoring
    (Monitored ["Downloading item 123 ..."; " 45%"]) [Samples.mod_123]
  = Some (mkResult 1 1 [] []).
Proof.
  apply monitor_without_outcomes. repeat constructor.
Defined.

End WellFormedLog.
